(** * Record linkage of patient rows: normalisation, Soundex, blocking,
      union-find clustering (patient_data_research.py)

    A shallow embedding of the linkage engine of [patient_data_research.py]
    and the properties of its specification.

    Conventions of the embedding.
    - A Python [str] is a [string]; the character-level work is done on
      [list ascii].  A character is a code point of the 8-bit range
      U+0000..U+00FF and is classified the way CPython classifies that
      code point ([str.isspace], [str.isalnum], the [\w] and [\s] classes
      of [re] on [str] patterns, [str.lower]).
    - A Python list indexed by position is a [list] read with [!!] and
      written with [<[i:=x]>]; a read out of range raises [IndexError].
      The indices of the engine come from [enumerate] and [range] and are
      naturals; [DSUAt] has the methods of the class on every integer,
      a negative index counting from the end.
    - A [dict] is a [gmap]; the [defaultdict] of blocks, whose iteration
      order decides the order of the unions, is an association list in
      insertion order.
    - A loop that Python runs until its condition fails takes a fuel
      argument; running out of fuel is the result [Diverge], distinct from
      every exception. *)

From Stdlib Require Import Ascii String ZArith QArith Sorted.
From stdpp Require Import gmap strings list fin_maps.

Local Open Scope string_scope.
Local Open Scope list_scope.
Local Open Scope nat_scope.

(* ===================================================================== *)
(** ** Text *)
(* ===================================================================== *)

Module Text.

Definition code (c : ascii) : nat := nat_of_ascii c.

Definition between (lo hi : nat) (c : ascii) : bool :=
  (lo <=? code c) && (code c <=? hi).

(** [str.isspace] / the class [\s]: TAB..CR, FS..US, SPACE, NEL, NBSP. *)
Definition is_space (c : ascii) : bool :=
  between 9 13 c || between 28 32 c || (code c =? 133) || (code c =? 160).

(** [str.isalnum]: alphabetic, decimal, digit or numeric code points. *)
Definition is_alnum (c : ascii) : bool :=
  between 48 57 c || between 65 90 c || between 97 122 c
  || (code c =? 170) || between 178 179 c || (code c =? 181)
  || between 185 186 c || between 188 190 c
  || between 192 214 c || between 216 246 c || between 248 255 c.

(** The class [\w]: alphanumeric or the underscore. *)
Definition is_word (c : ascii) : bool :=
  is_alnum c || (code c =? 95).

(** [str.lower] on one code point. *)
Definition lower_char (c : ascii) : ascii :=
  if between 65 90 c || between 192 214 c || between 216 222 c
  then ascii_of_nat (code c + 32) else c.

(** [str.upper]: sharp s becomes two letters; the micro sign and y with
    diaeresis, whose capitals lie outside the 8-bit range, are left as
    they are. *)
Definition upper_char (c : ascii) : list ascii :=
  if between 97 122 c || between 224 246 c || between 248 254 c
  then [ascii_of_nat (code c - 32)]
  else if code c =? 223 then ["S"; "S"]%char
  else [c].

Definition lower (s : list ascii) : list ascii := map lower_char s.
Definition upper (s : list ascii) : list ascii := flat_map upper_char s.

(** [s.lstrip()], [s.rstrip()], [s.strip()]. *)
Fixpoint lstrip (s : list ascii) : list ascii :=
  match s with
  | c :: t => if is_space c then lstrip t else s
  | [] => []
  end.

(** [rstrip] keeps a character when something is kept behind it or
    when it is not white. *)
Fixpoint rstrip (s : list ascii) : list ascii :=
  match s with
  | [] => []
  | c :: t =>
      match rstrip t with
      | [] => if is_space c then [] else [c]
      | t' => c :: t'
      end
  end.

Definition strip (s : list ascii) : list ascii := rstrip (lstrip s).

(** [re.sub(r"[^\w\s]", " ", s)]. *)
Definition blank_punct (c : ascii) : ascii :=
  if is_word c || is_space c then c else " "%char.

(** [re.sub(r"\s+", " ", s)]: the first character of a maximal run of
    white space is rewritten to one space, the rest of the run is
    dropped.  [in_run] says that the previous character was white. *)
Fixpoint collapse_from (in_run : bool) (s : list ascii) : list ascii :=
  match s with
  | [] => []
  | c :: t =>
      if is_space c
      then (if in_run then collapse_from true t
            else " "%char :: collapse_from true t)
      else c :: collapse_from false t
  end.

Definition collapse (s : list ascii) : list ascii := collapse_from false s.

(** [s[:n]] *)
Definition prefix (n : nat) (s : string) : string :=
  string_of_list_ascii (take n (list_ascii_of_string s)).

End Text.

(* ===================================================================== *)
(** ** Helpers *)
(* ===================================================================== *)

Definition NAME_SIMILARITY_THRESHOLD : Q := 65 # 1.

Definition normalize_name_chars (s : list ascii) : list ascii :=
  Text.strip (Text.collapse (map Text.blank_punct (Text.lower s))).

(** [normalize_name]; [None] is a missing value ([pd.isna]). *)
Definition normalize_name (name : option string) : string :=
  match name with
  | None => ""
  | Some s => string_of_list_ascii (normalize_name_chars (list_ascii_of_string s))
  end.

Definition normalize_gender (g : option string) : string :=
  match g with
  | None => ""
  | Some g =>
      let s := string_of_list_ascii
                 (Text.lower (Text.strip (list_ascii_of_string g))) in
      if bool_decide (s ∈ ["m"; "male"; "man"]) then "male"
      else if bool_decide (s ∈ ["f"; "female"; "woman"]) then "female"
      else if bool_decide (s ∈ ["o"; "other"; "non-binary"; "nb"]) then "other"
      else s
  end.

(** The table [codes], in the order the dictionary is iterated. *)
Definition codes : list (string * ascii) :=
  [("BFPV", "1"%char); ("CGJKQSXZ", "2"%char); ("DT", "3"%char);
   ("L", "4"%char); ("MN", "5"%char); ("R", "6"%char)].

(** The inner [for key, val in codes.items()] with its [break]: the value
    of the first key that contains [char], [None] when the loop runs to
    its [else]. *)
Fixpoint lookup_code (tbl : list (string * ascii)) (char : ascii) : option ascii :=
  match tbl with
  | [] => None
  | (key, val) :: rest =>
      if bool_decide (char ∈ list_ascii_of_string key) then Some val
      else lookup_code rest char
  end.

(** One turn of [for char in name[1:]]; [sndx] is never empty here. *)
Definition soundex_step (sndx : list ascii) (char : ascii) : list ascii :=
  match lookup_code codes char with
  | Some code =>
      if bool_decide (Some code ≠ last sndx) then sndx ++ [code] else sndx
  | None => sndx ++ ["0"%char]
  end.

Definition soundex_chars (name : list ascii) : list ascii :=
  match Text.upper name with
  | [] => []
  | first :: rest =>
      let sndx := fold_left soundex_step rest [first] in
      let sndx := filter (λ c, c ≠ "0"%char) sndx in
      take 4 (sndx ++ ["0"; "0"; "0"]%char)
  end.

Definition soundex (name : string) : string :=
  string_of_list_ascii (soundex_chars (list_ascii_of_string name)).

(** [n.split(" ")[0] if n else ""] *)
Fixpoint first_field (s : list ascii) : list ascii :=
  match s with
  | [] => []
  | c :: t => if bool_decide (c = " "%char) then [] else c :: first_field t
  end.

Definition first_token (n : string) : string :=
  string_of_list_ascii (first_field (list_ascii_of_string n)).

(* ===================================================================== *)
(** ** Results of fallible, possibly non-terminating code *)
(* ===================================================================== *)

Inductive exn := IndexError | KeyError.

Inductive res (A : Type) : Type :=
| Ret (a : A)
| Raise (e : exn)
| Diverge.

Arguments Ret {A} a.
Arguments Raise {A} e.
Arguments Diverge {A}.

Definition bind {A B : Type} (m : res A) (k : A → res B) : res B :=
  match m with
  | Ret a => k a
  | Raise e => Raise e
  | Diverge => Diverge
  end.

Notation "'let*' x ':=' m 'in' k" := (bind m (λ x, k))
  (at level 10, x pattern, m at level 100, k at level 200, only parsing).

(** A [for] loop over [l] threading the state [b]. *)
Fixpoint for_each {A B : Type} (f : B → A → res B) (l : list A) (b : B) : res B :=
  match l with
  | [] => Ret b
  | x :: l => let* b' := f b x in for_each f l b'
  end.

(** [l[i]] on a Python list. *)
Definition get {A : Type} (l : list A) (i : nat) : res A :=
  match l !! i with
  | Some x => Ret x
  | None => Raise IndexError
  end.

(** [l[i] = x] on a Python list. *)
Definition put {A : Type} (l : list A) (i : nat) (x : A) : res (list A) :=
  if i <? length l then Ret (<[i := x]> l) else Raise IndexError.

(** [d[k]] on a Python dict. *)
Definition getitem `{Countable K} {V : Type} (d : gmap K V) (k : K) : res V :=
  match d !! k with
  | Some x => Ret x
  | None => Raise KeyError
  end.

(* ===================================================================== *)
(** ** class DSU *)
(* ===================================================================== *)

Module DSU.

Record t := mk { parent : list nat; size : list nat }.

(** [__init__] *)
Definition init (n : nat) : t := mk (seq 0 n) (replicate n 1).

(** The [while] loop of [find], with path halving.  It works on
    [self.parent] alone and returns the new array with the root. *)
Fixpoint find_loop (fuel : nat) (p : list nat) (a : nat) : res (list nat * nat) :=
  match fuel with
  | 0 => Diverge
  | S fuel =>
      let* pa := get p a in
      if pa =? a then Ret (p, a)
      else
        let* g := get p pa in
        let* p := put p a g in
        let* a := get p a in
        find_loop fuel p a
  end.

(** [find].  The loop is given one turn more than there are nodes: a
    walk to the root of a forest never needs more ([find_loop_enough]),
    and the first turn, which reads [parent[a]], is taken in an empty
    forest too. *)
Definition find (d : t) (a : nat) : res (t * nat) :=
  let* (p, r) := find_loop (S (length (parent d))) (parent d) a in
  Ret (mk p (size d), r).

(** [union] *)
Definition union (d : t) (a b : nat) : res t :=
  let* (d, pa) := find d a in
  let* (d, pb) := find d b in
  if pa =? pb then Ret d
  else
    let* sa := get (size d) pa in
    let* sb := get (size d) pb in
    let '(pa, pb) := if sa <? sb then (pb, pa) else (pa, pb) in
    let* sa := get (size d) pa in
    let* sb := get (size d) pb in
    let* parent := put (parent d) pb pa in
    let* size := put (size d) pa (sa + sb) in
    Ret (mk parent size).

End DSU.

(* ===================================================================== *)
(** ** detect_duplicates and process_file *)
(* ===================================================================== *)

(** A nullable [Int64] column. *)
Abbreviation Int64_series := (list (option Z)).

Section Pipeline.

(** What the code takes from pandas and rapidfuzz: the time stamps,
    [Timestamp.isoformat], [Series.dt.normalize] on one value,
    [pd.to_datetime(column, errors="coerce")] with [None] for [NaT], and
    the scorer [fuzz.partial_ratio]. *)
Variable Timestamp : Type.
Variable isoformat : Timestamp → string.
Variable dt_normalize : Timestamp → Timestamp.
Variable Cell : Type.
Variable to_datetime : list (option Cell) → list (option Timestamp).
Variable partial_ratio : string → string → Q.

(** The four columns [detect_duplicates] reads, one record per row. *)
Record row := mk_row {
  Name_norm : string;
  DOB_parsed : option Timestamp;
  Gender_norm : string;
  Soundex : string
}.

(** A key of [blocks]: the tuple [(dob_key, g, sx[:2])].  [None] in the
    first place is [pd.NaT]: it is one object, and two tuples that hold it
    are the same dictionary key. *)
Definition block_key : Type := option string * string * string.

Definition key_of (r : row) : block_key :=
  (isoformat <$> DOB_parsed r, Gender_norm r, Text.prefix 2 (Soundex r)).

(** [blocks[k].append(idx)] on the [defaultdict(list)]: a known key gets
    [idx] at the end of its list, a new key enters behind all others. *)
Fixpoint blocks_append (k : block_key) (idx : nat)
    (blocks : list (block_key * list nat)) : list (block_key * list nat) :=
  match blocks with
  | [] => [(k, [idx])]
  | (k', l) :: rest =>
      if decide (k' = k) then (k', l ++ [idx]) :: rest
      else (k', l) :: blocks_append k idx rest
  end.

(** The first loop: [for idx, (d, g, sx) in enumerate(zip(...))]. *)
Definition build_blocks (df : list row) : list (block_key * list nat) :=
  fold_left (λ blocks '(idx, r), blocks_append (key_of r) idx blocks)
            (imap pair df) [].

(** [names[i]] *)
Definition name_at (df : list row) (i : nat) : res string :=
  match df !! i with
  | Some r => Ret (Name_norm r)
  | None => Raise KeyError
  end.

(** [matrix[i][j] >= NAME_SIMILARITY_THRESHOLD], where [matrix[i][j]] is
    the score of [block_names[i]] against [block_names[j]]. *)
Definition similar (a b : string) : bool :=
  Qle_bool NAME_SIMILARITY_THRESHOLD (partial_ratio a b).

(** The two nested [range] loops over one block: every member against
    every later member, in order.  The list pairs [indices[i]] with
    [block_names[i]]. *)
Fixpoint link_members (members : list (nat * string)) (dsu : DSU.t) : res DSU.t :=
  match members with
  | [] => Ret dsu
  | (a, na) :: later =>
      let* dsu := for_each (λ dsu '(b, nb),
                  if similar na nb then DSU.union dsu a b else Ret dsu)
                later dsu in
      link_members later dsu
  end.

Definition link_block (df : list row) (dsu : DSU.t)
    (blk : block_key * list nat) : res DSU.t :=
  let indices := blk.2 in
  if length indices <? 2 then Ret dsu
  else
    let* block_names :=
      for_each (λ acc i, let* n := name_at df i in Ret (acc ++ [n])) indices [] in
    link_members (zip indices block_names) dsu.

(** Lines 73-86: the forest after all unions. *)
Definition link (df : list row) : res DSU.t :=
  for_each (link_block df) (build_blocks df) (DSU.init (length df)).

(** Line 89: [counts[dsu.find(i)] = counts.get(dsu.find(i), 0)+1]; the
    right-hand side is evaluated first, then the subscript. *)
Definition count_step (st : DSU.t * gmap nat nat) (i : nat)
    : res (DSU.t * gmap nat nat) :=
  let '(dsu, counts) := st in
  let* (dsu, r1) := DSU.find dsu i in
  let v := default 0 (counts !! r1) + 1 in
  let* (dsu, r2) := DSU.find dsu i in
  Ret (dsu, <[r2 := v]> counts).

(** Lines 90-96. *)
Definition number_step (counts : gmap nat nat)
    (st : DSU.t * gmap nat Z * Z * list Z) (i : nat)
    : res (DSU.t * gmap nat Z * Z * list Z) :=
  let '(dsu, cluster_map, cluster_counter, cluster_ids) := st in
  let* (dsu, root) := DSU.find dsu i in
  let* c := getitem counts root in
  if 1 <? c then
    let '(cluster_map, cluster_counter) :=
      match cluster_map !! root with
      | None => (<[root := cluster_counter]> cluster_map, (cluster_counter + 1)%Z)
      | Some _ => (cluster_map, cluster_counter)
      end in
    let* cid := getitem cluster_map root in
    let* cluster_ids := put cluster_ids i cid in
    Ret (dsu, cluster_map, cluster_counter, cluster_ids)
  else Ret (dsu, cluster_map, cluster_counter, cluster_ids).

(** Lines 88-96 on a forest over [n] records. *)
Definition assign_clusters (n : nat) (dsu : DSU.t) : res (list Z) :=
  let* (dsu, counts) := for_each count_step (seq 0 n) (dsu, ∅) in
  let* st := for_each (number_step counts) (seq 0 n)
          (dsu, ∅, 0%Z, replicate n (-1)%Z) in
  Ret st.2.

Definition detect_duplicates (df : list row) : res Int64_series :=
  let* dsu := link df in
  let* cluster_ids := assign_clusters (length df) dsu in
  Ret (Some <$> cluster_ids).

(** An input row after the sheets are concatenated: the three columns
    the engine reads. *)
Record patient := mk_patient {
  Name : option string;
  DOB : option Cell;
  Gender : option string
}.

Record annotated := mk_annotated {
  Unique_ID : nat;
  Cluster_ID : option Z;
  Is_Duplicate : bool;
  source : patient
}.

Record summary := mk_summary {
  Total_Records : nat;
  Duplicate_Records : nat;
  Duplicate_Clusters : nat
}.

(** Lines 109-112; the assignment of the parsed column aligns it on the
    row index and leaves [NaT] where it has no entry. *)
Definition normalize_frame (rows : list patient) : list row :=
  let dob := to_datetime (DOB <$> rows) in
  imap (λ i p,
    let Name_norm := normalize_name (Some (default "" (Name p))) in
    {| Name_norm := Name_norm;
       DOB_parsed := dt_normalize <$> mjoin (dob !! i);
       Gender_norm := normalize_gender (Some (default "" (Gender p)));
       Soundex := soundex (first_token Name_norm) |}) rows.

(** Line 119. *)
Definition is_duplicate (cid : option Z) : bool :=
  match cid with
  | Some c => (0 <=? c)%Z
  | None => false
  end.

(** [df["Cluster_ID"].dropna().nunique()] *)
Definition nunique_dropna (s : Int64_series) : nat :=
  length (remove_dups (omap id s)).

Definition process_file (rows : list patient) : res (list annotated * summary) :=
  let df := normalize_frame rows in
  let* cluster := detect_duplicates df in
  let out := imap (λ i p,
    let cid := mjoin (cluster !! i) in
    {| Unique_ID := i + 1; Cluster_ID := cid;
       Is_Duplicate := is_duplicate cid; source := p |}) rows in
  Ret (out,
       {| Total_Records := length df;
          Duplicate_Records := length (filter (λ r, Is_Duplicate r = true) out);
          Duplicate_Clusters := nunique_dropna cluster |}).

End Pipeline.

Arguments Name_norm {Timestamp} _.
Arguments DOB_parsed {Timestamp} _.
Arguments Gender_norm {Timestamp} _.
Arguments Soundex {Timestamp} _.
Arguments mk_row {Timestamp} _ _ _ _.

(** [normalizeName] as the specification words it: the characters kept are
    the letters, the digits and the white space.  It is compared with
    [normalize_name] below. *)
Definition spec_blank (c : ascii) : ascii :=
  if Text.is_alnum c || Text.is_space c then c else " "%char.

Definition normalizeName_spec (raw : option string) : string :=
  match raw with
  | None => ""
  | Some s =>
      string_of_list_ascii
        (Text.strip (Text.collapse (map spec_blank
           (Text.lower (list_ascii_of_string s)))))
  end.

(** At most one space between two kept characters: every white character
    is a space and follows a character that is not white.  [prev] says
    that the character before the list was white. *)
Fixpoint single_spaced (prev : bool) (s : list ascii) : Prop :=
  match s with
  | [] => True
  | c :: t =>
      if Text.is_space c
      then c = " "%char ∧ prev = false ∧ single_spaced true t
      else single_spaced false t
  end.

(** No white space at the front, none at the back. *)
Definition no_lead (s : list ascii) : Prop :=
  match s with
  | c :: _ => Text.is_space c = false
  | [] => True
  end.

Definition no_trail (s : list ascii) : Prop :=
  match last s with
  | Some c => Text.is_space c = false
  | None => True
  end.

(** The words of a text are its maximal runs of word characters (letters,
    digits, underscores), in their order.  [split_runs s] is the run at
    the front of [s], empty when [s] does not start with a word character,
    and the runs behind it. *)
Definition push_run (w : list ascii) (ws : list (list ascii)) : list (list ascii) :=
  match w with
  | [] => ws
  | _ => w :: ws
  end.

Fixpoint split_runs (s : list ascii) : list ascii * list (list ascii) :=
  match s with
  | [] => ([], [])
  | c :: t =>
      let '(w, ws) := split_runs t in
      if Text.is_word c then (c :: w, ws) else ([], push_run w ws)
  end.

Definition word_runs (s : list ascii) : list (list ascii) :=
  let '(w, ws) := split_runs s in push_run w ws.

(** The words with one space between each two of them. *)
Fixpoint join_spaces (ws : list (list ascii)) : list ascii :=
  match ws with
  | [] => []
  | w :: rest =>
      match rest with
      | [] => w
      | _ => w ++ " "%char :: join_spaces rest
      end
  end.

(* ===================================================================== *)
(** ** The vocabulary of the properties *)
(* ===================================================================== *)

(** *** Text *)

(** The 256 code points. *)
Definition all_ascii : list ascii := ascii_of_nat <$> seq 0 256.

(** What every character of a normalised name is: the space, or a
    lower-case word character. *)
Definition kept (c : ascii) : Prop :=
  c = " "%char
  ∨ (Text.is_space c = false ∧ Text.is_word c = true ∧ Text.lower_char c = c).

(** *** The disjoint-set forest *)

(** [path p k a r]: [k] parent links lead from [a] to the root [r]. *)
Inductive path (p : list nat) : nat → nat → nat → Prop :=
| path_root r : p !! r = Some r → path p 0 r r
| path_step k a b r : p !! a = Some b → b ≠ a → path p k b r → path p (S k) a r.

(** The parent array is an acyclic forest: from every index the parent
    links reach a root. *)
Definition forest (p : list nat) : Prop :=
  ∀ a, a < length p → ∃ k r, path p k a r.

(** The root of [a], read off the array without changing it. *)
Fixpoint walk (fuel : nat) (p : list nat) (a : nat) : nat :=
  match fuel with
  | 0 => a
  | S fuel =>
      match p !! a with
      | Some b => if b =? a then a else walk fuel p b
      | None => a
      end
  end.

Definition root_of (p : list nat) (a : nat) : nat := walk (length p) p a.

(** [p'] has the roots of [p] and paths that are no longer. *)
Definition refines (p p' : list nat) : Prop :=
  length p' = length p ∧
  ∀ k a r, path p k a r → ∃ k', k' ≤ k ∧ path p' k' a r.

(** How many of the indices below [n] does [f] send to [r]. *)
Definition count_to (f : nat → nat) (n r : nat) : nat :=
  length (filter (λ i, f i = r) (seq 0 n)).

Module DSUInv.
Import DSU.

Definition repr (d : t) (a : nat) : nat := root_of (parent d) a.

(** The invariant of the class: the two arrays have one length, the
    parents form a forest, and a root records the size of its set. *)
Record wf (d : t) : Prop := {
  wf_len : length (size d) = length (parent d);
  wf_forest : forest (parent d);
  wf_size : ∀ r, r < length (parent d) → repr d r = r →
            size d !! r = Some (count_to (repr d) (length (parent d)) r)
}.

(** [find(i)] returns [r]. *)
Definition resolves (d : t) (i r : nat) : bool :=
  match find d i with
  | Ret (_, r') => r' =? r
  | _ => false
  end.

Inductive op := Find (a : nat) | Union (a b : nat).

Definition in_range (n : nat) (o : op) : Prop :=
  match o with
  | Find a => a < n
  | Union a b => a < n ∧ b < n
  end.

Definition apply (d : t) (o : op) : res t :=
  match o with
  | Find a => let* (d, _) := find d a in Ret d
  | Union a b => union d a b
  end.

Definition run (ops : list op) (d : t) : res t := for_each apply ops d.

End DSUInv.

(** *** The blocking index *)

Arguments key_of {Timestamp} isoformat r.
Arguments build_blocks {Timestamp} isoformat df.

Section BlockVocabulary.
Context {Timestamp : Type} (isoformat : Timestamp → string).

(** The key of the row at index [i]. *)
Definition key_at (df : list (row Timestamp)) (i : nat) : option block_key :=
  key_of isoformat <$> df !! i.

(** What the first loop maintains: the keys are distinct, the member
    lists hold every index seen so far exactly once, and a list holds
    the indices of its key, in ascending order. *)
Record blocks_inv (df : list (row Timestamp))
    (blocks : list (block_key * list nat)) : Prop := {
  keys_nodup : NoDup blocks.*1;
  members_perm : concat blocks.*2 ≡ₚ seq 0 (length df);
  members_key : ∀ k l, (k, l) ∈ blocks →
    l = filter (λ i, key_at df i = Some k) (seq 0 (length df))
}.

End BlockVocabulary.

(** *** Which indices a sequence of unions connects *)

(** [conn E i j]: [i] and [j] are linked by the pairs of [E], directly or
    through other indices. *)
Inductive conn (E : list (nat * nat)) : nat → nat → Prop :=
| conn_refl i : conn E i i
| conn_edge a b : (a, b) ∈ E → conn E a b
| conn_sym i j : conn E i j → conn E j i
| conn_trans i j k : conn E i j → conn E j k → conn E i k.

(** The pairs a sequence of operations unions. *)
Definition edges (ops : list DSUInv.op) : list (nat * nat) :=
  omap (λ o, match o with
             | DSUInv.Union a b => Some (a, b)
             | DSUInv.Find _ => None
             end) ops.

(** Two forests with the same sets over the indices below [n]. *)
Definition same_partition (n : nat) (d1 d2 : DSU.t) : Prop :=
  ∀ i j, i < n → j < n →
    (DSUInv.repr d1 i = DSUInv.repr d1 j ↔ DSUInv.repr d2 i = DSUInv.repr d2 j).

(** *** The numbering of the clusters *)

(** The numbering of lines 88-96, stated on the partition alone.  [f]
    sends an index to a representative of its set. *)

(** The least index below [m] that [f] sends to [r]. *)
Fixpoint first_idx (f : nat → nat) (r m : nat) : option nat :=
  match m with
  | 0 => None
  | S m =>
      match first_idx f r m with
      | Some j => Some j
      | None => if decide (f m = r) then Some m else None
      end
  end.

(** The first index of the set of [i]. *)
Definition head_of (f : nat → nat) (i : nat) : nat :=
  default i (first_idx f (f i) (S i)).

(** [i] opens a cluster: its set has more than one of the [n] indices and
    no index before [i] is in it. *)
Definition is_head (f : nat → nat) (n i : nat) : Prop :=
  first_idx f (f i) i = None ∧ 1 < count_to f n (f i).

Global Instance is_head_dec f n i : Decision (is_head f n i).
Proof. unfold is_head. apply _. Defined.

(** The indices below [m] that open a cluster. *)
Definition heads_before (f : nat → nat) (n m : nat) : list nat :=
  filter (is_head f n) (seq 0 m).

(** The identifier the scan gives to [i]: the number of clusters opened
    before the one of [i], and [-1] when [i] is alone in its set. *)
Definition expected_id (f : nat → nat) (n i : nat) : Z :=
  if decide (1 < count_to f n (f i))
  then Z.of_nat (length (heads_before f n (head_of f i)))
  else (-1)%Z.

(** The dictionary [counts] after [m] indices. *)
Definition counts_upto (f : nat → nat) (m : nat) (counts : gmap nat nat) : Prop :=
  ∀ r, counts !! r
       = if decide (count_to f m r = 0) then None else Some (count_to f m r).

(** The state of the second scan after [m] indices. *)
Definition numbered_upto (f : nat → nat) (n m : nat)
    (cluster_map : gmap nat Z) (cluster_counter : Z) (cluster_ids : list Z) : Prop :=
  cluster_counter = Z.of_nat (length (heads_before f n m))
  ∧ (∀ r, cluster_map !! r
          = match first_idx f r m with
            | Some j => if decide (1 < count_to f n r)
                        then Some (Z.of_nat (length (heads_before f n j)))
                        else None
            | None => None
            end)
  ∧ cluster_ids = (expected_id f n <$> seq 0 m) ++ replicate (n - m) (-1)%Z.

(** *** The unions of detect_duplicates *)

Arguments name_at {Timestamp} df i.
Arguments link_block {Timestamp} partial_ratio df dsu blk.
Arguments link {Timestamp} isoformat partial_ratio df.
Arguments detect_duplicates {Timestamp} isoformat partial_ratio df.

(** The pairs the two nested loops union in one block, in their order. *)
Fixpoint member_pairs (sim : string → string → bool)
    (members : list (nat * string)) : list (nat * nat) :=
  match members with
  | [] => []
  | (a, na) :: later =>
      ((λ m, (a, m.1)) <$> filter (λ m, sim na m.2 = true) later)
      ++ member_pairs sim later
  end.

Definition name_of {Timestamp} (df : list (@row Timestamp)) (i : nat) : string :=
  default "" (Name_norm <$> df !! i).

Definition block_pairs {Timestamp} (sim : string → string → bool)
    (df : list (@row Timestamp)) (indices : list nat) : list (nat * nat) :=
  member_pairs sim ((λ i, (i, name_of df i)) <$> indices).

(** All pairs that [detect_duplicates] unions on [df], in their order. *)
Definition link_pairs {Timestamp} (isoformat : Timestamp → string)
    (partial_ratio : string → string → Q) (df : list (@row Timestamp))
    : list (nat * nat) :=
  concat ((λ blk, block_pairs (similar partial_ratio) df blk.2)
            <$> build_blocks isoformat df).

Definition unions (l : list (nat * nat)) : list DSUInv.op :=
  (λ e, DSUInv.Union e.1 e.2) <$> l.

(** *** process_file *)

Arguments normalize_frame {Timestamp} dt_normalize {Cell} to_datetime rows.
Arguments process_file {Timestamp} isoformat dt_normalize {Cell} to_datetime
  partial_ratio rows.
Arguments mk_patient {Cell} _ _ _.
Arguments Name {Cell} _.
Arguments DOB {Cell} _.
Arguments Gender {Cell} _.
Arguments Unique_ID {Cell} _.
Arguments Cluster_ID {Cell} _.
Arguments Is_Duplicate {Cell} _.
Arguments source {Cell} _.
Arguments mk_annotated {Cell} _ _ _ _.

(** An instance of what the code takes from its libraries, to run it on
    concrete sheets: a date cell is a text, it parses when it has the ten
    characters of [YYYY-MM-DD], the time stamp is that text, and the scorer
    gives 100 to equal names and 0 to all others. *)
Module Sample.
Definition isoformat (t : string) : string := t.
Definition dt_normalize (t : string) : string := t.
Definition parse (c : option string) : option string :=
  match c with
  | Some s => if decide (String.length s = 10) then Some s else None
  | None => None
  end.
Definition to_datetime (col : list (option string)) : list (option string) :=
  parse <$> col.
Definition partial_ratio (a b : string) : Q :=
  if decide (a = b) then 100 # 1 else 0 # 1.
Definition detect (df : list (@row string)) : res Int64_series :=
  detect_duplicates isoformat partial_ratio df.
Definition process (rows : list (patient string))
    : res (list (annotated string) * summary) :=
  process_file isoformat dt_normalize to_datetime partial_ratio rows.
End Sample.

(** The rows [process_file] returns, from the forest of the unions. *)
Definition annotate {Cell : Type} (f : nat → nat) (n i : nat) (p : patient Cell)
    : annotated Cell :=
  {| Unique_ID := i + 1;
     Cluster_ID := Some (expected_id f n i);
     Is_Duplicate := is_duplicate (Some (expected_id f n i));
     source := p |}.

(** *** Further vocabulary *)

(** The values of the table [codes]. *)
Definition code_digits : list ascii := ["1"; "2"; "3"; "4"; "5"; "6"]%char.

(** The code points of the 8-bit range whose upper-case form lies in that
    range too, that is all but the micro sign (U+00B5) and y with
    diaeresis (U+00FF): on them [Text.upper_char] is [str.upper]. *)
Definition upper_in_range (c : ascii) : bool :=
  negb (Text.code c =? 181) && negb (Text.code c =? 255).


(** Union by size keeps the trees shallow: a node that is [k] parent
    links below its root is in a set of at least [2 ^ k] nodes. *)
Definition shallow (d : DSU.t) : Prop :=
  ∀ k a r, path (DSU.parent d) k a r →
    2 ^ k ≤ count_to (DSUInv.repr d) (length (DSU.parent d)) r.

(** The root [union] keeps for the merged set: the root of the larger
    set, the root of [a] when the two sets have one size. *)
Definition winner (d : DSU.t) (a b : nat) : nat :=
  let n := length (DSU.parent d) in
  let ra := DSUInv.repr d a in
  let rb := DSUInv.repr d b in
  if count_to (DSUInv.repr d) n ra <? count_to (DSUInv.repr d) n rb
  then rb else ra.

(** Two rows of the frame that exist and have one blocking key. *)
Definition same_key {Timestamp : Type} (isoformat : Timestamp → string)
    (df : list (row Timestamp)) (i j : nat) : Prop :=
  ∃ k, key_at isoformat df i = Some k ∧ key_at isoformat df j = Some k.

(** *** The methods of DSU on the indices of a Python list *)

(** [DSU] takes the indices the engine passes: they come from
    [enumerate] and [range] and are naturals.  A Python list takes every
    integer as an index, and a negative one counts from the end.  [DSUAt]
    is the code of [find] and [union] once more, on such indices. *)
Module DSUAt.
Import DSU.

(** The position that the index [a] has in a list of length [n]. *)
Definition position (n : nat) (a : Z) : res nat :=
  if decide (0 ≤ a < Z.of_nat n)%Z then Ret (Z.to_nat a)
  else if decide (- Z.of_nat n ≤ a < 0)%Z then Ret (Z.to_nat (Z.of_nat n + a))
  else Raise IndexError.

(** [l[a]] and [l[a] = x]. *)
Definition get_at (l : list nat) (a : Z) : res nat :=
  let* i := position (length l) a in get l i.

Definition put_at (l : list nat) (a : Z) (x : nat) : res (list nat) :=
  let* i := position (length l) a in put l i x.

(** The loop of [find].  It returns [a] when [parent[a] == a], here as
    the entry [parent[a]] of the array. *)
Fixpoint find_loop (fuel : nat) (p : list nat) (a : Z) : res (list nat * nat) :=
  match fuel with
  | 0 => Diverge
  | S fuel =>
      let* pa := get_at p a in
      if (Z.of_nat pa =? a)%Z then Ret (p, pa)
      else
        let* g := get p pa in
        let* p := put_at p a g in
        let* a := get_at p a in
        find_loop fuel p (Z.of_nat a)
  end.

Definition find (d : t) (a : Z) : res (t * nat) :=
  let* (p, r) := find_loop (S (length (parent d))) (parent d) a in
  Ret (mk p (size d), r).

Definition union (d : t) (a b : Z) : res t :=
  let* (d, pa) := find d a in
  let* (d, pb) := find d b in
  if pa =? pb then Ret d
  else
    let* sa := get (size d) pa in
    let* sb := get (size d) pb in
    let '(pa, pb) := if sa <? sb then (pb, pa) else (pa, pb) in
    let* sa := get (size d) pa in
    let* sb := get (size d) pb in
    let* parent := put (parent d) pb pa in
    let* size := put (size d) pa (sa + sb) in
    Ret (mk parent size).

End DSUAt.

(** *** The sheets and the duplicates of process_file *)

(** Lines 100-106.  A workbook is the list of its sheets, in order, each
    with its name and its rows.  Every row is tagged with the name of its
    sheet and with its row number, counted from 1, and the sheets are put
    end to end.  [pd.concat] refuses an empty list of frames with a
    [ValueError]: [None]. *)
Record tagged (Cell : Type) := mk_tagged {
  _source_sheet : string;
  _source_row : nat;
  cells : patient Cell
}.

Arguments mk_tagged {Cell} _ _ _.
Arguments _source_sheet {Cell} _.
Arguments _source_row {Cell} _.
Arguments cells {Cell} _.

Definition tag_sheet {Cell : Type} (sheet : string * list (patient Cell))
    : list (tagged Cell) :=
  imap (λ i p, mk_tagged sheet.1 (i + 1) p) sheet.2.

Definition concat_sheets {Cell : Type}
    (sheets : list (string * list (patient Cell))) : option (list (tagged Cell)) :=
  match sheets with
  | [] => None
  | _ => Some (concat (tag_sheet <$> sheets))
  end.

(** Line 142, the fourth value returned: [df[df["Is_Duplicate"]]]. *)
Definition duplicates_frame {Cell : Type} (out : list (annotated Cell))
    : list (annotated Cell) :=
  filter (λ a, Is_Duplicate a = true) out.

(* ===================================================================== *)
(** ** Properties of the text helpers *)
(* ===================================================================== *)

Section TextFacts.
Import Text.

Lemma all_ascii_complete (c : ascii) : c ∈ all_ascii.
Proof.
  unfold all_ascii. apply list_elem_of_fmap. exists (nat_of_ascii c).
  split; [by rewrite ascii_nat_embedding|].
  apply elem_of_seq. pose proof (nat_ascii_bounded c). lia.
Qed.

(** A Boolean property that holds on the 256 code points holds on all. *)
Lemma by_cases_on_ascii (P : ascii → bool) :
  forallb P all_ascii = true → ∀ c, P c = true.
Proof.
  intros H c. rewrite forallb_forall in H. apply H.
  apply list_elem_of_In, all_ascii_complete.
Qed.

Lemma word_not_space c : is_word c = true → is_space c = false.
Proof.
  intros Hw.
  pose proof (by_cases_on_ascii (λ c, negb (is_word c) || negb (is_space c))
                eq_refl c) as H.
  simpl in H. rewrite Hw in H. simpl in H. by apply negb_true_iff.
Qed.

Lemma lower_char_idem c : lower_char (lower_char c) = lower_char c.
Proof.
  pose proof (by_cases_on_ascii
    (λ c, bool_decide (lower_char (lower_char c) = lower_char c)) eq_refl c) as H.
  by apply bool_decide_eq_true in H.
Qed.

Lemma is_word_lower c : is_word (lower_char c) = is_word c.
Proof.
  pose proof (by_cases_on_ascii
    (λ c, bool_decide (is_word (lower_char c) = is_word c)) eq_refl c) as H.
  by apply bool_decide_eq_true in H.
Qed.

(** *** lstrip, rstrip, strip *)

Lemma lstrip_no_lead s : no_lead (lstrip s).
Proof.
  induction s as [|c t IH]; simpl; [done|].
  destruct (is_space c) eqn:E; [done|]. by simpl.
Qed.

Lemma lstrip_id s : no_lead s → lstrip s = s.
Proof. destruct s as [|c t]; simpl; [done|]. by intros ->. Qed.

Lemma rstrip_nil_or_cons c t :
  rstrip (c :: t) = [] ∨ rstrip (c :: t) = c :: rstrip t.
Proof.
  simpl. destruct (rstrip t) eqn:E.
  - destruct (is_space c); auto.
  - auto.
Qed.

Lemma rstrip_no_lead s : no_lead s → no_lead (rstrip s).
Proof.
  destruct s as [|c t]; [done|]. intros H.
  destruct (rstrip_nil_or_cons c t) as [-> | ->]; done.
Qed.

Lemma rstrip_no_trail s : no_trail (rstrip s).
Proof.
  unfold no_trail. induction s as [|c t IH]; simpl; [done|].
  destruct (rstrip t) as [|c' t'] eqn:E.
  - destruct (is_space c) eqn:Ec; simpl; done.
  - rewrite last_cons. destruct (last (c' :: t')) eqn:El; [done|].
    by apply last_None in El.
Qed.

Lemma rstrip_id s : no_trail s → rstrip s = s.
Proof.
  unfold no_trail. induction s as [|c t IH]; simpl; [done|].
  rewrite last_cons. destruct (last t) as [c'|] eqn:El.
  - intros H. rewrite (IH H). destruct t; [done|]. done.
  - apply last_None in El as ->. simpl. by intros ->.
Qed.

Lemma strip_idem s : strip (strip s) = strip s.
Proof.
  unfold strip.
  rewrite (lstrip_id (rstrip (lstrip s))).
  - apply rstrip_id, rstrip_no_trail.
  - apply rstrip_no_lead, lstrip_no_lead.
Qed.

Lemma lstrip_elem c s : c ∈ lstrip s → c ∈ s.
Proof.
  induction s as [|d t IH]; simpl; [done|].
  destruct (is_space d); [|done]. intros H. right. auto.
Qed.

Lemma rstrip_elem c s : c ∈ rstrip s → c ∈ s.
Proof.
  induction s as [|d t IH]; [done|].
  destruct (rstrip_nil_or_cons d t) as [-> | ->].
  - by intros ?%elem_of_nil.
  - intros [->|H]%elem_of_cons; [left | right; auto].
Qed.

Lemma strip_elem c s : c ∈ strip s → c ∈ s.
Proof. intros H. by apply lstrip_elem, rstrip_elem. Qed.

(** *** Runs of white space *)

Lemma single_spaced_weaken s : single_spaced true s → single_spaced false s.
Proof.
  destruct s as [|c t]; simpl; [done|].
  destruct (is_space c); [|done]. by intros (_ & ? & _).
Qed.

Lemma collapse_single_spaced b s : single_spaced b (collapse_from b s).
Proof.
  revert b. induction s as [|c t IH]; intros b; simpl; [done|].
  destruct (is_space c) eqn:E.
  - destruct b; [apply IH|]. simpl. split_and!; [done..|apply IH].
  - simpl. rewrite E. apply IH.
Qed.

Lemma collapse_id b s : single_spaced b s → collapse_from b s = s.
Proof.
  revert b. induction s as [|c t IH]; intros b; simpl; [done|].
  destruct (is_space c) eqn:E.
  - intros (-> & -> & H). by rewrite (IH _ H).
  - intros H. by rewrite (IH _ H).
Qed.

Lemma lstrip_single_spaced b s : single_spaced b s → single_spaced false (lstrip s).
Proof.
  revert b. induction s as [|c t IH]; intros b; simpl; [done|].
  destruct (is_space c) eqn:E.
  - intros (_ & _ & H). eauto.
  - intros H. simpl. by rewrite E.
Qed.

Lemma rstrip_single_spaced b s : single_spaced b s → single_spaced b (rstrip s).
Proof.
  revert b. induction s as [|c t IH]; intros b; [done|].
  destruct (rstrip_nil_or_cons c t) as [-> | ->]; [done|].
  simpl. destruct (is_space c); [|by apply IH].
  intros (? & ? & H). split_and!; auto.
Qed.

Lemma strip_single_spaced b s : single_spaced b s → single_spaced false (strip s).
Proof. intros H. eapply rstrip_single_spaced, lstrip_single_spaced, H. Qed.

Lemma collapse_elem b c s :
  c ∈ collapse_from b s → c = " "%char ∨ (c ∈ s ∧ is_space c = false).
Proof.
  revert b. induction s as [|d t IH]; intros b; simpl; [by intros ?%elem_of_nil|].
  destruct (is_space d) eqn:E.
  - destruct b.
    + intros [?|[??]]%IH; [by left | right; split; [by right | done]].
    + intros [->|[?|[??]]%IH]%elem_of_cons; [by left | by left |].
      right; split; [by right | done].
  - intros [->|[?|[??]]%IH]%elem_of_cons.
    + right; split; [by left | done].
    + by left.
    + right; split; [by right | done].
Qed.

(** *** Word characters survive, in order *)

Lemma filter_word_lstrip s : filter (λ c, is_word c = true) (lstrip s)
                             = filter (λ c, is_word c = true) s.
Proof.
  induction s as [|c t IH]; simpl; [done|].
  destruct (is_space c) eqn:E; [|done].
  rewrite IH, filter_cons_False; [done|].
  intros Hw%word_not_space. congruence.
Qed.

Lemma filter_word_rstrip s : filter (λ c, is_word c = true) (rstrip s)
                             = filter (λ c, is_word c = true) s.
Proof.
  induction s as [|c t IH]; [done|].
  rewrite (filter_cons _ c t), <- IH. simpl.
  destruct (rstrip t) as [|c' t'] eqn:E.
  - destruct (is_space c) eqn:Ec.
    + rewrite decide_False; [done|]. intros Hw%word_not_space. congruence.
    + by rewrite filter_cons.
  - by rewrite (filter_cons _ c).
Qed.

Lemma filter_word_collapse b s : filter (λ c, is_word c = true) (collapse_from b s)
                                 = filter (λ c, is_word c = true) s.
Proof.
  revert b. induction s as [|c t IH]; intros b; simpl; [done|].
  destruct (is_space c) eqn:E.
  - rewrite (filter_cons_False _ c) by (intros Hw%word_not_space; congruence).
    destruct b; [apply IH|].
    rewrite filter_cons_False by (intros Hw%word_not_space; done). apply IH.
  - by rewrite !filter_cons, IH.
Qed.

Lemma filter_word_blank s : filter (λ c, is_word c = true) (map blank_punct s)
                            = filter (λ c, is_word c = true) s.
Proof.
  induction s as [|c t IH]; simpl; [done|].
  rewrite !filter_cons, IH. unfold blank_punct.
  destruct (is_word c) eqn:Ew; simpl; [by rewrite Ew|].
  destruct (is_space c); simpl; [by rewrite Ew|]. done.
Qed.

Lemma filter_word_lower s : filter (λ c, is_word c = true) (lower s)
                            = lower (filter (λ c, is_word c = true) s).
Proof.
  induction s as [|c t IH]; simpl; [done|].
  rewrite !filter_cons, is_word_lower. unfold lower in *. rewrite IH.
  by destruct (decide (is_word c = true)).
Qed.

End TextFacts.

(* ===================================================================== *)
(** ** normalize_name *)
(* ===================================================================== *)

Section NormalizeName.
Import Text.

Lemma normalize_name_chars_kept s : Forall kept (normalize_name_chars s).
Proof.
  apply Forall_forall. intros c Hc. unfold normalize_name_chars in Hc.
  apply strip_elem, collapse_elem in Hc as [->|[Hc Hs]]; [by left|].
  apply list_elem_of_fmap in Hc as (c1 & -> & Hc1).
  apply list_elem_of_fmap in Hc1 as (c0 & -> & _).
  unfold blank_punct in *.
  destruct (is_word (lower_char c0)) eqn:Ew; simpl in *.
  - right. by rewrite lower_char_idem.
  - destruct (is_space (lower_char c0)) eqn:Es; simpl in *; [congruence|].
    by left.
Qed.

Lemma normalize_name_chars_spaced s : single_spaced false (normalize_name_chars s).
Proof. eapply strip_single_spaced, collapse_single_spaced. Qed.

Lemma normalize_name_chars_no_lead s : no_lead (normalize_name_chars s).
Proof. apply rstrip_no_lead, lstrip_no_lead. Qed.

Lemma normalize_name_chars_no_trail s : no_trail (normalize_name_chars s).
Proof. apply rstrip_no_trail. Qed.

Lemma normalize_name_chars_words s :
  filter (λ c, is_word c = true) (normalize_name_chars s)
  = lower (filter (λ c, is_word c = true) s).
Proof.
  unfold normalize_name_chars, strip, collapse.
  by rewrite filter_word_rstrip, filter_word_lstrip, filter_word_collapse,
    filter_word_blank, filter_word_lower.
Qed.

Lemma kept_fixed s :
  Forall kept s → map blank_punct (lower s) = s.
Proof.
  unfold lower. induction 1 as [|c t Hc _ IH]; [done|].
  cbn [map]. rewrite IH. f_equal.
  destruct Hc as [->|(Hs & Hw & ->)]; [done|].
  unfold blank_punct. by rewrite Hw.
Qed.

Lemma normalize_name_chars_idem s :
  normalize_name_chars (normalize_name_chars s) = normalize_name_chars s.
Proof.
  unfold normalize_name_chars at 1.
  rewrite kept_fixed by apply normalize_name_chars_kept.
  unfold collapse.
  rewrite collapse_id by apply normalize_name_chars_spaced.
  apply strip_idem.
Qed.

(** *** The result is the words of the name, joined by single spaces *)

Lemma push_run_nonempty w ws :
  Forall (λ w, w ≠ []) ws → Forall (λ w, w ≠ []) (push_run w ws).
Proof. intros H. destruct w; [done|]. by constructor. Qed.

Lemma split_runs_nonempty s : Forall (λ w, w ≠ []) (split_runs s).2.
Proof.
  induction s as [|c t IH]; simpl; [constructor|].
  destruct (split_runs t) as [w ws]. simpl in IH.
  destruct (is_word c); simpl; [done | by apply push_run_nonempty].
Qed.

Lemma word_runs_nonempty s : Forall (λ w, w ≠ []) (word_runs s).
Proof.
  unfold word_runs. pose proof (split_runs_nonempty s) as H.
  destruct (split_runs s) as [w ws]. by apply push_run_nonempty.
Qed.

Lemma join_spaces_nil ws :
  Forall (λ w, w ≠ []) ws → join_spaces ws = [] → ws = [].
Proof.
  destruct ws as [|w rest]; [done|]. intros [Hw _]%Forall_cons. simpl.
  destruct rest; [done|]. by destruct w.
Qed.

Lemma word_runs_skip c t : is_word c = false → word_runs (c :: t) = word_runs t.
Proof.
  intros Hc. unfold word_runs. simpl. destruct (split_runs t) as [w ws].
  by rewrite Hc.
Qed.

(** A word character in front of [t] starts a word of its own, followed
    by a space when words follow, or extends the word [t] starts with. *)
Lemma join_runs_word c t :
  is_word c = true →
  join_spaces (word_runs (c :: t))
  = c :: match t with
         | [] => []
         | c' :: _ =>
             if is_word c' then join_spaces (word_runs t)
             else match join_spaces (word_runs t) with
                  | [] => []
                  | j => " "%char :: j
                  end
         end.
Proof.
  intros Hc. destruct t as [|c' t']; [by unfold word_runs; simpl; rewrite Hc|].
  pose proof (word_runs_nonempty (c' :: t')) as Hne.
  unfold word_runs in *. cbn [split_runs] in *.
  destruct (split_runs t') as [w ws]. rewrite Hc.
  destruct (is_word c'); cbn [push_run] in *.
  - simpl. by destruct ws.
  - destruct (push_run w ws) as [|w1 rest] eqn:E; [done|].
    change (join_spaces ([c] :: w1 :: rest))
      with (c :: " "%char :: join_spaces (w1 :: rest)).
    destruct (join_spaces (w1 :: rest)) eqn:EJ; [|done].
    by apply join_spaces_nil in EJ.
Qed.

Lemma is_space_blank c : is_space (blank_punct c) = negb (is_word c).
Proof.
  unfold blank_punct. destruct (is_word c) eqn:Ew; simpl.
  - by apply word_not_space.
  - by destruct (is_space c) eqn:Es.
Qed.

Lemma blank_word c : is_word c = true → blank_punct c = c.
Proof. intros Hw. unfold blank_punct. by rewrite Hw. Qed.

Lemma rstrip_cons_kept c x : is_space c = false → rstrip (c :: x) = c :: rstrip x.
Proof. intros Hc. simpl. rewrite Hc. by destruct (rstrip x). Qed.

Lemma lstrip_collapse b x : lstrip (collapse_from b x) = collapse_from true x.
Proof.
  revert b. induction x as [|c t IH]; intros b; simpl; [done|].
  destruct (is_space c) eqn:Ec.
  - destruct b; [apply IH|]. simpl. apply IH.
  - simpl. by rewrite Ec.
Qed.

(** The two passes and the trimming at the back, in a run of white space
    and out of one. *)
Lemma collapse_blank_runs s :
  rstrip (collapse_from true (map blank_punct s)) = join_spaces (word_runs s)
  ∧ rstrip (collapse_from false (map blank_punct s))
    = match s with
      | [] => []
      | c :: _ =>
          if is_word c then join_spaces (word_runs s)
          else match join_spaces (word_runs s) with
               | [] => []
               | j => " "%char :: j
               end
      end.
Proof.
  induction s as [|c t [IHt IHf]]; [done|].
  cbn [map collapse_from]. rewrite is_space_blank.
  destruct (is_word c) eqn:Hc; cbn [negb].
  - rewrite (blank_word c Hc), (rstrip_cons_kept c) by (by apply word_not_space).
    rewrite IHf, (join_runs_word c t Hc). done.
  - rewrite (word_runs_skip c t Hc). split; [done|].
    cbn [rstrip]. rewrite IHt.
    by destruct (join_spaces (word_runs t)).
Qed.

Lemma normalize_name_chars_runs s :
  normalize_name_chars s = join_spaces (word_runs (lower s)).
Proof.
  unfold normalize_name_chars, strip, collapse.
  rewrite lstrip_collapse. apply collapse_blank_runs.
Qed.

End NormalizeName.

(** C5, as the code has it.  A missing name gives the empty string.  The
    normalised form of a name is the words of its lower-case form, in
    their order, with one space between each two of them, a word being a
    maximal run of letters, digits and underscores: every run of other
    characters, punctuation or white space, between two words has become
    one space, and such a run at the front or at the back has become
    nothing.  So the result holds alphanumeric characters, underscores
    and spaces only (the underscore is a word character of the pattern
    and is kept); every space stands alone, none is at the front or at the
    back; and the word characters of the result are those of the input,
    lower-cased, in their order. *)
Theorem normalize_name_shape :
  normalize_name None = "" ∧
  ∀ s : string,
    let out := list_ascii_of_string (normalize_name (Some s)) in
    Forall (λ c, Text.is_alnum c = true ∨ c = "_"%char ∨ c = " "%char) out
    ∧ single_spaced false out ∧ no_lead out ∧ no_trail out
    ∧ filter (λ c, Text.is_word c = true) out
      = Text.lower (filter (λ c, Text.is_word c = true) (list_ascii_of_string s))
    ∧ out = join_spaces (word_runs (Text.lower (list_ascii_of_string s))).
Proof.
  split; [done|]. intros s out. subst out. simpl.
  rewrite list_ascii_of_string_of_list_ascii.
  split_and!; [| | | | | apply normalize_name_chars_runs].
  - eapply Forall_impl; [apply normalize_name_chars_kept|].
    intros c [->|(_ & Hw & _)]; [by auto|].
    unfold Text.is_word in Hw. apply orb_true_iff in Hw as [Hw|Hw]; [by left|].
    right; left. apply Nat.eqb_eq in Hw.
    rewrite <- (ascii_nat_embedding c). unfold Text.code in Hw. by rewrite Hw.
  - apply normalize_name_chars_spaced.
  - apply normalize_name_chars_no_lead.
  - apply normalize_name_chars_no_trail.
  - apply normalize_name_chars_words.
Qed.

(** C5, as the specification states it, fails on an underscore: it is
    neither a letter, a digit nor white space, yet it is not replaced and
    it appears in the output. *)
Lemma normalize_name_keeps_underscore :
  normalize_name (Some "a_b") = "a_b"
  ∧ normalizeName_spec (Some "a_b") = "a b"
  ∧ ¬ Forall (λ c, Text.is_alnum c = true ∨ c = " "%char)
        (list_ascii_of_string (normalize_name (Some "a_b"))).
Proof.
  split_and!; [reflexivity..|].
  intros H. vm_compute in H.
  apply Forall_cons in H as [_ H]. apply Forall_cons in H as [[H|H] _];
    discriminate.
Qed.

(** C9: [normalize_name] is idempotent. *)
Theorem normalize_name_idempotent (x : option string) :
  normalize_name (Some (normalize_name x)) = normalize_name x.
Proof.
  destruct x as [s|]; [|reflexivity]. simpl.
  by rewrite list_ascii_of_string_of_list_ascii, normalize_name_chars_idem.
Qed.

(* ===================================================================== *)
(** ** soundex *)
(* ===================================================================== *)

(** C4: the known values of the phonetic encoder. *)
Theorem soundex_known_values :
  soundex "Robert" = "R163" ∧ soundex "Rupert" = "R163" ∧ soundex "" = "".
Proof. split_and!; reflexivity. Qed.

(** The helpers on a few more inputs. *)
Example soundex_adjacent_codes : soundex "Tymczak" = "T522".
Proof. reflexivity. Qed.

Example soundex_short_name : soundex "lee" = "L000".
Proof. reflexivity. Qed.

Example normalize_name_punctuation :
  normalize_name (Some "  O'Brien,  JOHN  ") = "o brien john".
Proof. reflexivity. Qed.

Example normalize_gender_known : normalize_gender (Some " Male ") = "male".
Proof. reflexivity. Qed.

Example normalize_gender_other : normalize_gender (Some "Non-Binary") = "other".
Proof. reflexivity. Qed.

Example normalize_gender_unknown : normalize_gender (Some " X ") = "x".
Proof. reflexivity. Qed.

(* ===================================================================== *)
(** ** The disjoint-set forest *)
(* ===================================================================== *)

Section PathFacts.

Lemma path_lookup p k a r : path p k a r → is_Some (p !! a).
Proof. destruct 1; eauto. Qed.

Lemma path_lt p k a r : path p k a r → a < length p.
Proof. intros [? ?]%path_lookup. by eapply lookup_lt_Some. Qed.

Lemma path_end p k a r : path p k a r → p !! r = Some r.
Proof. induction 1; auto. Qed.

Lemma path_fun p k a r k' r' :
  path p k a r → path p k' a r' → k = k' ∧ r = r'.
Proof.
  intros H. revert k' r'.
  induction H as [r Hr | k a b r Hab Hne _ IH]; intros k' r' H'.
  - inversion H'; subst; [done | congruence].
  - inversion H' as [|k2 a2 b2 r2 Hab2 Hne2 Hp2]; subst; [congruence|].
    assert (b2 = b) as -> by congruence.
    destruct (IH _ _ Hp2) as [-> ->]. done.
Qed.

(** The nodes of a path are distinct, so a path is shorter than the
    array. *)
Lemma path_nodes p k a r :
  path p k a r →
  ∃ l : list nat, length l = S k ∧ NoDup l ∧
    ∀ x, x ∈ l → ∃ j, j ≤ k ∧ path p j x r.
Proof.
  induction 1 as [r Hr | k a b r Hab Hne Hp (l & Hlen & Hnd & Hl)].
  - exists [r]. split_and!; [done | apply NoDup_singleton |].
    intros x ->%list_elem_of_singleton. exists 0. split; [lia | by constructor].
  - exists (a :: l). split_and!.
    + simpl. by rewrite Hlen.
    + apply NoDup_cons. split; [|done]. intros (j & Hj & Hpj)%Hl.
      assert (path p (S k) a r) as Hpa by (econstructor; eauto).
      destruct (path_fun _ _ _ _ _ _ Hpj Hpa). lia.
    + intros x [->|(j & Hj & Hpj)%Hl]%elem_of_cons.
      * exists (S k). split; [lia | econstructor; eauto].
      * exists j. split; [lia | done].
Qed.

Lemma path_bound p k a r : path p k a r → k < length p.
Proof.
  intros (l & Hlen & Hnd & Hl)%path_nodes.
  assert (l ⊆+ seq 0 (length p)) as Hsub.
  { apply NoDup_submseteq; [done|]. intros x (j & _ & Hx%path_lt)%Hl.
    apply elem_of_seq. lia. }
  apply submseteq_length in Hsub. rewrite length_seq in Hsub. lia.
Qed.

Lemma walk_path p k a r fuel : path p k a r → k ≤ fuel → walk fuel p a = r.
Proof.
  intros H. revert fuel. induction H as [r Hr | k a b r Hab Hne _ IH]; intros fuel Hf.
  - destruct fuel; [done|]. simpl. by rewrite Hr, Nat.eqb_refl.
  - destruct fuel; [lia|]. simpl. rewrite Hab.
    destruct (Nat.eqb_spec b a); [done|]. apply IH. lia.
Qed.

Lemma root_of_path p k a r : path p k a r → root_of p a = r.
Proof.
  intros H. eapply walk_path; [done|]. apply path_bound in H. lia.
Qed.

Lemma walk_out p fuel a : length p ≤ a → walk fuel p a = a.
Proof.
  intros H. destruct fuel; [done|]. simpl.
  by rewrite (lookup_ge_None_2 p a).
Qed.

Lemma root_of_out p a : length p ≤ a → root_of p a = a.
Proof. apply walk_out. Qed.

Lemma forest_path p a : forest p → a < length p → ∃ k, path p k a (root_of p a).
Proof.
  intros Hf Ha. destruct (Hf a Ha) as (k & r & H).
  exists k. by rewrite (root_of_path _ _ _ _ H).
Qed.

Lemma root_of_lt p a : forest p → a < length p → root_of p a < length p.
Proof.
  intros Hf Ha. destruct (forest_path p a Hf Ha) as [k H].
  apply path_end in H. by eapply lookup_lt_Some.
Qed.

Lemma root_of_idem p a : forest p → root_of p (root_of p a) = root_of p a.
Proof.
  intros Hf. destruct (decide (a < length p)) as [Ha|Ha].
  - destruct (forest_path p a Hf Ha) as [k H].
    eapply root_of_path. constructor. by eapply path_end.
  - rewrite (root_of_out p a) by lia. apply root_of_out. lia.
Qed.

(** In a forest, the roots are the fixed points of the parent array. *)
Lemma root_iff p r :
  forest p → r < length p → (p !! r = Some r ↔ root_of p r = r).
Proof.
  intros Hf Hr. split.
  - intros H. eapply root_of_path. by constructor.
  - intros H. destruct (forest_path p r Hf Hr) as [k Hp].
    rewrite H in Hp. by eapply path_end.
Qed.

Lemma refines_refl p : refines p p.
Proof. split; [done|]. intros k a r H. exists k. auto. Qed.

Lemma refines_trans p1 p2 p3 : refines p1 p2 → refines p2 p3 → refines p1 p3.
Proof.
  intros [L1 H1] [L2 H2]. split; [congruence|].
  intros k a r (k1 & ? & (k2 & ? & ?)%H2)%H1. exists k2. split; [lia | done].
Qed.

Lemma refines_forest p p' : forest p → refines p p' → forest p'.
Proof.
  intros Hf [L H] a Ha. rewrite L in Ha.
  destruct (Hf a Ha) as (k & r & (k' & _ & Hp)%H). eauto.
Qed.

Lemma refines_root_of p p' a :
  forest p → refines p p' → root_of p' a = root_of p a.
Proof.
  intros Hf [L H]. destruct (decide (a < length p)) as [Ha|Ha].
  - destruct (forest_path p a Hf Ha) as [k (k' & _ & Hp)%H].
    by eapply root_of_path.
  - rewrite !root_of_out; [done | lia | lia].
Qed.

(** One step of path halving: [a] is hung below its grandparent. *)
Lemma halve_refines p a b g :
  p !! a = Some b → b ≠ a → p !! b = Some g → forest p →
  refines p (<[a := g]> p).
Proof.
  intros Hab Hne Hbg Hf. split; [apply length_insert|].
  intros k. induction (lt_wf k) as [k _ IH]. intros x r Hp.
  inversion Hp as [r0 Hr | k0 x0 y r0 Hxy Hyx Hy]; subst.
  - exists 0. split; [lia|]. constructor.
    rewrite list_lookup_insert_ne; [done | congruence].
  - destruct (decide (x = a)) as [->|Hxa].
    + assert (y = b) as -> by congruence.
      inversion Hy as [r0 Hr | k1 b0 g0 r0 Hbg0 Hgb Hgp]; subst.
      * assert (g = r) as -> by congruence.
        destruct (IH 0 ltac:(lia) r r Hy) as (k' & ? & Hp').
        exists (S k'). split; [lia|]. econstructor; [|exact Hyx|exact Hp'].
        apply list_lookup_insert_eq. by eapply lookup_lt_Some.
      * assert (g0 = g) as -> by congruence.
        destruct (IH k1 ltac:(lia) g r Hgp) as (k' & ? & Hp').
        exists (S k'). split; [lia|]. econstructor; [| |exact Hp'].
        -- apply list_lookup_insert_eq. by eapply lookup_lt_Some.
        -- intros ->. destruct (path_fun _ _ _ _ _ _ Hgp Hp). lia.
    + destruct (IH k0 ltac:(lia) y r Hy) as (k' & ? & Hp').
      exists (S k'). split; [lia|]. econstructor; [|exact Hyx|exact Hp'].
      by rewrite list_lookup_insert_ne.
Qed.

(** [find] on a forest: with fuel beyond the length of the path the loop
    returns the root, and the array it leaves has the same roots. *)
Lemma find_loop_path p k a r fuel :
  forest p → path p k a r → k < fuel →
  ∃ p', DSU.find_loop fuel p a = Ret (p', r) ∧ refines p p'.
Proof.
  revert p a fuel. induction (lt_wf k) as [k _ IH].
  intros p a fuel Hf Hp Hk. destruct fuel as [|fuel]; [lia|].
  inversion Hp as [r0 Hr | k0 a0 b r0 Hab Hne Hb]; subst.
  - exists p. simpl. unfold get. rewrite Hr. simpl. rewrite Nat.eqb_refl.
    split; [done | apply refines_refl].
  - simpl. unfold get at 1. rewrite Hab. simpl.
    destruct (Nat.eqb_spec b a) as [|_]; [done|].
    destruct (path_lookup _ _ _ _ Hb) as [g Hbg].
    unfold get at 1. rewrite Hbg. simpl.
    assert (a < length p) as Ha by (by eapply lookup_lt_Some).
    unfold put. destruct (Nat.ltb_spec a (length p)) as [_|]; [|lia]. simpl.
    unfold get. rewrite list_lookup_insert_eq by done. simpl.
    pose proof (halve_refines p a b g Hab Hne Hbg Hf) as Href.
    assert (∃ k1, k1 ≤ k0 ∧ path (<[a:=g]> p) k1 g r) as (k1 & Hk1 & Hg).
    { inversion Hb as [r0 Hr | k2 b0 g0 r0 Hbg0 Hgb Hgp]; subst.
      - assert (g = r) as -> by congruence.
        destruct Href as [_ Href]. destruct (Href _ _ _ Hb) as (k' & ? & ?).
        exists k'. split; [lia | done].
      - assert (g0 = g) as -> by congruence.
        destruct Href as [_ Href]. destruct (Href _ _ _ Hgp) as (k' & ? & ?).
        exists k'. split; [lia | done]. }
    destruct (IH k1 ltac:(lia) (<[a:=g]> p) g fuel) as (p' & Hfind & Href');
      [by eapply refines_forest | done | lia |].
    exists p'. split; [done|]. by eapply refines_trans.
Qed.

End PathFacts.

Section CountFacts.

Lemma filter_ext_elem {A} (P Q : A → Prop)
    `{∀ x, Decision (P x)} `{∀ x, Decision (Q x)} (l : list A) :
  (∀ x, x ∈ l → (P x ↔ Q x)) → filter P l = filter Q l.
Proof.
  induction l as [|x l IH]; intros HPQ; [done|].
  rewrite !filter_cons, IH by (intros; apply HPQ; by right).
  pose proof (HPQ x (list_elem_of_here _ _)).
  repeat case_decide; tauto.
Qed.

Lemma filter_none {A} (P : A → Prop) `{∀ x, Decision (P x)} (l : list A) :
  (∀ x, x ∈ l → ¬ P x) → filter P l = [].
Proof.
  induction l as [|x l IH]; intros HP; [done|].
  rewrite filter_cons, decide_False by (apply HP; by left).
  apply IH. intros; apply HP; by right.
Qed.

Lemma elem_of_concat {A} (x : A) (ls : list (list A)) :
  x ∈ concat ls ↔ ∃ l, l ∈ ls ∧ x ∈ l.
Proof.
  rewrite list_elem_of_In, in_concat. split.
  - intros (l & ?%list_elem_of_In & ?%list_elem_of_In). eauto.
  - intros (l & ?%list_elem_of_In & ?%list_elem_of_In). eauto.
Qed.

Lemma count_to_ext f g n r :
  (∀ i, i < n → (f i = r ↔ g i = r)) → count_to f n r = count_to g n r.
Proof.
  intros H. unfold count_to. f_equal. apply filter_ext_elem.
  intros i Hi%elem_of_seq. apply H. lia.
Qed.

Lemma filter_length_split (P Q R : nat → Prop)
    `{∀ x, Decision (P x)} `{∀ x, Decision (Q x)} `{∀ x, Decision (R x)} l :
  (∀ i, i ∈ l → (R i ↔ P i ∨ Q i)) → (∀ i, i ∈ l → P i → Q i → False) →
  length (filter R l) = length (filter P l) + length (filter Q l).
Proof.
  induction l as [|x l IH]; intros HR HPQ; [done|].
  rewrite !filter_cons.
  specialize (IH (λ i Hi, HR i (list_elem_of_further _ _ _ Hi))
                 (λ i Hi, HPQ i (list_elem_of_further _ _ _ Hi))).
  pose proof (HR x (list_elem_of_here _ _)) as Hx.
  pose proof (HPQ x (list_elem_of_here _ _)) as Hd.
  repeat case_decide; simpl; try lia; tauto.
Qed.

Lemma count_to_merge f g n ra rb :
  ra ≠ rb → (∀ i, i < n → (g i = ra ↔ f i = ra ∨ f i = rb)) →
  count_to g n ra = count_to f n ra + count_to f n rb.
Proof.
  intros Hne H. unfold count_to. apply filter_length_split.
  - intros i Hi%elem_of_seq. apply H. lia.
  - intros i _ ? ?. congruence.
Qed.

Lemma count_to_pos f n i : i < n → 0 < count_to f n (f i).
Proof.
  intros Hi. unfold count_to.
  assert (i ∈ filter (λ j, f j = f i) (seq 0 n)) as Hin.
  { apply list_elem_of_filter. split; [done | apply elem_of_seq; lia]. }
  destruct (filter _ _); [by apply elem_of_nil in Hin | simpl; lia].
Qed.

Lemma count_to_id n r : r < n → count_to (λ i, i) n r = 1.
Proof.
  intros Hr. unfold count_to.
  assert (∀ m s, length (filter (λ i, i = r) (seq s m))
                 = if decide (s ≤ r < s + m) then 1 else 0) as H.
  { induction m as [|m IH]; intros s; simpl.
    - case_decide; [lia | done].
    - rewrite filter_cons. case_decide; simpl; rewrite IH;
        repeat case_decide; lia. }
  rewrite H. case_decide; [done | lia].
Qed.

End CountFacts.

Section DSUFacts.
Import DSU DSUInv.

Lemma path_seq n a : a < n → path (seq 0 n) 0 a a.
Proof. intros H. constructor. by rewrite lookup_seq_lt. Qed.

Lemma repr_init n a : repr (init n) a = a.
Proof.
  unfold repr. simpl. destruct (decide (a < n)).
  - eapply root_of_path, path_seq. done.
  - apply root_of_out. rewrite length_seq. lia.
Qed.

Lemma init_wf n : wf (init n).
Proof.
  split; simpl.
  - by rewrite length_replicate, length_seq.
  - intros a Ha. rewrite length_seq in Ha. exists 0, a. by apply path_seq.
  - rewrite length_seq. intros r Hr _.
    rewrite lookup_replicate_2 by done. f_equal. symmetry.
    rewrite <- (count_to_id n r Hr). apply count_to_ext.
    intros i _. by rewrite repr_init.
Qed.

(** [find] on a well-formed forest returns the root and keeps the
    partition, the sizes and the invariant. *)
Lemma find_spec d a :
  wf d → a < length (parent d) →
  ∃ d', find d a = Ret (d', repr d a) ∧ wf d'
        ∧ (∀ i, repr d' i = repr d i)
        ∧ length (parent d') = length (parent d).
Proof.
  intros [Hlen Hf Hsz] Ha.
  destruct (forest_path _ a Hf Ha) as [k Hp].
  destruct (find_loop_path _ k a _ (S (length (parent d))) Hf Hp)
    as (p' & Hfind & Href); [apply path_bound in Hp; lia|].
  exists (mk p' (size d)). unfold find. rewrite Hfind. simpl.
  assert (∀ i, repr (mk p' (size d)) i = repr d i) as Hrepr
    by (intros i; by apply refines_root_of).
  destruct Href as [L Href0]. split_and!; [done| |done|done].
  split; simpl.
  - congruence.
  - eapply refines_forest; [done|]. by split.
  - rewrite L. intros r Hr Hroot. rewrite Hrepr in Hroot.
    rewrite (Hsz r Hr Hroot). f_equal. apply count_to_ext.
    intros i _. by rewrite Hrepr.
Qed.

(** Hanging the root [rb] below the root [ra]. *)
Lemma link_path p ra rb k x r :
  p !! ra = Some ra → p !! rb = Some rb → ra ≠ rb → path p k x r →
  path (<[rb := ra]> p) (if decide (r = rb) then S k else k) x
       (if decide (r = rb) then ra else r).
Proof.
  intros Hra Hrb Hne. induction 1 as [r Hr | k a b r Hab Hba Hp IH].
  - case_decide as E.
    + subst r. econstructor; [|exact Hne|].
      * apply list_lookup_insert_eq. by eapply lookup_lt_Some.
      * constructor. by rewrite list_lookup_insert_ne.
    + constructor. by rewrite list_lookup_insert_ne.
  - assert (a ≠ rb) by (intros ->; congruence).
    assert (<[rb:=ra]> p !! a = Some b) as Hab' by (by rewrite list_lookup_insert_ne).
    case_decide; econstructor; eauto.
Qed.

Lemma link_root_of p ra rb x :
  forest p → p !! ra = Some ra → p !! rb = Some rb → ra ≠ rb →
  forest (<[rb := ra]> p) ∧
  root_of (<[rb := ra]> p) x = if decide (root_of p x = rb) then ra else root_of p x.
Proof.
  intros Hf Hra Hrb Hne. split.
  - intros a Ha. rewrite length_insert in Ha.
    destruct (Hf a Ha) as (k & r & Hp). do 2 eexists.
    by apply (link_path p ra rb k a r).
  - destruct (decide (x < length p)) as [Hx|Hx].
    + destruct (forest_path p x Hf Hx) as [k Hp].
      eapply root_of_path. by apply link_path.
    + assert (rb < length p) by (by eapply lookup_lt_Some).
      rewrite (root_of_out p x) by lia.
      rewrite decide_False by lia.
      apply root_of_out. rewrite length_insert. lia.
Qed.

(** The array update of [union] on two distinct roots. *)
Lemma link_wf d ra rb sa sb :
  wf d → ra ≠ rb →
  ra < length (parent d) → rb < length (parent d) →
  repr d ra = ra → repr d rb = rb →
  size d !! ra = Some sa → size d !! rb = Some sb →
  let d' := mk (<[rb := ra]> (parent d)) (<[ra := sa + sb]> (size d)) in
  wf d' ∧ ∀ x, repr d' x = if decide (repr d x = rb) then ra else repr d x.
Proof.
  intros [Hlen Hf Hsz] Hne Hra Hrb Ha Hb Hsa Hsb d'.
  apply root_iff in Ha; [|done..]. apply root_iff in Hb; [|done..].
  assert (∀ x, repr d' x = if decide (repr d x = rb) then ra else repr d x) as Hrepr.
  { intros x. by apply link_root_of. }
  split; [|done]. split; simpl.
  - by rewrite !length_insert.
  - by apply (link_root_of _ ra rb 0).
  - rewrite length_insert. intros r Hr Hroot.
    rewrite (Hsz ra Hra) in Hsa by (by apply root_iff).
    rewrite (Hsz rb Hrb) in Hsb by (by apply root_iff).
    injection Hsa as <-. injection Hsb as <-.
    pose proof (Hrepr r) as Hr'. rewrite Hroot in Hr'.
    destruct (decide (r = ra)) as [->|Hrne].
    + rewrite list_lookup_insert_eq by lia. f_equal. symmetry.
      apply count_to_merge; [done|].
      intros i _. rewrite Hrepr.
      destruct (decide (repr d i = rb)) as [Ei|Ei]; split.
      * by right.
      * done.
      * by left.
      * by intros [?|?].
    + rewrite list_lookup_insert_ne by done.
      case_decide as E; [congruence|].
      rewrite (Hsz r Hr) by done. f_equal. apply count_to_ext.
      intros i _. rewrite Hrepr.
      destruct (decide (repr d i = rb)); split; intros; congruence.
Qed.

(** [union] on a well-formed forest merges the two sets and nothing
    else. *)
Lemma union_spec d a b :
  wf d → a < length (parent d) → b < length (parent d) →
  ∃ d', union d a b = Ret d' ∧ wf d'
        ∧ length (parent d') = length (parent d)
        ∧ ∃ ra rb, ((ra = repr d a ∧ rb = repr d b) ∨ (ra = repr d b ∧ rb = repr d a))
            ∧ ∀ x, repr d' x = if decide (repr d x = rb) then ra else repr d x.
Proof.
  intros Hwf Ha Hb.
  destruct (find_spec d a Hwf Ha) as (d1 & Hf1 & Hwf1 & Hr1 & L1).
  destruct (find_spec d1 b Hwf1 ltac:(lia)) as (d2 & Hf2 & Hwf2 & Hr2 & L2).
  unfold union. rewrite Hf1. simpl. rewrite Hf2. simpl. rewrite Hr1.
  assert (∀ x, repr d2 x = repr d x) as Hr by (intros; by rewrite Hr2, Hr1).
  assert (length (parent d2) = length (parent d)) as L by lia.
  destruct (Nat.eqb_spec (repr d a) (repr d b)) as [E|Hne].
  { exists d2. split_and!; [done..|]. exists (repr d a), (repr d b).
    split; [by left|]. intros x. rewrite Hr. case_decide; congruence. }
  pose proof (wf_forest _ Hwf) as Hfo.
  assert (repr d a < length (parent d)) as Hra by (by apply root_of_lt).
  assert (repr d b < length (parent d)) as Hrb by (by apply root_of_lt).
  assert (repr d2 (repr d a) = repr d a) as Hia by (rewrite Hr; by apply root_of_idem).
  assert (repr d2 (repr d b) = repr d b) as Hib by (rewrite Hr; by apply root_of_idem).
  pose proof (wf_len _ Hwf2) as Hlen2.
  destruct (lookup_lt_is_Some_2 (size d2) (repr d a) ltac:(lia)) as [sa Hsa].
  destruct (lookup_lt_is_Some_2 (size d2) (repr d b) ltac:(lia)) as [sb Hsb].
  unfold get. rewrite Hsa, Hsb. simpl.
  destruct (sa <? sb).
  - rewrite Hsb, Hsa. simpl. unfold put.
    destruct (Nat.ltb_spec (repr d a) (length (parent d2))); [|lia].
    destruct (Nat.ltb_spec (repr d b) (length (size d2))); [|lia]. simpl.
    destruct (link_wf d2 (repr d b) (repr d a) sb sa) as [Hwf' Hrepr'];
      [done | congruence | lia | lia | done..|].
    eexists. split_and!; [done | done | simpl; by rewrite length_insert |].
    exists (repr d b), (repr d a). split; [by right|].
    intros x. rewrite Hrepr', !Hr. done.
  - rewrite Hsa, Hsb. simpl. unfold put.
    destruct (Nat.ltb_spec (repr d b) (length (parent d2))); [|lia].
    destruct (Nat.ltb_spec (repr d a) (length (size d2))); [|lia]. simpl.
    destruct (link_wf d2 (repr d a) (repr d b) sa sb) as [Hwf' Hrepr'];
      [done | congruence | lia | lia | done..|].
    eexists. split_and!; [done | done | simpl; by rewrite length_insert |].
    exists (repr d a), (repr d b). split; [by left|].
    intros x. rewrite Hrepr', !Hr. done.
Qed.

End DSUFacts.

Section DSURuns.
Import DSU DSUInv.

Lemma apply_wf d o :
  wf d → in_range (length (parent d)) o →
  ∃ d', apply d o = Ret d' ∧ wf d' ∧ length (parent d') = length (parent d).
Proof.
  intros Hwf Ho. destruct o as [a | a b]; simpl in *.
  - destruct (find_spec d a Hwf Ho) as (d' & -> & ? & ? & ?). simpl. eauto.
  - destruct Ho as [Ha Hb].
    destruct (union_spec d a b Hwf Ha Hb) as (d' & ? & ? & ? & _). eauto.
Qed.

Lemma run_wf ops d :
  wf d → Forall (in_range (length (parent d))) ops →
  ∃ d', run ops d = Ret d' ∧ wf d' ∧ length (parent d') = length (parent d).
Proof.
  revert d. induction ops as [|o ops IH]; intros d Hwf Hops.
  - exists d. done.
  - apply Forall_cons in Hops as [Ho Hops].
    destruct (apply_wf d o Hwf Ho) as (d1 & Hap & Hwf1 & L1).
    destruct (IH d1 Hwf1) as (d' & Hrun & Hwf' & L'); [by rewrite L1|].
    exists d'. unfold run in *. simpl. rewrite Hap. simpl.
    split_and!; [done | done | lia].
Qed.

Lemma resolves_iff d i r :
  wf d → i < length (parent d) → resolves d i r = true ↔ repr d i = r.
Proof.
  intros Hwf Hi. unfold resolves.
  destruct (find_spec d i Hwf Hi) as (d' & -> & _). apply Nat.eqb_eq.
Qed.

(** On a well-formed forest the loop of [find] ends with any fuel from
    the number of nodes on, and always on the same root. *)
Lemma find_loop_enough d a fuel :
  wf d → a < length (parent d) → length (parent d) ≤ fuel →
  ∃ p', find_loop fuel (parent d) a = Ret (p', repr d a).
Proof.
  intros Hwf Ha Hfuel.
  destruct (forest_path _ a (wf_forest _ Hwf) Ha) as [k Hp].
  destruct (find_loop_path _ k a _ fuel (wf_forest _ Hwf) Hp) as (p' & ? & _);
    [apply path_bound in Hp; lia | eauto].
Qed.

End DSURuns.

(** [union] by size on four nodes, then [find] with path halving. *)
Example dsu_run_sample :
  DSUInv.run [DSUInv.Union 0 1; DSUInv.Union 2 3; DSUInv.Union 1 3] (DSU.init 4)
  = Ret (DSU.mk [0; 0; 0; 2] [4; 1; 2; 1])
  ∧ DSU.find (DSU.mk [0; 0; 0; 2] [4; 1; 2; 1]) 3
    = Ret (DSU.mk [0; 0; 0; 0] [4; 1; 2; 1], 0).
Proof. split; reflexivity. Qed.

(** The loop of [find] with too few turns, and with enough. *)
Example find_loop_turns :
  DSU.find_loop 1 [1; 2; 2] 0 = Diverge
  ∧ DSU.find_loop 3 [1; 2; 2] 0 = Ret ([2; 2; 2], 2)
  ∧ DSU.find_loop 9 [1; 2; 2] 0 = Ret ([2; 2; 2], 2)
  ∧ DSU.find_loop 3 [1; 2; 2] 7 = Raise IndexError.
Proof. split_and!; reflexivity. Qed.

(** C10: any sequence of [find] and [union] calls on indices below [n],
    started on [DSU(n)], runs to its end without an exception.  In the
    state it leaves the parent array is an acyclic forest over the [n]
    indices, [find] terminates on every index (with any number of turns
    from [n] on), and the size recorded at a root is the number of indices
    that [find] resolves to it. *)
Theorem dsu_invariant (n : nat) (ops : list DSUInv.op) :
  Forall (DSUInv.in_range n) ops →
  ∃ d, DSUInv.run ops (DSU.init n) = Ret d
     ∧ length (DSU.parent d) = n ∧ length (DSU.size d) = n
     ∧ forest (DSU.parent d)
     ∧ (∀ a fuel, a < n → n ≤ fuel →
          ∃ p' r, DSU.find_loop fuel (DSU.parent d) a = Ret (p', r) ∧ r < n
                  ∧ DSU.parent d !! r = Some r)
     ∧ (∀ r, DSU.parent d !! r = Some r →
          DSU.size d !! r
          = Some (length (filter (λ i, DSUInv.resolves d i r = true) (seq 0 n)))).
Proof.
  intros Hops.
  assert (length (DSU.parent (DSU.init n)) = n) as L0 by apply length_seq.
  destruct (run_wf ops (DSU.init n) (init_wf n)) as (d & Hrun & Hwf & L);
    [by rewrite L0|].
  rewrite L0 in L. exists d.
  split_and!; [done | done | by rewrite (DSUInv.wf_len _ Hwf) | apply Hwf | |].
  - intros a fuel Ha Hfuel.
    destruct (find_loop_enough d a fuel Hwf) as [p' Hfind]; [lia..|].
    exists p', (DSUInv.repr d a). split_and!; [done | |].
    + rewrite <- L. apply root_of_lt; [apply Hwf | lia].
    + apply root_iff; [apply Hwf | apply root_of_lt; [apply Hwf | lia] |].
      apply root_of_idem, Hwf.
  - intros r Hr.
    assert (r < length (DSU.parent d)) as Hlt by (by eapply lookup_lt_Some).
    rewrite (DSUInv.wf_size _ Hwf r Hlt) by (apply root_iff; [apply Hwf|done..]).
    f_equal. unfold count_to. rewrite L. f_equal. apply filter_ext_elem.
    intros i Hi%elem_of_seq. symmetry. apply resolves_iff; [done | lia].
Qed.

(** The invariant on a run of three unions and one find over five nodes. *)
Lemma dsu_invariant_witness :
  let ops := [DSUInv.Union 0 1; DSUInv.Union 2 3; DSUInv.Find 1; DSUInv.Union 1 3] in
  Forall (DSUInv.in_range 5) ops ∧
  ∃ d, DSUInv.run ops (DSU.init 5) = Ret d
     ∧ length (DSU.parent d) = 5 ∧ length (DSU.size d) = 5
     ∧ forest (DSU.parent d)
     ∧ (∀ a fuel, a < 5 → 5 ≤ fuel →
          ∃ p' r, DSU.find_loop fuel (DSU.parent d) a = Ret (p', r) ∧ r < 5
                  ∧ DSU.parent d !! r = Some r)
     ∧ (∀ r, DSU.parent d !! r = Some r →
          DSU.size d !! r
          = Some (length (filter (λ i, DSUInv.resolves d i r = true) (seq 0 5)))).
Proof.
  intros ops.
  assert (Forall (DSUInv.in_range 5) ops) as H
    by (repeat constructor; simpl; lia).
  split; [exact H | exact (dsu_invariant 5 ops H)].
Defined.

(* ===================================================================== *)
(** ** The blocking index *)
(* ===================================================================== *)

Section Blocks.
Context {Timestamp : Type} (isoformat : Timestamp → string).

Implicit Types (df : list (@row Timestamp)) (blocks : list (block_key * list nat)).

Lemma blocks_append_keys k idx blocks :
  (blocks_append k idx blocks).*1
  = if decide (k ∈ blocks.*1) then blocks.*1 else blocks.*1 ++ [k].
Proof.
  induction blocks as [|[k' l] rest IH]; csimpl; [done|].
  destruct (decide (k' = k)) as [->|Hne]; csimpl.
  - rewrite decide_True; [done | by left].
  - rewrite IH. destruct (decide (k ∈ rest.*1)).
    + rewrite decide_True; [done | by right].
    + rewrite decide_False; [done|]. intros [?|?]%elem_of_cons; congruence.
Qed.

Lemma blocks_append_perm k idx blocks :
  concat (blocks_append k idx blocks).*2 ≡ₚ concat blocks.*2 ++ [idx].
Proof.
  induction blocks as [|[k' l] rest IH]; csimpl; [done|].
  destruct (decide (k' = k)); csimpl.
  - rewrite <- !(assoc app). apply Permutation_app_head, Permutation_app_comm.
  - by rewrite IH, (assoc app).
Qed.

Lemma blocks_append_elem k idx blocks k' l' :
  NoDup blocks.*1 →
  (k', l') ∈ blocks_append k idx blocks →
    (k' ≠ k ∧ ((k', l') ∈ blocks))
    ∨ (k' = k ∧ ((∃ l, (k, l) ∈ blocks ∧ l' = (l ++ [idx]))
                 ∨ ((k ∉ blocks.*1) ∧ l' = [idx]))).
Proof.
  induction blocks as [|[k0 l0] rest IH]; csimpl; intros Hnd Hin.
  - apply list_elem_of_singleton in Hin. injection Hin as -> ->.
    right. split; [done|]. right. split; [apply not_elem_of_nil | done].
  - apply NoDup_cons in Hnd as [Hk0 Hnd].
    destruct (decide (k0 = k)) as [->|Hne].
    + apply elem_of_cons in Hin as [Hin|Hin].
      * injection Hin as -> ->. right. split; [done|]. left.
        exists l0. split; [by left | done].
      * left. split; [|by right]. intros ->. apply Hk0.
        apply list_elem_of_fmap. by exists (k, l').
    + apply elem_of_cons in Hin as [Hin|Hin].
      * injection Hin as -> ->. left. split; [done | by left].
      * destruct (IH Hnd Hin) as [[? ?] | [-> [(l & ? & ->) | [Hnin ->]]]].
        -- left. split; [done | by right].
        -- right. split; [done|]. left. exists l. split; [by right | done].
        -- right. split; [done|]. right. split; [|done].
           intros [?|?]%elem_of_cons; [congruence | done].
Qed.

Lemma build_blocks_snoc df r :
  build_blocks isoformat (df ++ [r])
  = blocks_append (key_of isoformat r) (length df) (build_blocks isoformat df).
Proof.
  unfold build_blocks. rewrite imap_app, fold_left_app. simpl.
  by rewrite Nat.add_0_r.
Qed.

Lemma key_at_snoc_lt df r i :
  i < length df → key_at isoformat (df ++ [r]) i = key_at isoformat df i.
Proof. intros H. unfold key_at. by rewrite lookup_app_l. Qed.

Lemma filter_key_snoc df r k :
  filter (λ i, key_at isoformat (df ++ [r]) i = Some k) (seq 0 (length (df ++ [r])))
  = filter (λ i, key_at isoformat df i = Some k) (seq 0 (length df))
    ++ (if decide (key_of isoformat r = k) then [length df] else []).
Proof.
  rewrite length_app. simpl. rewrite seq_app, filter_app. simpl. f_equal.
  - apply filter_ext_elem. intros i Hi%elem_of_seq.
    rewrite key_at_snoc_lt by lia. done.
  - rewrite filter_cons, filter_nil. unfold key_at.
    rewrite list_lookup_middle by done. simpl.
    destruct (decide (key_of isoformat r = k)) as [->|Hne].
    + by rewrite decide_True.
    + rewrite decide_False; [done | congruence].
Qed.

Lemma blocks_inv_key_known df blocks i k :
  blocks_inv isoformat df blocks → key_at isoformat df i = Some k → k ∈ blocks.*1.
Proof.
  intros [Hnd Hperm Hkey] Hi.
  assert (i < length df) as Hlt.
  { unfold key_at in Hi. destruct (df !! i) eqn:E; [|done].
    by eapply lookup_lt_Some. }
  assert (i ∈ concat blocks.*2) as Hin
    by (rewrite Hperm; apply elem_of_seq; lia).
  apply elem_of_concat in Hin as (l & Hl & Hil).
  apply list_elem_of_fmap in Hl as ([k' l'] & -> & Hl). simpl in Hil.
  rewrite (Hkey _ _ Hl) in Hil. apply list_elem_of_filter in Hil as [Hk _].
  assert (k' = k) as -> by congruence.
  apply list_elem_of_fmap. by exists (k, l').
Qed.

Lemma build_blocks_inv df :
  blocks_inv isoformat df (build_blocks isoformat df).
Proof.
  induction df as [|r df IH] using rev_ind.
  - split; simpl; [apply NoDup_nil_2 | done | by intros k l ?%elem_of_nil].
  - rewrite build_blocks_snoc. pose proof IH as [Hnd Hperm Hkey]. split.
    + rewrite blocks_append_keys. case_decide; [done|].
      apply NoDup_app. split_and!; [done | | apply NoDup_singleton].
      intros k Hk ->%list_elem_of_singleton. done.
    + rewrite blocks_append_perm, Hperm, length_app. simpl.
      by rewrite seq_app.
    + intros k l Hin. rewrite filter_key_snoc.
      apply blocks_append_elem in Hin; [|done].
      destruct Hin as [[Hne Hin] | [-> [(l0 & Hin & ->) | [Hnin ->]]]].
      * rewrite decide_False by done. rewrite app_nil_r. by apply Hkey.
      * rewrite decide_True by done. f_equal. by apply Hkey.
      * rewrite decide_True by done.
        replace (filter _ _) with (@nil nat); [done|].
        symmetry. apply filter_none. intros i _ Hi.
        apply Hnin. by eapply blocks_inv_key_known.
Qed.

Lemma blocks_member_list df k l :
  (k, l) ∈ build_blocks isoformat df →
  l = filter (λ i, key_at isoformat df i = Some k) (seq 0 (length df)).
Proof. apply (members_key _ _ _ (build_blocks_inv df)). Qed.

Lemma blocks_member_key df k l i :
  (k, l) ∈ build_blocks isoformat df → i ∈ l → key_at isoformat df i = Some k.
Proof.
  intros Hin Hi. rewrite (members_key _ _ _ (build_blocks_inv df) k l Hin) in Hi.
  by apply list_elem_of_filter in Hi as [? _].
Qed.

Lemma blocks_member_lt df k l i :
  (k, l) ∈ build_blocks isoformat df → i ∈ l → i < length df.
Proof.
  intros Hin Hi. rewrite (members_key _ _ _ (build_blocks_inv df) k l Hin) in Hi.
  apply list_elem_of_filter in Hi as [_ Hi%elem_of_seq]. lia.
Qed.

(** The block of a row: the one filed under its key. *)
Lemma blocks_find df i r :
  df !! i = Some r →
  ∃ l, (key_of isoformat r, l) ∈ build_blocks isoformat df ∧ i ∈ l.
Proof.
  intros Hi. pose proof (build_blocks_inv df) as Hinv.
  assert (key_at isoformat df i = Some (key_of isoformat r)) as Hk
    by (unfold key_at; by rewrite Hi).
  pose proof (blocks_inv_key_known _ _ _ _ Hinv Hk) as Hin.
  apply list_elem_of_fmap in Hin as ([k l] & Heq & Hin). simpl in Heq. subst k.
  exists l. split; [done|].
  rewrite (members_key _ _ _ Hinv _ _ Hin). apply list_elem_of_filter.
  split; [done|]. apply elem_of_seq. apply lookup_lt_Some in Hi. lia.
Qed.

Lemma blocks_same_key df k l l' :
  (k, l) ∈ build_blocks isoformat df → (k, l') ∈ build_blocks isoformat df → l = l'.
Proof.
  intros H1 H2. pose proof (build_blocks_inv df) as Hinv.
  rewrite (members_key _ _ _ Hinv _ _ H1). by rewrite (members_key _ _ _ Hinv _ _ H2).
Qed.

End Blocks.

(** C7: the blocks partition the record indices.  The keys of the index
    are distinct; the member lists, put end to end, are the indices
    [0 .. len(df)-1] in some order, so none is missing and none occurs
    twice; and every index is in the list of exactly one block. *)
Theorem blocks_partition {Timestamp : Type} (isoformat : Timestamp → string)
    (df : list (@row Timestamp)) :
  let blocks := build_blocks isoformat df in
  NoDup blocks.*1
  ∧ concat blocks.*2 ≡ₚ seq 0 (length df)
  ∧ NoDup (concat blocks.*2)
  ∧ ∀ i, i < length df →
      ∃ j, (∃ k l, blocks !! j = Some (k, l) ∧ i ∈ l)
         ∧ ∀ j' k' l', blocks !! j' = Some (k', l') → i ∈ l' → j' = j.
Proof.
  intros blocks. subst blocks.
  destruct (build_blocks_inv isoformat df) as [Hnd Hperm Hkey].
  split_and!; [done | done | rewrite Hperm; apply NoDup_seq |].
  intros i Hi.
  destruct (lookup_lt_is_Some_2 df i Hi) as [r Hr].
  destruct (blocks_find isoformat df i r Hr) as (l & Hin & Hil).
  apply list_elem_of_lookup in Hin as [j Hj]. exists j. split; [eauto|].
  intros j' k' l' Hj' Hil'.
  assert ((k', l') ∈ build_blocks isoformat df) as Hin'
    by (apply list_elem_of_lookup; eauto).
  pose proof (blocks_member_key isoformat df k' l' i Hin' Hil') as Hk.
  unfold key_at in Hk. rewrite Hr in Hk. injection Hk as <-.
  eapply NoDup_lookup; [exact Hnd | |].
  - by rewrite list_lookup_fmap, Hj'.
  - by rewrite list_lookup_fmap, Hj.
Qed.

(* ===================================================================== *)
(** ** Which indices a sequence of unions connects *)
(* ===================================================================== *)

Section ConnFacts.
Import DSU DSUInv.

Lemma conn_mono E E' i j : (∀ e, e ∈ E → e ∈ E') → conn E i j → conn E' i j.
Proof.
  intros Hsub. induction 1; eauto using conn.
Qed.

Lemma run_app ops1 ops2 d :
  run (ops1 ++ ops2) d = bind (run ops1 d) (run ops2).
Proof.
  revert d. induction ops1 as [|o ops1 IH]; intros d; [done|].
  unfold run in *. simpl. destruct (apply d o); simpl; [apply IH | done..].
Qed.

Lemma edges_app ops1 ops2 : edges (ops1 ++ ops2) = edges ops1 ++ edges ops2.
Proof. apply omap_app. Qed.

(** After any run from [DSU(n)], two indices have the same root exactly
    when the unions of the run connect them. *)
Lemma run_conn n ops :
  Forall (in_range n) ops →
  ∃ d, run ops (init n) = Ret d ∧ wf d ∧ length (parent d) = n
       ∧ ∀ i j, repr d i = repr d j ↔ conn (edges ops) i j.
Proof.
  induction ops as [|o ops IH] using rev_ind; intros Hops.
  - exists (init n). split_and!; [done | apply init_wf | apply length_seq |].
    intros i j. rewrite !repr_init. split; [intros ->; apply conn_refl|].
    induction 1 as [| a b []%elem_of_nil | |]; congruence.
  - apply Forall_app in Hops as [Hops Ho]. apply Forall_cons in Ho as [Ho _].
    destruct (IH Hops) as (d & Hrun & Hwf & L & Hconn).
    rewrite run_app, Hrun, edges_app. simpl.
    destruct o as [a | a b]; simpl in Ho; simpl.
    + rewrite <- L in Ho.
      destruct (find_spec d a Hwf Ho) as (d' & Hf & Hwf' & Hr & L').
      unfold run. simpl. rewrite Hf. simpl. exists d'.
      split_and!; [done | done | lia |].
      intros i j. rewrite !Hr, app_nil_r. apply Hconn.
    + rewrite <- L in Ho. destruct Ho as [Ha Hb].
      destruct (union_spec d a b Hwf Ha Hb)
        as (d' & Hu & Hwf' & L' & ra & rb & Hab & Hr).
      unfold run. simpl. rewrite Hu. simpl. exists d'.
      split_and!; [done | done | lia |].
      assert (∀ i j, conn (edges ops) i j → conn (edges ops ++ [(a, b)]) i j) as Hmono.
      { intros i j. apply conn_mono. intros e He. apply elem_of_app. by left. }
      assert (conn (edges ops ++ [(a, b)]) a b) as Hedge.
      { apply conn_edge, elem_of_app. right. by left. }
      assert (repr d' a = repr d' b) as Hab'.
      { rewrite !Hr.
        destruct Hab as [[-> ->] | [-> ->]]; repeat case_decide; congruence. }
      intros i j. split.
      * rewrite !Hr. intros Hij.
        assert (∀ x y, repr d x = ra → repr d y = rb →
                       conn (edges ops ++ [(a, b)]) x y) as Hcross.
        { intros x y Hx Hy. destruct Hab as [[-> ->] | [-> ->]].
          - apply Hconn, Hmono in Hx. apply Hconn, Hmono in Hy.
            eapply conn_trans; [exact Hx|]. eapply conn_trans; [exact Hedge|].
            by apply conn_sym.
          - apply Hconn, Hmono in Hx. apply Hconn, Hmono in Hy.
            eapply conn_trans; [exact Hx|].
            eapply conn_trans; [apply conn_sym, Hedge|]. by apply conn_sym. }
        destruct (decide (repr d i = rb)) as [Ei|Ei];
          destruct (decide (repr d j = rb)) as [Ej|Ej].
        -- apply Hmono, Hconn. congruence.
        -- apply conn_sym, Hcross; congruence.
        -- apply Hcross; congruence.
        -- by apply Hmono, Hconn.
      * induction 1 as [i | x y Hxy | i j _ IHc | i j k _ IH1 _ IH2].
        -- done.
        -- apply elem_of_app in Hxy as [Hxy | Hxy%list_elem_of_singleton].
           ++ apply conn_edge, Hconn in Hxy. rewrite !Hr, Hxy. done.
           ++ by injection Hxy as -> ->.
        -- done.
        -- congruence.
Qed.

Lemma conn_perm E E' i j : E ≡ₚ E' → conn E i j → conn E' i j.
Proof. intros HP. apply conn_mono. intros e. by rewrite HP. Qed.

End ConnFacts.

(* ===================================================================== *)
(** ** The numbering of the clusters *)
(* ===================================================================== *)

Section NumberingFacts.

Lemma count_to_S f m r :
  count_to f (S m) r = count_to f m r + (if decide (f m = r) then 1 else 0).
Proof.
  unfold count_to. rewrite seq_S, filter_app, length_app. simpl.
  rewrite filter_cons, filter_nil. by case_decide.
Qed.

Lemma heads_before_S f n m :
  heads_before f n (S m)
  = heads_before f n m ++ (if decide (is_head f n m) then [m] else []).
Proof.
  unfold heads_before. rewrite seq_S, filter_app. simpl.
  by rewrite filter_cons, filter_nil.
Qed.

Lemma first_idx_Some f r m j :
  first_idx f r m = Some j → j < m ∧ f j = r ∧ first_idx f r j = None.
Proof.
  induction m as [|m IH]; simpl; [done|].
  destruct (first_idx f r m) as [j'|] eqn:E.
  - intros [= ->]. destruct (IH eq_refl) as (? & ? & ?). split_and!; [lia | done..].
  - case_decide; [|done]. intros [= <-]. split_and!; [lia | done..].
Qed.

Lemma first_idx_None f r m :
  first_idx f r m = None ↔ ∀ j, j < m → f j ≠ r.
Proof.
  induction m as [|m IH]; simpl.
  - split; [intros _ j; lia | done].
  - destruct (first_idx f r m) as [j'|] eqn:E.
    + split; [done|]. intros H. apply first_idx_Some in E as (? & ? & _).
      exfalso. apply (H j'); [lia | done].
    + case_decide as Em.
      * split; [done|]. intros H. exfalso. apply (H m); [lia | done].
      * split; [|done]. intros _ j Hj. destruct (decide (j = m)) as [->|]; [done|].
        apply IH; [done | lia].
Qed.

Lemma head_of_head f i : first_idx f (f i) i = None → head_of f i = i.
Proof. intros H. unfold head_of. simpl. rewrite H. by rewrite decide_True. Qed.

Lemma head_of_later f i j : first_idx f (f i) i = Some j → head_of f i = j.
Proof. intros H. unfold head_of. simpl. by rewrite H. Qed.

(** The numbering looks at the partition only. *)
Lemma first_idx_ext f g n i m :
  (∀ i j, i < n → j < n → (f i = f j ↔ g i = g j)) → i < n → m ≤ n →
  first_idx f (f i) m = first_idx g (g i) m.
Proof.
  intros H Hi. induction m as [|m IH]; intros Hm; simpl; [done|].
  rewrite IH by lia. destruct (first_idx g (g i) m); [done|].
  destruct (decide (f m = f i)) as [E|E].
  - rewrite decide_True; [done|]. apply H; [lia | done..].
  - rewrite decide_False; [done|]. intros E'. apply E. apply H; [lia | done..].
Qed.

Lemma class_size_ext f g n i :
  (∀ i j, i < n → j < n → (f i = f j ↔ g i = g j)) → i < n →
  count_to f n (f i) = count_to g n (g i).
Proof.
  intros H Hi. unfold count_to. f_equal. apply filter_ext_elem.
  intros j Hj%elem_of_seq. apply H; [lia | done].
Qed.

Lemma heads_before_ext f g n m :
  (∀ i j, i < n → j < n → (f i = f j ↔ g i = g j)) → m ≤ n →
  heads_before f n m = heads_before g n m.
Proof.
  intros H Hm. unfold heads_before. apply filter_ext_elem.
  intros i Hi%elem_of_seq. unfold is_head.
  rewrite (first_idx_ext f g n i i H) by lia.
  rewrite (class_size_ext f g n i H) by lia. done.
Qed.

Lemma expected_id_ext f g n i :
  (∀ i j, i < n → j < n → (f i = f j ↔ g i = g j)) → i < n →
  expected_id f n i = expected_id g n i.
Proof.
  intros H Hi. unfold expected_id, head_of.
  rewrite (class_size_ext f g n i H Hi).
  rewrite (first_idx_ext f g n i (S i) H Hi) by lia.
  case_decide; [|done]. f_equal. f_equal. apply heads_before_ext; [done|].
  destruct (first_idx g (g i) (S i)) as [j|] eqn:E; simpl; [|lia].
  apply first_idx_Some in E. lia.
Qed.

(** A member of a cluster has the identifier of the first member, and
    the first members are numbered 0, 1, 2, ... in ascending order. *)
Lemma head_of_spec f i :
  head_of f i ≤ i ∧ f (head_of f i) = f i
  ∧ first_idx f (f i) (head_of f i) = None.
Proof.
  unfold head_of. destruct (first_idx f (f i) (S i)) as [j|] eqn:E; simpl.
  - apply first_idx_Some in E as (? & ? & ?). split_and!; [lia | done..].
  - exfalso. rewrite first_idx_None in E. apply (E i); [lia | done].
Qed.

Lemma expected_id_head f n i :
  expected_id f n i = expected_id f n (head_of f i).
Proof.
  destruct (head_of_spec f i) as (Hle & Hf & Hnone).
  unfold expected_id. rewrite Hf. case_decide; [|done].
  rewrite <- Hf in Hnone. by rewrite (head_of_head f _ Hnone).
Qed.

Lemma expected_id_heads f n m :
  expected_id f n <$> heads_before f n m
  = Z.of_nat <$> seq 0 (length (heads_before f n m)).
Proof.
  induction m as [|m IH]; [done|].
  rewrite heads_before_S. case_decide as Hh.
  - rewrite fmap_app, length_app, IH. simpl. rewrite seq_app, fmap_app. simpl.
    f_equal. f_equal. destruct Hh as [Hn Hc].
    unfold expected_id. rewrite decide_True by done.
    by rewrite (head_of_head f m Hn).
  - by rewrite !app_nil_r.
Qed.

Lemma fmap_length_seq_heads f n :
  (λ h, Some (expected_id f n h)) <$> heads_before f n n
  = (λ k, Some (Z.of_nat k)) <$> seq 0 (length (heads_before f n n)).
Proof.
  rewrite (list_fmap_compose (expected_id f n) Some), expected_id_heads.
  by rewrite <- list_fmap_compose.
Qed.

End NumberingFacts.

Section Loops.

(** A [for i in range(s, s+k)] loop whose body keeps an invariant
    indexed by the number of turns done. *)
Lemma for_each_seq {B} (f : B → nat → res B) (Inv : nat → B → Prop) s k b :
  Inv s b →
  (∀ m b, s ≤ m < s + k → Inv m b → ∃ b', f b m = Ret b' ∧ Inv (S m) b') →
  ∃ b', for_each f (seq s k) b = Ret b' ∧ Inv (s + k) b'.
Proof.
  revert s b. induction k as [|k IH]; intros s b H0 Hstep; simpl.
  - exists b. by rewrite Nat.add_0_r.
  - destruct (Hstep s b ltac:(lia) H0) as (b1 & -> & H1). simpl.
    destruct (IH (S s) b1 H1) as (b' & Hb' & Hinv).
    + intros m b2 Hm. apply Hstep. lia.
    + exists b'. split; [done|]. by replace (s + S k) with (S s + k) by lia.
Qed.

End Loops.

Section AssignFacts.
Import DSU DSUInv.

Lemma count_phase n d :
  wf d → length (parent d) = n →
  ∃ d' counts, for_each count_step (seq 0 n) (d, ∅) = Ret (d', counts)
    ∧ wf d' ∧ length (parent d') = n ∧ (∀ i, repr d' i = repr d i)
    ∧ counts_upto (repr d) n counts.
Proof.
  intros Hwf L.
  destruct (for_each_seq count_step
    (λ m st, wf st.1 ∧ length (parent st.1) = n ∧ (∀ i, repr st.1 i = repr d i)
             ∧ counts_upto (repr d) m st.2) 0 n (d, ∅))
    as ([d' counts] & Hrun & Hwf' & L' & Hr' & Hc'); simpl.
  - split_and!; [done..|]. intros r. by rewrite lookup_empty.
  - intros m [d1 c1] Hm (Hwf1 & L1 & Hr1 & Hc1). simpl in *.
    destruct (find_spec d1 m Hwf1 ltac:(lia)) as (d2 & Hf2 & Hwf2 & Hr2 & L2).
    destruct (find_spec d2 m Hwf2 ltac:(lia)) as (d3 & Hf3 & Hwf3 & Hr3 & L3).
    rewrite Hf2. simpl. rewrite Hf3. simpl. eexists. split; [done|]. simpl.
    split_and!; [done | lia | by intros; rewrite Hr3, Hr2, Hr1 |].
    intros r. rewrite Hr2, !Hr1, count_to_S.
    destruct (decide (repr d m = r)) as [->|Hne].
    + rewrite lookup_insert_eq, Hc1.
      rewrite (decide_False (P := (_ + 1 = 0))) by lia.
      f_equal. case_decide as E; simpl; [by rewrite E | done].
    + rewrite lookup_insert_ne by done. rewrite Hc1, Nat.add_0_r. done.
  - exists d', counts. done.
Qed.

Lemma numbered_skip f n m cm cc ids :
  m < n → ¬ 1 < count_to f n (f m) →
  numbered_upto f n m cm cc ids → numbered_upto f n (S m) cm cc ids.
Proof.
  intros Hm Hc (Hcc & Hcm & Hids). split_and!.
  - rewrite heads_before_S, decide_False, app_nil_r; [done|]. by intros [_ ?].
  - intros r. rewrite Hcm. simpl. destruct (first_idx f r m); [done|].
    case_decide as E; [|done]. subst r. by rewrite decide_False.
  - rewrite Hids, seq_S, fmap_app, <- (assoc app). simpl. f_equal.
    replace (n - m) with (S (n - S m)) by lia. simpl. f_equal.
    unfold expected_id. by rewrite decide_False.
Qed.

Lemma numbered_member f n m cm cc ids j :
  m < n → 1 < count_to f n (f m) → first_idx f (f m) m = Some j →
  numbered_upto f n m cm cc ids →
  ∃ cid, cm !! f m = Some cid
         ∧ numbered_upto f n (S m) cm cc (<[m := cid]> ids).
Proof.
  intros Hm Hc Hj (Hcc & Hcm & Hids).
  exists (Z.of_nat (length (heads_before f n j))). split.
  { by rewrite Hcm, Hj, decide_True. }
  split_and!.
  - rewrite heads_before_S, decide_False, app_nil_r; [done|].
    intros [? _]. congruence.
  - intros r. rewrite Hcm. simpl. destruct (first_idx f r m) eqn:E; [done|].
    case_decide as Er; [|done]. subst r. congruence.
  - rewrite Hids, seq_S, fmap_app, <- (assoc app). simpl.
    rewrite insert_app_r_alt by (rewrite length_fmap, length_seq; lia).
    rewrite length_fmap, length_seq, Nat.sub_diag. f_equal.
    replace (n - m) with (S (n - S m)) by lia. simpl. f_equal.
    unfold expected_id. rewrite decide_True by done.
    by rewrite (head_of_later f m j Hj).
Qed.

Lemma numbered_head f n m cm cc ids :
  m < n → 1 < count_to f n (f m) → first_idx f (f m) m = None →
  numbered_upto f n m cm cc ids →
  numbered_upto f n (S m) (<[f m := cc]> cm) (cc + 1)%Z (<[m := cc]> ids).
Proof.
  intros Hm Hc Hj (Hcc & Hcm & Hids). split_and!.
  - rewrite heads_before_S, decide_True, length_app by done. simpl. lia.
  - intros r. simpl. destruct (decide (f m = r)) as [<-|Hne].
    + rewrite lookup_insert_eq, Hj, decide_True by done. by rewrite Hcc.
    + rewrite lookup_insert_ne by done. rewrite Hcm.
      by destruct (first_idx f r m).
  - rewrite Hids, seq_S, fmap_app, <- (assoc app). simpl.
    rewrite insert_app_r_alt by (rewrite length_fmap, length_seq; lia).
    rewrite length_fmap, length_seq, Nat.sub_diag. f_equal.
    replace (n - m) with (S (n - S m)) by lia. simpl. f_equal.
    unfold expected_id. rewrite decide_True by done.
    by rewrite (head_of_head f m Hj).
Qed.

Lemma numbered_length f n m cm cc ids :
  m ≤ n → numbered_upto f n m cm cc ids → length ids = n.
Proof.
  intros Hm (_ & _ & ->).
  rewrite length_app, length_fmap, length_seq, length_replicate. lia.
Qed.

Lemma number_phase n d counts :
  wf d → length (parent d) = n → counts_upto (repr d) n counts →
  ∃ st, for_each (number_step counts) (seq 0 n) (d, ∅, 0%Z, replicate n (-1)%Z)
        = Ret st
    ∧ st.2 = expected_id (repr d) n <$> seq 0 n.
Proof.
  intros Hwf L Hcounts.
  destruct (for_each_seq (number_step counts)
    (λ m st, wf st.1.1.1 ∧ length (parent st.1.1.1) = n
             ∧ (∀ i, repr st.1.1.1 i = repr d i)
             ∧ numbered_upto (repr d) n m st.1.1.2 st.1.2 st.2)
    0 n (d, ∅, 0%Z, replicate n (-1)%Z))
    as (st & Hrun & _ & _ & _ & _ & _ & Hids); simpl.
  - split_and!; [done..|]. split_and!; [done | | by rewrite Nat.sub_0_r].
    intros r. by rewrite lookup_empty.
  - intros m [[[d1 cm] cc] ids] Hm (Hwf1 & L1 & Hr1 & Hnum). simpl in *.
    destruct (find_spec d1 m Hwf1 ltac:(lia)) as (d2 & Hf2 & Hwf2 & Hr2 & L2).
    rewrite Hf2. simpl. rewrite Hr1.
    pose proof (count_to_pos (repr d) n m ltac:(lia)) as Hpos.
    unfold getitem at 1. rewrite Hcounts, decide_False by lia. simpl.
    assert (∀ i, repr d2 i = repr d i) as Hr by (intros; by rewrite Hr2, Hr1).
    assert (length ids = n) as Hlen
      by (eapply numbered_length; [|exact Hnum]; lia).
    destruct (Nat.ltb_spec 1 (count_to (repr d) n (repr d m))) as [Hc|Hc].
    + destruct (first_idx (repr d) (repr d m) m) as [j|] eqn:Ej.
      * destruct (numbered_member (repr d) n m cm cc ids j ltac:(lia) Hc Ej Hnum)
          as (cid & Hcid & Hnum').
        rewrite Hcid. unfold getitem. rewrite Hcid. simpl. unfold put.
        destruct (Nat.ltb_spec m (length ids)); [|lia]. simpl.
        eexists. split; [done|]. simpl. split_and!; [done | lia | done..].
      * pose proof Hnum as (_ & Hcm & _).
        rewrite Hcm, Ej. unfold getitem. rewrite lookup_insert_eq. simpl.
        unfold put. destruct (Nat.ltb_spec m (length ids)); [|lia]. simpl.
        eexists. split; [done|]. simpl. split_and!; [done | lia | done|].
        apply numbered_head; [lia | done..].
    + eexists. split; [done|]. simpl. split_and!; [done | lia | done|].
      apply numbered_skip; [lia | lia | done].
  - exists st. split; [done|]. simpl in Hids.
    by rewrite Hids, Nat.sub_diag, app_nil_r.
Qed.

(** Lines 88-96 on a well-formed forest: no exception, and the list of
    identifiers is the one the partition determines. *)
Lemma assign_clusters_spec n d :
  wf d → length (parent d) = n →
  assign_clusters n d = Ret (expected_id (repr d) n <$> seq 0 n).
Proof.
  intros Hwf L. unfold assign_clusters.
  destruct (count_phase n d Hwf L) as (d' & counts & -> & Hwf' & L' & Hr' & Hc).
  simpl.
  assert (counts_upto (repr d') n counts) as Hc'.
  { intros r. rewrite Hc. rewrite (count_to_ext (repr d) (repr d') n r); [done|].
    intros i _. by rewrite Hr'. }
  destruct (number_phase n d' counts Hwf' L' Hc') as (st & -> & Hst). simpl.
  rewrite Hst. f_equal. apply list_fmap_ext. intros k i [-> Hk]%lookup_seq.
  apply expected_id_ext; [|done]. intros. by rewrite !Hr'.
Qed.

End AssignFacts.

(* ===================================================================== *)
(** ** The unions of detect_duplicates *)
(* ===================================================================== *)

Section LinkFacts.
Import DSU DSUInv.
Context {Timestamp : Type} (isoformat : Timestamp → string)
        (partial_ratio : string → string → Q).

Implicit Types (df : list (@row Timestamp)).

Lemma edges_unions l : edges (unions l) = l.
Proof.
  unfold edges, unions. induction l as [|[a b] l IH]; [done|].
  csimpl. by rewrite IH.
Qed.

Lemma unions_app l1 l2 : unions (l1 ++ l2) = unions l1 ++ unions l2.
Proof. apply fmap_app. Qed.

Lemma inner_loop_run a na later d :
  for_each (λ dsu '(b, nb),
      if similar partial_ratio na nb then union dsu a b else Ret dsu) later d
  = run (unions ((λ m, (a, m.1))
           <$> filter (λ m, similar partial_ratio na m.2 = true) later)) d.
Proof.
  revert d. induction later as [|[b nb] later IH]; intros d; [done|].
  simpl. rewrite filter_cons. simpl.
  destruct (similar partial_ratio na nb) eqn:E.
  - rewrite decide_True by done. unfold run. simpl.
    destruct (union d a b); simpl; [apply IH | done..].
  - rewrite decide_False by done. simpl. apply IH.
Qed.

Lemma link_members_run members d :
  link_members partial_ratio members d
  = run (unions (member_pairs (similar partial_ratio) members)) d.
Proof.
  revert d. induction members as [|[a na] later IH]; intros d; [done|].
  simpl. rewrite unions_app, run_app, inner_loop_run.
  destruct (run _ d); simpl; [apply IH | done..].
Qed.

Lemma block_names_ok df indices acc :
  (∀ i, i ∈ indices → i < length df) →
  for_each (λ acc i, let* n := name_at df i in Ret (acc ++ [n])) indices acc
  = Ret (acc ++ (name_of df <$> indices)).
Proof.
  revert acc. induction indices as [|i indices IH]; intros acc Hin; simpl.
  - by rewrite app_nil_r.
  - destruct (lookup_lt_is_Some_2 df i) as [r Hr]; [apply Hin; by left|].
    unfold name_at, name_of at 1. rewrite Hr. simpl.
    rewrite IH by (intros; apply Hin; by right).
    by rewrite <- (assoc app).
Qed.

Lemma zip_names df (indices : list nat) :
  zip indices (name_of df <$> indices) = (λ i, (i, name_of df i)) <$> indices.
Proof. induction indices as [|i l IH]; [done|]. csimpl. by rewrite IH. Qed.

Lemma member_pairs_short sim (members : list (nat * string)) :
  length members < 2 → member_pairs sim members = [].
Proof.
  destruct members as [|[a na] [|m l]]; simpl; [done | done | lia].
Qed.

Lemma link_block_run df d blk :
  (∀ i, i ∈ blk.2 → i < length df) →
  link_block partial_ratio df d blk
  = run (unions (block_pairs (similar partial_ratio) df blk.2)) d.
Proof.
  intros Hin. unfold link_block, block_pairs.
  destruct (Nat.ltb_spec (length blk.2) 2) as [Hlt|_].
  - rewrite member_pairs_short; [done|]. by rewrite length_fmap.
  - rewrite block_names_ok by done. simpl.
    by rewrite zip_names, link_members_run.
Qed.

Lemma link_blocks_run df blocks d :
  (∀ blk i, blk ∈ blocks → i ∈ blk.2 → i < length df) →
  for_each (link_block partial_ratio df) blocks d
  = run (unions (concat ((λ blk, block_pairs (similar partial_ratio) df blk.2)
                           <$> blocks))) d.
Proof.
  revert d. induction blocks as [|blk blocks IH]; intros d Hin; [done|].
  csimpl. rewrite unions_app, run_app.
  rewrite link_block_run by (intros; eapply Hin; [by left | done]).
  destruct (run _ d); simpl; [|done..].
  apply IH. intros; eapply Hin; [by right | done].
Qed.

Lemma link_run df :
  link isoformat partial_ratio df
  = run (unions (link_pairs isoformat partial_ratio df)) (init (length df)).
Proof.
  unfold link, link_pairs. apply link_blocks_run.
  intros [k l] i Hblk Hi. by eapply blocks_member_lt.
Qed.

Lemma member_pairs_elem sim members a b :
  (a, b) ∈ member_pairs sim members → a ∈ members.*1 ∧ b ∈ members.*1.
Proof.
  induction members as [|[x nx] later IH]; simpl; [by intros ?%elem_of_nil|].
  intros [Hin|Hin]%elem_of_app.
  - apply list_elem_of_fmap in Hin as ([y ny] & [= -> ->] & Hy).
    apply list_elem_of_filter in Hy as [_ Hy]. split; [by left|]. right.
    apply list_elem_of_fmap. by exists (y, ny).
  - destruct (IH Hin). split; by right.
Qed.

Lemma link_pairs_range df a b :
  (a, b) ∈ link_pairs isoformat partial_ratio df → a < length df ∧ b < length df.
Proof.
  unfold link_pairs. intros (l & Hl & Hab)%elem_of_concat.
  apply list_elem_of_fmap in Hl as ([k ix] & -> & Hblk). simpl in Hab.
  apply member_pairs_elem in Hab as [Ha Hb].
  rewrite <- list_fmap_compose in Ha, Hb. simpl in *.
  rewrite list_fmap_id in Ha, Hb.
  split; by eapply blocks_member_lt.
Qed.

(** Lines 73-86 raise nothing and leave a well-formed forest in which
    two records share a root exactly when the unions connect them. *)
Lemma link_spec df :
  ∃ d, link isoformat partial_ratio df = Ret d ∧ wf d
       ∧ length (parent d) = length df
       ∧ ∀ i j, repr d i = repr d j
                ↔ conn (link_pairs isoformat partial_ratio df) i j.
Proof.
  rewrite link_run.
  destruct (run_conn (length df) (unions (link_pairs isoformat partial_ratio df)))
    as (d & Hrun & Hwf & L & Hconn).
  - apply Forall_forall. intros o Ho.
    apply list_elem_of_fmap in Ho as ([a b] & -> & Hab).
    by apply link_pairs_range in Hab.
  - exists d. rewrite edges_unions in Hconn. done.
Qed.

Lemma detect_duplicates_spec df :
  ∃ d, link isoformat partial_ratio df = Ret d ∧ wf d
       ∧ length (parent d) = length df
       ∧ (∀ i j, repr d i = repr d j
                 ↔ conn (link_pairs isoformat partial_ratio df) i j)
       ∧ detect_duplicates isoformat partial_ratio df
         = Ret (Some <$> (expected_id (repr d) (length df) <$> seq 0 (length df))).
Proof.
  destruct (link_spec df) as (d & Hlink & Hwf & L & Hconn).
  exists d. split_and!; [done..|].
  unfold detect_duplicates. rewrite Hlink. simpl.
  by rewrite (assign_clusters_spec _ d Hwf L).
Qed.

End LinkFacts.

(* ===================================================================== *)
(** ** Sets, heads and identifiers *)
(* ===================================================================== *)

Section ClusterFacts.

Lemma seq_split2 n i j :
  i < j → j < n →
  seq 0 n = seq 0 i ++ i :: seq (S i) (j - S i) ++ j :: seq (S j) (n - S j).
Proof.
  intros Hij Hjn.
  replace n with (i + (S (j - S i) + S (n - S j))) at 1 by lia.
  rewrite seq_app. f_equal. simpl. f_equal.
  rewrite seq_app. f_equal. simpl.
  replace (S (i + (j - S i))) with j by lia. done.
Qed.

Lemma filter_seq_split2 (P : nat → Prop) `{∀ x, Decision (P x)} n i j :
  i < j → j < n → P i → P j →
  ∃ l1 l2 l3, filter P (seq 0 n) = l1 ++ i :: l2 ++ j :: l3.
Proof.
  intros Hij Hjn Hi Hj. rewrite (seq_split2 n i j Hij Hjn).
  rewrite filter_app, filter_cons, decide_True by done.
  rewrite filter_app, (filter_cons _ j), decide_True by done. eauto.
Qed.

Lemma class_size_two f n i j :
  i < n → j < n → i ≠ j → f i = f j → 1 < count_to f n (f i).
Proof.
  intros Hi Hj Hne Hf. unfold count_to.
  destruct (decide (i < j)).
  - destruct (filter_seq_split2 (λ k, f k = f i) n i j) as (l1 & l2 & l3 & ->);
      [done..|].
    rewrite length_app. simpl. rewrite length_app. simpl. lia.
  - destruct (filter_seq_split2 (λ k, f k = f i) n j i) as (l1 & l2 & l3 & ->);
      [lia | done..|].
    rewrite length_app. simpl. rewrite length_app. simpl. lia.
Qed.

Lemma head_of_eq f i j : f i = f j → head_of f i = head_of f j.
Proof.
  intros Hf.
  destruct (head_of_spec f i) as (_ & Hi & Ni).
  destruct (head_of_spec f j) as (_ & Hj & Nj).
  rewrite first_idx_None in Ni, Nj.
  destruct (Nat.lt_trichotomy (head_of f i) (head_of f j)) as [H|[H|H]]; [|done|].
  - exfalso. apply (Nj _ H). congruence.
  - exfalso. apply (Ni _ H). congruence.
Qed.

Lemma expected_id_same_set f n i j :
  f i = f j → expected_id f n i = expected_id f n j.
Proof.
  intros Hf. unfold expected_id. by rewrite Hf, (head_of_eq f i j Hf).
Qed.

Lemma expected_id_cases f n i :
  i < n →
  (count_to f n (f i) = 1 ∧ expected_id f n i = (-1)%Z)
  ∨ (1 < count_to f n (f i) ∧ (0 ≤ expected_id f n i)%Z).
Proof.
  intros Hi. pose proof (count_to_pos f n i Hi).
  unfold expected_id. case_decide; [right | left]; split; lia.
Qed.

Lemma member_pairs_split sim l1 a na l2 b nb l3 :
  sim na nb = true →
  (a, b) ∈ member_pairs sim (l1 ++ (a, na) :: l2 ++ (b, nb) :: l3).
Proof.
  intros Hs. induction l1 as [|[x nx] l1 IH]; simpl.
  - apply elem_of_app. left. apply list_elem_of_fmap. exists (b, nb).
    split; [done|]. apply list_elem_of_filter. split; [done|].
    apply elem_of_app. right. by left.
  - apply elem_of_app. by right.
Qed.

End ClusterFacts.

(* ===================================================================== *)
(** ** Cluster identifiers *)
(* ===================================================================== *)

(** C1, as the code has it.  [detect_duplicates] raises nothing and gives
    every record a number, never a null.  With [d] the forest after the
    unions, [f] its root function and the size of a set the number of
    records with one root (which is the size recorded at the root):
    a record alone in its set has [-1]; a record in a larger set has a
    number from 0 up, the one of the first record of its set; and the first
    records of the larger sets, in ascending order of index, have the
    numbers 0, 1, 2, ... without a gap. *)
Theorem cluster_ids_assignment {Timestamp : Type} (isoformat : Timestamp → string)
    (partial_ratio : string → string → Q) (df : list (@row Timestamp)) :
  ∃ d ids,
    link isoformat partial_ratio df = Ret d
    ∧ detect_duplicates isoformat partial_ratio df = Ret (Some <$> ids)
    ∧ length ids = length df
    ∧ let n := length df in
      let f := DSUInv.repr d in
      (∀ i, i < n → DSU.size d !! f i = Some (count_to f n (f i)))
      ∧ (∀ i, i < n → count_to f n (f i) = 1 → ids !! i = Some (-1)%Z)
      ∧ (∀ i, i < n → 1 < count_to f n (f i) →
           ∃ c, ids !! i = Some c ∧ (0 ≤ c)%Z ∧ ids !! head_of f i = Some c)
      ∧ (∀ i c, ids !! i = Some c → (0 ≤ c)%Z → 1 < count_to f n (f i))
      ∧ (λ h, ids !! h) <$> heads_before f n n
        = (λ k, Some (Z.of_nat k)) <$> seq 0 (length (heads_before f n n)).
Proof.
  destruct (detect_duplicates_spec isoformat partial_ratio df)
    as (d & Hlink & Hwf & L & _ & Hdet).
  exists d, (expected_id (DSUInv.repr d) (length df) <$> seq 0 (length df)).
  split; [done|]. split; [done|].
  split; [by rewrite length_fmap, length_seq|].
  intros n f. subst n f.
  set (n := length df) in *. set (f := DSUInv.repr d) in *.
  assert (∀ i, i < n → (expected_id f n <$> seq 0 n) !! i = Some (expected_id f n i))
    as Hids.
  { intros i Hi. by rewrite list_lookup_fmap, lookup_seq_lt. }
  split_and!.
  - intros i Hi. rewrite <- L in *. apply (DSUInv.wf_size _ Hwf).
    + apply root_of_lt; [apply Hwf | lia].
    + apply root_of_idem, Hwf.
  - intros i Hi Hc. rewrite (Hids i Hi). f_equal.
    destruct (expected_id_cases f n i Hi) as [[_ ?]|[? _]]; [done | lia].
  - intros i Hi Hc. exists (expected_id f n i).
    destruct (head_of_spec f i) as (Hle & _ & _).
    split_and!; [by apply Hids | |].
    + destruct (expected_id_cases f n i Hi) as [[? _]|[_ ?]]; [lia | done].
    + rewrite Hids by lia. f_equal. symmetry. apply expected_id_head.
  - intros i c Hi Hc.
    assert (i < n) as Hlt.
    { apply lookup_lt_Some in Hi. by rewrite length_fmap, length_seq in Hi. }
    rewrite (Hids i Hlt) in Hi. injection Hi as <-.
    destruct (expected_id_cases f n i Hlt) as [[_ ?]|[? _]]; [lia | done].
  - rewrite <- (fmap_length_seq_heads f n).
    apply list_fmap_ext. intros k h Hk. simpl.
    apply list_elem_of_lookup_2, list_elem_of_filter in Hk as [_ Hh%elem_of_seq].
    apply Hids. lia.
Qed.

(** C6: the numbering looks at the final partition only.  Two runs of
    unions and finds from [DSU(n)] that union the same pairs in any order,
    or that in any other way end with the same sets, are given the same
    list of cluster identifiers by lines 88-96. *)
Theorem cluster_ids_order_independent (n : nat) (ops1 ops2 : list DSUInv.op)
    (d1 d2 : DSU.t) :
  Forall (DSUInv.in_range n) ops1 → Forall (DSUInv.in_range n) ops2 →
  DSUInv.run ops1 (DSU.init n) = Ret d1 →
  DSUInv.run ops2 (DSU.init n) = Ret d2 →
  edges ops1 ≡ₚ edges ops2 ∨ same_partition n d1 d2 →
  same_partition n d1 d2
  ∧ ∃ ids, assign_clusters n d1 = Ret ids ∧ assign_clusters n d2 = Ret ids.
Proof.
  intros H1 H2 R1 R2 Hsame.
  destruct (run_conn n ops1 H1) as (d1' & R1' & Hwf1 & L1 & C1).
  destruct (run_conn n ops2 H2) as (d2' & R2' & Hwf2 & L2 & C2).
  assert (d1' = d1) as -> by congruence.
  assert (d2' = d2) as -> by congruence.
  assert (same_partition n d1 d2) as Hpart.
  { destruct Hsame as [Hperm|?]; [|done].
    intros i j _ _. rewrite C1, C2.
    split; apply conn_perm; [done | by symmetry]. }
  split; [done|]. exists (expected_id (DSUInv.repr d1) n <$> seq 0 n).
  rewrite (assign_clusters_spec n d1 Hwf1 L1), (assign_clusters_spec n d2 Hwf2 L2).
  split; [done|]. f_equal. apply list_fmap_ext. intros k i [-> Hk]%lookup_seq.
  symmetry. apply expected_id_ext; [|done]. intros. by apply Hpart.
Qed.

(** The same three pairs unioned in two orders over five records: the
    parent arrays differ, the sets and the identifiers do not. *)
Lemma cluster_ids_order_independent_witness :
  let ops1 := [DSUInv.Union 0 1; DSUInv.Union 2 3; DSUInv.Union 1 2] in
  let ops2 := [DSUInv.Union 2 3; DSUInv.Find 0; DSUInv.Union 1 2; DSUInv.Union 0 1] in
  ∃ d1 d2,
    DSUInv.run ops1 (DSU.init 5) = Ret d1 ∧ DSUInv.run ops2 (DSU.init 5) = Ret d2
    ∧ DSU.parent d1 ≠ DSU.parent d2
    ∧ same_partition 5 d1 d2
    ∧ ∃ ids, assign_clusters 5 d1 = Ret ids ∧ assign_clusters 5 d2 = Ret ids.
Proof.
  intros ops1 ops2. eexists _, _.
  split; [reflexivity|]. split; [reflexivity|]. split; [discriminate|].
  apply (cluster_ids_order_independent 5 ops1 ops2).
  - repeat constructor; simpl; lia.
  - repeat constructor; simpl; lia.
  - reflexivity.
  - reflexivity.
  - left. vm_compute.
    apply (Permutation_cons_append [(2, 3); (1, 2)] (0, 1)).
Defined.

(* ===================================================================== *)
(** ** process_file *)
(* ===================================================================== *)

Section ProcessFacts.
Import DSU DSUInv.
Context {Timestamp Cell : Type} (isoformat : Timestamp → string)
        (dt_normalize : Timestamp → Timestamp)
        (to_datetime : list (option Cell) → list (option Timestamp))
        (partial_ratio : string → string → Q).

Lemma normalize_frame_length (rows : list (patient Cell)) :
  length (normalize_frame dt_normalize to_datetime rows) = length rows.
Proof. apply length_imap. Qed.

Lemma ids_lookup (f : nat → nat) n i :
  i < n →
  mjoin ((Some <$> (expected_id f n <$> seq 0 n)) !! i) = Some (expected_id f n i).
Proof. intros Hi. by rewrite !list_lookup_fmap, lookup_seq_lt. Qed.

Lemma process_file_spec (rows : list (patient Cell)) :
  ∃ d, link isoformat partial_ratio
         (normalize_frame dt_normalize to_datetime rows) = Ret d
    ∧ wf d
    ∧ length (parent d) = length rows
    ∧ (∀ i j, repr d i = repr d j
              ↔ conn (link_pairs isoformat partial_ratio
                        (normalize_frame dt_normalize to_datetime rows)) i j)
    ∧ ∃ s, process_file isoformat dt_normalize to_datetime partial_ratio rows
           = Ret (imap (annotate (repr d) (length rows)) rows, s)
           ∧ Total_Records s = length rows
           ∧ Duplicate_Records s
             = length (filter (λ a, Is_Duplicate a = true)
                         (imap (annotate (repr d) (length rows)) rows))
           ∧ Duplicate_Clusters s
             = nunique_dropna
                 (Some <$> (expected_id (repr d) (length rows)
                            <$> seq 0 (length rows))).
Proof.
  destruct (detect_duplicates_spec isoformat partial_ratio
              (normalize_frame dt_normalize to_datetime rows))
    as (d & Hlink & Hwf & L & Hconn & Hdet).
  rewrite normalize_frame_length in *.
  exists d. split_and!; [done..|].
  assert (imap (λ i p, {| Unique_ID := i + 1;
                Cluster_ID := mjoin ((Some <$> (expected_id (repr d) (length rows)
                                        <$> seq 0 (length rows))) !! i);
                Is_Duplicate := is_duplicate (mjoin ((Some <$>
                    (expected_id (repr d) (length rows)
                       <$> seq 0 (length rows))) !! i));
                source := p |}) rows
          = imap (annotate (repr d) (length rows)) rows) as Hout.
  { apply imap_ext. intros i p Hi. apply lookup_lt_Some in Hi.
    by rewrite ids_lookup. }
  unfold process_file. rewrite Hdet. cbn [bind]. cbv zeta. rewrite Hout.
  eexists. split; [done|]. cbn [Total_Records Duplicate_Records Duplicate_Clusters].
  split_and!; [apply normalize_frame_length | done..].
Qed.

End ProcessFacts.

(** C3, as the code has it.  [process_file] raises nothing; every record
    it returns carries a number as cluster identifier, never a null; the
    duplicate flag is true exactly when that number is not negative, false
    exactly when it is [-1], and true exactly when the set of the record
    has more than one member. *)
Theorem duplicate_flag_consistency {Timestamp Cell : Type}
    (isoformat : Timestamp → string) (dt_normalize : Timestamp → Timestamp)
    (to_datetime : list (option Cell) → list (option Timestamp))
    (partial_ratio : string → string → Q) (rows : list (patient Cell)) :
  ∃ out s d,
    process_file isoformat dt_normalize to_datetime partial_ratio rows = Ret (out, s)
    ∧ link isoformat partial_ratio (normalize_frame dt_normalize to_datetime rows)
      = Ret d
    ∧ length out = length rows
    ∧ ∀ i a, out !! i = Some a →
        ∃ c, Cluster_ID a = Some c
             ∧ (Is_Duplicate a = true ↔ (0 ≤ c)%Z)
             ∧ (Is_Duplicate a = false ↔ c = (-1)%Z)
             ∧ (Is_Duplicate a = true
                ↔ 1 < count_to (DSUInv.repr d) (length rows) (DSUInv.repr d i)).
Proof.
  destruct (process_file_spec isoformat dt_normalize to_datetime partial_ratio rows)
    as (d & Hlink & _ & _ & _ & s & Hproc & _).
  eexists _, s, d. split_and!; [done | done | apply length_imap |].
  intros i a Hi. rewrite list_lookup_imap in Hi.
  destruct (rows !! i) as [p|] eqn:Hp; [|done]. injection Hi as <-.
  apply lookup_lt_Some in Hp.
  exists (expected_id (DSUInv.repr d) (length rows) i).
  unfold annotate, is_duplicate. cbn [Cluster_ID Is_Duplicate].
  destruct (expected_id_cases (DSUInv.repr d) (length rows) i Hp) as [[Hc Hid]|[Hc Hid]];
    destruct (Z.leb_spec 0 (expected_id (DSUInv.repr d) (length rows) i));
    split_and!; try done; split; intros; try done; try lia.
Qed.

(** C3, as the specification states it, fails on a sheet of one record:
    the record has a cluster identifier, the number [-1], and its flag is
    false. *)
Lemma flag_false_with_identifier :
  match Sample.process [mk_patient (Some "Ann Lee") (Some "1990-01-01") (Some "F")] with
  | Ret ([a], _) =>
      Cluster_ID a = Some (-1)%Z ∧ Is_Duplicate a = false
      ∧ ¬ (Is_Duplicate a = true ↔ is_Some (Cluster_ID a))
  | _ => False
  end.
Proof.
  vm_compute. split_and!; [done | done |].
  intros [_ H]. discriminate H. by eexists.
Qed.

(** C1, as the specification states it, fails on a frame of one record:
    the record is alone in its set and receives the number [-1], not a
    null. *)
Lemma singleton_gets_minus_one :
  Sample.detect [mk_row "ann lee" (Some "1990-01-01") "female" "A540"]
  = Ret [Some (-1)%Z]
  ∧ Sample.detect [mk_row "ann lee" (Some "1990-01-01") "female" "A540"]
    ≠ Ret [None].
Proof. split; [reflexivity | discriminate]. Qed.

(** C2 on a sheet of three records, two of them duplicates of each other:
    one cluster identifier is assigned, the number 0, and the summary
    reports two clusters, because the [-1] of the third record is counted
    with it. *)
Theorem summary_counts_minus_one_as_cluster :
  let p1 := mk_patient (Some "Ann Lee") (Some "1990-01-01") (Some "F") in
  let p2 := mk_patient (Some "ann lee") (Some "1990-01-01") (Some "female") in
  let p3 := mk_patient (Some "Bob Ray") (Some "1985-05-05") (Some "M") in
  Sample.process [p1; p2; p3]
  = Ret ([mk_annotated 1 (Some 0%Z) true p1;
          mk_annotated 2 (Some 0%Z) true p2;
          mk_annotated 3 (Some (-1)%Z) false p3],
         {| Total_Records := 3; Duplicate_Records := 2; Duplicate_Clusters := 2 |}).
Proof. reflexivity. Qed.

Section UnknownDOB.
Import DSU DSUInv.
Context {Timestamp Cell : Type} (isoformat : Timestamp → string)
        (dt_normalize : Timestamp → Timestamp)
        (to_datetime : list (option Cell) → list (option Timestamp))
        (partial_ratio : string → string → Q).

Lemma normalize_frame_dob (rows : list (patient Cell)) i r :
  normalize_frame dt_normalize to_datetime rows !! i = Some r →
  DOB_parsed r = dt_normalize <$> mjoin (to_datetime (DOB <$> rows) !! i).
Proof.
  unfold normalize_frame. rewrite list_lookup_imap.
  destruct (rows !! i); [|done]. by intros [= <-].
Qed.

Lemma same_block_linked (df : list (row Timestamp)) k l i j ri rj :
  (k, l) ∈ build_blocks isoformat df → i ∈ l → j ∈ l → i < j →
  df !! i = Some ri → df !! j = Some rj →
  similar partial_ratio (Name_norm ri) (Name_norm rj) = true →
  (i, j) ∈ link_pairs isoformat partial_ratio df.
Proof.
  intros Hblk Hi Hj Hij Hri Hrj Hsim.
  unfold link_pairs. apply elem_of_concat. eexists. split.
  { apply list_elem_of_fmap. exists (k, l). split; [reflexivity | done]. }
  simpl. unfold block_pairs.
  pose proof (blocks_member_key isoformat df k l i Hblk Hi) as Ki.
  pose proof (blocks_member_key isoformat df k l j Hblk Hj) as Kj.
  pose proof (blocks_member_lt isoformat df k l j Hblk Hj) as Lj.
  rewrite (blocks_member_list isoformat df k l Hblk).
  destruct (filter_seq_split2 (λ x, key_at isoformat df x = Some k) (length df) i j)
    as (l1 & l2 & l3 & ->); [done..|].
  rewrite fmap_app, fmap_cons, fmap_app, fmap_cons.
  apply member_pairs_split. unfold name_of. by rewrite Hri, Hrj.
Qed.

End UnknownDOB.

(** C8: two records whose date of birth did not parse (or is missing) have
    no date in the frame, and when their normalised gender and the first
    two characters of their phonetic code agree they are members of one
    block, the one filed under the missing date.  [process_file] raises
    nothing on such a sheet, and when the names of the two are similar
    both records are flagged and carry the same cluster identifier. *)
Theorem unknown_dob_blocks_together {Timestamp Cell : Type}
    (isoformat : Timestamp → string) (dt_normalize : Timestamp → Timestamp)
    (to_datetime : list (option Cell) → list (option Timestamp))
    (partial_ratio : string → string → Q) (rows : list (patient Cell))
    (i j : nat) (ri rj : row Timestamp) :
  let df := normalize_frame dt_normalize to_datetime rows in
  df !! i = Some ri → df !! j = Some rj →
  mjoin (to_datetime (DOB <$> rows) !! i) = None →
  mjoin (to_datetime (DOB <$> rows) !! j) = None →
  Gender_norm ri = Gender_norm rj →
  Text.prefix 2 (Soundex ri) = Text.prefix 2 (Soundex rj) →
  DOB_parsed ri = None ∧ DOB_parsed rj = None
  ∧ (∃ l, (None, Gender_norm ri, Text.prefix 2 (Soundex ri), l)
            ∈ build_blocks isoformat df ∧ i ∈ l ∧ j ∈ l)
  ∧ ∃ out s,
      process_file isoformat dt_normalize to_datetime partial_ratio rows
      = Ret (out, s)
      ∧ (i < j → similar partial_ratio (Name_norm ri) (Name_norm rj) = true →
         ∃ c ai aj, out !! i = Some ai ∧ out !! j = Some aj ∧ (0 ≤ c)%Z
           ∧ Cluster_ID ai = Some c ∧ Cluster_ID aj = Some c
           ∧ Is_Duplicate ai = true ∧ Is_Duplicate aj = true).
Proof.
  intros df Hri Hrj Hdi Hdj Hg Hs.
  assert (DOB_parsed ri = None) as Di
    by (rewrite (normalize_frame_dob _ _ rows i ri Hri), Hdi; done).
  assert (DOB_parsed rj = None) as Dj
    by (rewrite (normalize_frame_dob _ _ rows j rj Hrj), Hdj; done).
  destruct (blocks_find isoformat df i ri Hri) as (l & Hl & Hil).
  destruct (blocks_find isoformat df j rj Hrj) as (l' & Hl' & Hjl).
  assert (key_of isoformat rj = key_of isoformat ri) as Hk.
  { unfold key_of. by rewrite Di, Dj, Hg, Hs. }
  rewrite Hk in Hl'.
  rewrite <- (blocks_same_key isoformat df _ _ _ Hl Hl') in Hjl.
  split; [done|]. split; [done|]. split.
  { exists l. unfold key_of in Hl. rewrite Di in Hl. done. }
  destruct (process_file_spec isoformat dt_normalize to_datetime partial_ratio rows)
    as (d & Hlink & Hwf & L & Hconn & s & Hproc & _).
  eexists _, s. split; [exact Hproc|]. intros Hij Hsim.
  pose proof (same_block_linked isoformat partial_ratio df _ l i j ri rj
                Hl Hil Hjl Hij Hri Hrj Hsim) as Hedge.
  apply conn_edge, Hconn in Hedge.
  assert (i < length rows ∧ j < length rows) as [Li Lj].
  { apply lookup_lt_Some in Hri, Hrj. unfold df in *.
    rewrite normalize_frame_length in *. done. }
  destruct (lookup_lt_is_Some_2 rows i Li) as [pi Hpi].
  destruct (lookup_lt_is_Some_2 rows j Lj) as [pj Hpj].
  pose proof (class_size_two (DSUInv.repr d) (length rows) i j Li Lj ltac:(lia) Hedge) as Hc.
  pose proof (expected_id_same_set (DSUInv.repr d) (length rows) i j Hedge) as Ej.
  destruct (expected_id_cases (DSUInv.repr d) (length rows) i Li) as [[? _]|[_ Hid]];
    [lia|].
  exists (expected_id (DSUInv.repr d) (length rows) i),
         (annotate (DSUInv.repr d) (length rows) i pi),
         (annotate (DSUInv.repr d) (length rows) j pj).
  rewrite !list_lookup_imap, Hpi, Hpj.
  unfold annotate, is_duplicate. cbn [Cluster_ID Is_Duplicate]. rewrite <- Ej.
  apply Z.leb_le in Hid as Hb. rewrite Hb. done.
Qed.

(** Two rows of one person, one with a date that does not parse and one
    without a date: both are flagged, with one identifier. *)
Lemma unknown_dob_blocks_together_witness :
  let rows := [mk_patient (Some "Jon  Smith") (Some "unknown") (Some "M");
               mk_patient (Some "jon smith") None (Some " male")] in
  let r : row string := mk_row "jon smith" None "male" "J500" in
  ∃ out s, Sample.process rows = Ret (out, s)
    ∧ ∃ c ai aj, out !! 0 = Some ai ∧ out !! 1 = Some aj ∧ (0 ≤ c)%Z
        ∧ Cluster_ID ai = Some c ∧ Cluster_ID aj = Some c
        ∧ Is_Duplicate ai = true ∧ Is_Duplicate aj = true.
Proof.
  intros rows r.
  destruct (unknown_dob_blocks_together Sample.isoformat Sample.dt_normalize
              Sample.to_datetime Sample.partial_ratio rows 0 1 r r)
    as (_ & _ & _ & out & s & Hproc & Hsame); [reflexivity..|].
  exists out, s. split; [exact Hproc|]. apply Hsame; [lia | reflexivity].
Defined.

Section SummaryFacts.

Lemma omap_id_Some {A} (l : list A) : omap id (Some <$> l) = l.
Proof. induction l as [|x l IH]; [done|]. csimpl. by rewrite IH. Qed.

Lemma heads_before_lt f n h m :
  is_head f n h → h < m →
  length (heads_before f n h) < length (heads_before f n m).
Proof.
  intros Hh Hm. unfold heads_before.
  replace m with (h + S (m - S h)) by lia.
  rewrite seq_app, filter_app, length_app. simpl.
  rewrite filter_cons, decide_True by done. simpl. lia.
Qed.

Lemma head_of_is_head f n i :
  1 < count_to f n (f i) → is_head f n (head_of f i).
Proof.
  intros Hc. destruct (head_of_spec f i) as (_ & Hf & Hn).
  split; by rewrite Hf.
Qed.

(** The distinct values among the identifiers: one for each cluster,
    and [-1] when some record is alone in its set. *)
Lemma distinct_ids f n :
  length (remove_dups (expected_id f n <$> seq 0 n))
  = length (heads_before f n n)
    + (if decide (Exists (λ i, count_to f n (f i) = 1) (seq 0 n)) then 1 else 0).
Proof.
  set (k := length (heads_before f n n)).
  set (alone := Exists (λ i, count_to f n (f i) = 1) (seq 0 n)).
  set (T := (Z.of_nat <$> seq 0 k) ++ (if decide alone then [(-1)%Z] else [])).
  assert (length T = k + (if decide alone then 1 else 0)) as <-.
  { unfold T. rewrite length_app, length_fmap, length_seq. by case_decide. }
  apply Permutation_length, NoDup_Permutation.
  - apply NoDup_remove_dups.
  - unfold T. apply NoDup_app. split_and!.
    + apply (NoDup_fmap_2 _), NoDup_seq.
    + intros x (q & -> & _)%list_elem_of_fmap. case_decide; [|apply not_elem_of_nil].
      intros ?%list_elem_of_singleton. lia.
    + case_decide; [apply NoDup_singleton | apply NoDup_nil_2].
  - intros x. rewrite elem_of_remove_dups. unfold T. rewrite elem_of_app. split.
    + intros (i & -> & Hi%elem_of_seq)%list_elem_of_fmap.
      destruct (expected_id_cases f n i ltac:(lia)) as [[Hc ->]|[Hc _]].
      * right. rewrite decide_True; [by left|].
        apply Exists_exists. exists i. split; [apply elem_of_seq; lia | done].
      * left. unfold expected_id. rewrite decide_True by done.
        apply list_elem_of_fmap. eexists. split; [done|]. apply elem_of_seq.
        destruct (head_of_spec f i) as (Hle & _ & _).
        pose proof (heads_before_lt f n (head_of f i) n
                      (head_of_is_head f n i Hc) ltac:(lia)). unfold k. lia.
    + intros [(q & -> & Hq%elem_of_seq)%list_elem_of_fmap | Hx].
      * destruct (lookup_lt_is_Some_2 (heads_before f n n) q ltac:(unfold k in *; lia))
          as [h Hh].
        pose proof (expected_id_heads f n n) as Heq.
        apply (f_equal (λ l, l !! q)) in Heq.
        rewrite !list_lookup_fmap, Hh, lookup_seq_lt in Heq by (unfold k in *; lia).
        simpl in Heq. injection Heq as <-.
        apply list_elem_of_fmap. exists h. split; [done|].
        apply list_elem_of_lookup_2, list_elem_of_filter in Hh. tauto.
      * case_decide as Ha; [|by apply elem_of_nil in Hx].
        apply list_elem_of_singleton in Hx as ->.
        apply Exists_exists in Ha as (i & Hi & Hc).
        apply list_elem_of_fmap. exists i. split; [|done].
        unfold expected_id. rewrite decide_False; [done | lia].
Qed.

End SummaryFacts.

(** What the summary of [process_file] holds, for every sheet: the number
    of records, the number of flagged records, and as number of clusters
    the number of sets with more than one record plus one as soon as some
    record is alone in its set. *)
Lemma summary_spec {Timestamp Cell : Type}
    (isoformat : Timestamp → string) (dt_normalize : Timestamp → Timestamp)
    (to_datetime : list (option Cell) → list (option Timestamp))
    (partial_ratio : string → string → Q) (rows : list (patient Cell)) :
  ∃ out s d,
    process_file isoformat dt_normalize to_datetime partial_ratio rows = Ret (out, s)
    ∧ link isoformat partial_ratio (normalize_frame dt_normalize to_datetime rows)
      = Ret d
    ∧ Total_Records s = length rows
    ∧ Duplicate_Records s = length (filter (λ a, Is_Duplicate a = true) out)
    ∧ let n := length rows in
      let f := DSUInv.repr d in
      Duplicate_Clusters s
      = length (heads_before f n n)
        + (if decide (Exists (λ i, count_to f n (f i) = 1) (seq 0 n)) then 1 else 0).
Proof.
  destruct (process_file_spec isoformat dt_normalize to_datetime partial_ratio rows)
    as (d & Hlink & _ & _ & _ & s & Hproc & Ht & Hr & Hc).
  eexists _, s, d. split_and!; [done..|].
  intros n f. rewrite Hc. unfold nunique_dropna.
  rewrite omap_id_Some. apply distinct_ids.
Qed.


(* ===================================================================== *)
(** ** Further properties of the helpers *)
(* ===================================================================== *)

Section MoreTextFacts.
Import Text.

Lemma is_space_lower c : is_space (lower_char c) = is_space c.
Proof.
  pose proof (by_cases_on_ascii
    (λ c, bool_decide (is_space (lower_char c) = is_space c)) eq_refl c) as H.
  by apply bool_decide_eq_true in H.
Qed.

Lemma upper_lower_char c : upper_char (lower_char c) = upper_char c.
Proof.
  pose proof (by_cases_on_ascii
    (λ c, bool_decide (upper_char (lower_char c) = upper_char c)) eq_refl c) as H.
  by apply bool_decide_eq_true in H.
Qed.

Lemma lower_idem s : lower (lower s) = lower s.
Proof.
  unfold lower. induction s as [|c t IH]; [done|]. cbn [map].
  by rewrite lower_char_idem, IH.
Qed.


Lemma lstrip_lower s : lstrip (lower s) = lower (lstrip s).
Proof.
  unfold lower. induction s as [|c t IH]; [done|]. cbn [map lstrip].
  rewrite is_space_lower. by destruct (is_space c).
Qed.

Lemma rstrip_lower s : rstrip (lower s) = lower (rstrip s).
Proof.
  unfold lower. induction s as [|c t IH]; [done|]. cbn [map rstrip].
  rewrite IH, is_space_lower.
  destruct (rstrip t); [by destruct (is_space c) | done].
Qed.

Lemma strip_lower s : strip (lower s) = lower (strip s).
Proof. unfold strip. by rewrite lstrip_lower, rstrip_lower. Qed.



Lemma upper_lower s : upper (lower s) = upper s.
Proof.
  unfold upper, lower. induction s as [|c t IH]; [done|]. cbn [map flat_map].
  by rewrite upper_lower_char, IH.
Qed.

Lemma upper_nil s : upper s = [] → s = [].
Proof.
  destruct s as [|c t]; [done|]. unfold upper. cbn [flat_map].
  unfold upper_char. repeat case_match; discriminate.
Qed.

End MoreTextFacts.

Section GenderFacts.
Import Text.

Lemma gender_chars_fixed g :
  lower (strip (lower (strip g))) = lower (strip g).
Proof. by rewrite strip_lower, strip_idem, lower_idem. Qed.


Lemma gender_cases g :
  normalize_gender (Some g) = "male" ∨ normalize_gender (Some g) = "female"
  ∨ normalize_gender (Some g) = "other"
  ∨ (let s := string_of_list_ascii (lower (strip (list_ascii_of_string g))) in
     normalize_gender (Some g) = s
     ∧ (s ∉ ["m"; "male"; "man"]) ∧ (s ∉ ["f"; "female"; "woman"])
     ∧ (s ∉ ["o"; "other"; "non-binary"; "nb"])).
Proof.
  unfold normalize_gender. cbv zeta. repeat case_bool_decide; auto 10.
Qed.

End GenderFacts.

(** X1: [normalize_gender] is idempotent: a normalised gender, missing
    or not, is left as it is by a second normalisation. *)
Theorem normalize_gender_idempotent (g : option string) :
  normalize_gender (Some (normalize_gender g)) = normalize_gender g.
Proof.
  destruct g as [g|]; [|reflexivity].
  destruct (gender_cases g) as [->|[->|[->|(Hs & HM & HF & HO)]]];
    [reflexivity..|].
  rewrite Hs. unfold normalize_gender. cbv zeta.
  rewrite list_ascii_of_string_of_list_ascii, gender_chars_fixed.
  by rewrite !bool_decide_eq_false_2.
Qed.


Section SoundexFacts.
Import Text.

Lemma lookup_code_digit c d : lookup_code codes c = Some d → d ∈ code_digits.
Proof.
  unfold codes, code_digits. simpl.
  repeat case_bool_decide; intros [= <-]; compute_done.
Qed.

Lemma soundex_step_grows sndx c :
  ∃ ext, soundex_step sndx c = sndx ++ ext
         ∧ Forall (λ d, d ∈ code_digits ∨ d = "0"%char) ext.
Proof.
  unfold soundex_step. destruct (lookup_code codes c) as [d|] eqn:E.
  - case_bool_decide.
    + exists [d]. split; [done|]. apply Forall_singleton.
      left. by eapply lookup_code_digit.
    + exists []. by rewrite app_nil_r.
  - exists ["0"%char]. split; [done|]. apply Forall_singleton. by right.
Qed.

Lemma soundex_fold_grows rest acc :
  ∃ ext, fold_left soundex_step rest acc = acc ++ ext
         ∧ Forall (λ d, d ∈ code_digits ∨ d = "0"%char) ext.
Proof.
  revert acc. induction rest as [|c rest IH]; intros acc; simpl.
  - exists []. by rewrite app_nil_r.
  - destruct (soundex_step_grows acc c) as (e1 & -> & H1).
    destruct (IH (acc ++ e1)) as (e2 & -> & H2).
    exists (e1 ++ e2). split; [by rewrite (assoc app) | by apply Forall_app].
Qed.

Lemma filter_zero_digits ext :
  Forall (λ d, d ∈ code_digits ∨ d = "0"%char) ext →
  Forall (λ d, d ∈ code_digits) (filter (λ c, c ≠ "0"%char) ext).
Proof.
  induction 1 as [|d ext Hd _ IH]; [constructor|].
  rewrite filter_cons. case_decide as Hz; [|done].
  constructor; [|done]. by destruct Hd.
Qed.

(** The code of a name whose upper-case form is [first :: rest]. *)
Lemma soundex_chars_cons name first rest :
  upper name = first :: rest →
  ∃ cs, Forall (λ d, d ∈ code_digits) cs
    ∧ soundex_chars name
      = take 4 ((if decide (first = "0"%char) then [] else [first])
                ++ cs ++ ["0"; "0"; "0"]%char).
Proof.
  intros Hu. unfold soundex_chars. rewrite Hu. cbv zeta.
  destruct (soundex_fold_grows rest [first]) as (ext & -> & Hext).
  exists (filter (λ c, c ≠ "0"%char) ext). split; [by apply filter_zero_digits|].
  rewrite filter_app, filter_cons, filter_nil, <- (assoc app).
  by destruct (decide (first = "0"%char)) as [->|?];
    [rewrite decide_False by (by intros ?) | rewrite decide_True by done].
Qed.

End SoundexFacts.

(** A code that is not empty has three or four characters. *)
Lemma soundex_length (name : string) :
  name ≠ "" → 3 ≤ String.length (soundex name) ≤ 4.
Proof.
  intros Hne.
  destruct (Text.upper (list_ascii_of_string name)) as [|first rest] eqn:Hu.
  - apply upper_nil in Hu. destruct name; [done | discriminate].
  - destruct (soundex_chars_cons _ _ _ Hu) as (cs & _ & Heq). unfold soundex.
    assert (∀ l, String.length (string_of_list_ascii l) = length l) as Hlen.
    { induction l as [|c l IH]; simpl; [done | by rewrite IH]. }
    rewrite Hlen, Heq, length_take, !length_app. case_decide; cbn [length]; lia.
Qed.

Lemma soundex_empty (name : string) : soundex name = "" ↔ name = "".
Proof.
  split; [|by intros ->]. intros He.
  destruct (decide (name = "")) as [|Hne]; [done|].
  apply soundex_length in Hne. rewrite He in Hne. simpl in Hne. lia.
Qed.

(** X3: the shape of a code.  For a name whose upper-case form starts
    with [first], the code is the first four characters of [first] (left
    out when it is the digit zero), the digits 1-6 of the letters that
    have one, and three zeros of padding.  So the code has three or four
    characters, and when [first] is not the digit zero it has four and
    starts with [first]. *)
Theorem soundex_shape (name : string) (first : ascii) (rest : list ascii) :
  Text.upper (list_ascii_of_string name) = first :: rest →
  ∃ cs, Forall (λ d, d ∈ code_digits) cs
    ∧ list_ascii_of_string (soundex name)
      = take 4 ((if decide (first = "0"%char) then [] else [first])
                ++ cs ++ ["0"; "0"; "0"]%char)
    ∧ 3 ≤ String.length (soundex name) ≤ 4
    ∧ (first ≠ "0"%char →
       String.length (soundex name) = 4
       ∧ list_ascii_of_string (soundex name)
         = first :: take 3 (cs ++ ["0"; "0"; "0"]%char)).
Proof.
  intros Hu. destruct (soundex_chars_cons _ _ _ Hu) as (cs & Hcs & Heq).
  exists cs. unfold soundex.
  rewrite list_ascii_of_string_of_list_ascii.
  assert (∀ l, String.length (string_of_list_ascii l) = length l) as Hlen.
  { induction l as [|c l IH]; simpl; [done | by rewrite IH]. }
  rewrite Hlen, Heq. split_and!; [done | done | | |].
  - rewrite length_take, !length_app. case_decide; cbn [length]; lia.
  - rewrite length_take, !length_app. case_decide; cbn [length]; lia.
  - intros Hz. rewrite decide_False by done. split; [|done].
    rewrite length_take, !length_app. cbn [length]. lia.
Qed.

(** The shape of the code of ["Robert"]. *)
Lemma soundex_shape_witness :
  ∃ cs, Forall (λ d, d ∈ code_digits) cs
    ∧ list_ascii_of_string (soundex "Robert")
      = take 4 ((if decide ("R"%char = "0"%char) then [] else ["R"%char])
                ++ cs ++ ["0"; "0"; "0"]%char)
    ∧ 3 ≤ String.length (soundex "Robert") ≤ 4
    ∧ ("R"%char ≠ "0"%char →
       String.length (soundex "Robert") = 4
       ∧ list_ascii_of_string (soundex "Robert")
         = "R"%char :: take 3 (cs ++ ["0"; "0"; "0"]%char)).
Proof.
  apply (soundex_shape "Robert" "R" ["O"; "B"; "E"; "R"; "T"]%char). reflexivity.
Defined.

(** X4: the code is empty for the empty name only. *)
Theorem soundex_empty_iff (name : string) :
  soundex name = "" ↔ name = "".
Proof.
  apply soundex_empty.
Qed.

(** X5: on the 8-bit range the code does not depend on the case of the
    letters.  A name whose characters are code points of U+0000..U+00FF
    other than the micro sign and y with diaeresis, and its lower-case
    form, have one code.  (The strings here are strings of that range;
    beyond it lower-casing can change the upper-case form of a name, as
    it does for U+0130.) *)
Theorem soundex_ignores_case (name : string) :
  forallb upper_in_range (list_ascii_of_string name) = true →
  soundex (string_of_list_ascii (Text.lower (list_ascii_of_string name)))
  = soundex name.
Proof.
  intros _. unfold soundex, soundex_chars.
  by rewrite list_ascii_of_string_of_list_ascii, upper_lower.
Qed.

(** ["McDonald"] and ["mcdonald"]. *)
Lemma soundex_ignores_case_witness :
  forallb upper_in_range (list_ascii_of_string "McDonald") = true
  ∧ soundex "mcdonald" = soundex "McDonald".
Proof.
  split; [reflexivity|]. exact (soundex_ignores_case "McDonald" eq_refl).
Defined.

(** X6: the normalised name is empty exactly when the name is missing or
    has no letter, digit or underscore at all. *)
Theorem normalize_name_empty_iff (raw : option string) :
  normalize_name raw = ""
  ↔ match raw with
    | None => True
    | Some s => Forall (λ c, Text.is_word c = false) (list_ascii_of_string s)
    end.
Proof.
  destruct raw as [s|]; [|done]. simpl.
  pose proof (normalize_name_chars_words (list_ascii_of_string s)) as Hw.
  split.
  - intros He.
    assert (normalize_name_chars (list_ascii_of_string s) = []) as Hn.
    { destruct (normalize_name_chars _); [done | discriminate]. }
    rewrite Hn in Hw. simpl in Hw. symmetry in Hw.
    apply fmap_nil_inv in Hw. apply Forall_forall. intros c Hc.
    destruct (Text.is_word c) eqn:E; [|done].
    assert (c ∈ filter (λ c, Text.is_word c = true) (list_ascii_of_string s)) as Hin
      by (by apply list_elem_of_filter).
    rewrite Hw in Hin. by apply elem_of_nil in Hin.
  - intros Hnw.
    rewrite (filter_none _ (list_ascii_of_string s)) in Hw.
    2:{ intros c Hc. rewrite Forall_forall in Hnw. rewrite (Hnw c Hc). done. }
    pose proof (normalize_name_chars_kept (list_ascii_of_string s)) as Hk.
    pose proof (normalize_name_chars_no_lead (list_ascii_of_string s)) as Hl.
    destruct (normalize_name_chars (list_ascii_of_string s)) as [|c t]; [done|].
    exfalso. apply Forall_cons in Hk as [[->|(_ & Hc & _)] _]; [done|].
    rewrite filter_cons, decide_True in Hw by done. discriminate.
Qed.


(* ===================================================================== *)
(** ** Further properties of the disjoint-set forest *)
(* ===================================================================== *)

Section MoreDSUFacts.
Import DSU DSUInv.

Lemma count_to_le f n r : count_to f n r ≤ n.
Proof.
  unfold count_to. etrans; [apply length_filter|]. by rewrite length_seq.
Qed.

Lemma find_refines d a :
  wf d → a < length (parent d) →
  ∃ d', find d a = Ret (d', repr d a) ∧ wf d'
        ∧ refines (parent d) (parent d') ∧ size d' = size d
        ∧ (∀ i, repr d' i = repr d i)
        ∧ length (parent d') = length (parent d).
Proof.
  intros Hwf Ha. pose proof Hwf as [Hlen Hf Hsz].
  destruct (forest_path _ a Hf Ha) as [k Hp].
  destruct (find_loop_path _ k a _ (S (length (parent d))) Hf Hp)
    as (p' & Hfind & Href); [apply path_bound in Hp; lia|].
  destruct (find_spec d a Hwf Ha) as (d' & Hfind' & Hwf' & Hr & L).
  unfold find in Hfind'. rewrite Hfind in Hfind'. simpl in Hfind'.
  injection Hfind' as <-.
  exists (mk p' (size d)). unfold find. rewrite Hfind. simpl.
  split_and!; done.
Qed.

Lemma shallow_refines d d' :
  wf d → refines (parent d) (parent d') → (∀ i, repr d' i = repr d i) →
  shallow d → shallow d'.
Proof.
  intros Hwf [L Href] Hr Hsh k a r Hp.
  assert (a < length (parent d)) as Ha by (apply path_lt in Hp; lia).
  destruct (wf_forest _ Hwf a Ha) as (k0 & r0 & Hp0).
  destruct (Href _ _ _ Hp0) as (k1 & Hk1 & Hp1).
  destruct (path_fun _ _ _ _ _ _ Hp Hp1) as [-> ->].
  rewrite L. rewrite (count_to_ext (repr d') (repr d)) by (intros; by rewrite Hr).
  etrans; [|apply (Hsh _ _ _ Hp0)]. by apply Nat.pow_le_mono_r.
Qed.

Lemma init_shallow n : shallow (init n).
Proof.
  intros k a r Hp. simpl in *.
  assert (a < n) as Ha by (apply path_lt in Hp; by rewrite length_seq in Hp).
  destruct (path_fun _ _ _ _ _ _ Hp (path_seq n a Ha)) as [-> ->].
  rewrite length_seq. simpl.
  pose proof (count_to_pos (repr (init n)) n a Ha) as Hpos.
  rewrite repr_init in Hpos. lia.
Qed.

Lemma link_shallow d ra rb sa sb :
  wf d → shallow d → ra ≠ rb →
  ra < length (parent d) → rb < length (parent d) →
  repr d ra = ra → repr d rb = rb →
  size d !! ra = Some sa → size d !! rb = Some sb → sb ≤ sa →
  shallow (mk (<[rb := ra]> (parent d)) (<[ra := sa + sb]> (size d))).
Proof.
  intros Hwf Hsh Hne Hra Hrb Ha Hb Hsa Hsb Hle.
  destruct (link_wf d ra rb sa sb Hwf Hne Hra Hrb Ha Hb Hsa Hsb) as [Hwf' Hrepr].
  pose proof (wf_forest _ Hwf) as Hf.
  rewrite (wf_size _ Hwf ra Hra Ha) in Hsa. injection Hsa as <-.
  rewrite (wf_size _ Hwf rb Hrb Hb) in Hsb. injection Hsb as <-.
  apply root_iff in Ha; [|done..]. apply root_iff in Hb; [|done..].
  intros k x r Hp. simpl in *. rewrite length_insert in *.
  assert (x < length (parent d)) as Hx
    by (apply path_lt in Hp; by rewrite length_insert in Hp).
  destruct (Hf x Hx) as (k0 & r0 & Hp0).
  pose proof (link_path _ ra rb _ _ _ Ha Hb Hne Hp0) as Hp1.
  destruct (path_fun _ _ _ _ _ _ Hp Hp1) as [-> ->].
  pose proof (Hsh _ _ _ Hp0) as Hk0.
  assert (∀ f', (∀ x, f' x = if decide (repr d x = rb) then ra else repr d x) →
            count_to f' (length (parent d)) ra
            = count_to (repr d) (length (parent d)) ra
              + count_to (repr d) (length (parent d)) rb) as Hsum.
  { intros f' Hf'. apply count_to_merge; [done|]. intros i _. rewrite Hf'.
    destruct (decide (repr d i = rb)); split; [by right | done | by left |].
    by intros [?|?]. }
  destruct (decide (r0 = rb)) as [->|Hr0].
  - rewrite (Hsum _ Hrepr). rewrite Nat.pow_succ_r'. lia.
  - destruct (decide (r0 = ra)) as [->|Hr0a].
    + rewrite (Hsum _ Hrepr). lia.
    + etrans; [exact Hk0|]. apply Nat.eq_le_incl, count_to_ext.
      intros i _. rewrite Hrepr.
      destruct (decide (repr d i = rb)); split; intros; congruence.
Qed.

(** [union] in full: what it returns, which root wins, and what it keeps. *)
Lemma union_detail d a b :
  wf d → a < length (parent d) → b < length (parent d) →
  ∃ d', union d a b = Ret d' ∧ wf d'
    ∧ length (parent d') = length (parent d)
    ∧ (∀ x, repr d' x
            = if decide (repr d x = repr d a ∨ repr d x = repr d b)
              then winner d a b else repr d x)
    ∧ size d' = (if decide (repr d a = repr d b) then size d
                 else <[winner d a b :=
                          count_to (repr d) (length (parent d)) (repr d a)
                          + count_to (repr d) (length (parent d)) (repr d b)]>
                        (size d))
    ∧ (shallow d → shallow d').
Proof.
  intros Hwf Ha Hb.
  destruct (find_refines d a Hwf Ha) as (d1 & Hf1 & Hwf1 & Rf1 & S1 & Hr1 & L1).
  destruct (find_refines d1 b Hwf1 ltac:(lia)) as (d2 & Hf2 & Hwf2 & Rf2 & S2 & Hr2 & L2).
  unfold union. rewrite Hf1. simpl. rewrite Hf2. simpl. rewrite Hr1.
  assert (∀ x, repr d2 x = repr d x) as Hr by (intros; by rewrite Hr2, Hr1).
  assert (length (parent d2) = length (parent d)) as L by lia.
  assert (size d2 = size d) as HS by congruence.
  assert (shallow d → shallow d2) as Hsh2.
  { intros Hsh. eapply (shallow_refines d1); [done..|].
    by eapply (shallow_refines d). }
  pose proof (wf_forest _ Hwf) as Hfo.
  set (n := length (parent d)) in *.
  set (ra := repr d a) in *. set (rb := repr d b) in *.
  assert (ra < n) as Hra by (by apply root_of_lt).
  assert (rb < n) as Hrb by (by apply root_of_lt).
  assert (repr d ra = ra) as Hia by (by apply root_of_idem).
  assert (repr d rb = rb) as Hib by (by apply root_of_idem).
  assert (size d2 !! ra = Some (count_to (repr d) n ra)) as Hsa.
  { rewrite HS. by apply (wf_size _ Hwf). }
  assert (size d2 !! rb = Some (count_to (repr d) n rb)) as Hsb.
  { rewrite HS. by apply (wf_size _ Hwf). }
  unfold winner. fold n ra rb.
  destruct (Nat.eqb_spec ra rb) as [E|Hne].
  { exists d2. split_and!; [done | done | done | | | done].
    - intros x. rewrite Hr. rewrite <- E.
      destruct (count_to (repr d) n ra <? count_to (repr d) n ra);
        case_decide as Hx; [|done| |done]; by destruct Hx.
    - by rewrite decide_True. }
  rewrite (decide_False (P := ra = rb)) by done.
  unfold get. rewrite Hsa, Hsb. simpl.
  destruct (Nat.ltb_spec (count_to (repr d) n ra) (count_to (repr d) n rb)) as [Hlt|Hge].
  - rewrite Hsb, Hsa. simpl. unfold put.
    destruct (Nat.ltb_spec ra (length (parent d2))); [|lia].
    destruct (Nat.ltb_spec rb (length (size d2)));
      [|rewrite (wf_len _ Hwf2) in *; lia]. simpl.
    assert (rb ≠ ra) as Hne' by congruence.
    destruct (link_wf d2 rb ra (count_to (repr d) n rb) (count_to (repr d) n ra)
                Hwf2 Hne') as [Hwf' Hrepr'];
      [lia | lia | by rewrite Hr | by rewrite Hr | done | done |].
    eexists. split; [done|]. split_and!; [done | simpl; by rewrite length_insert | | |].
    + intros x. rewrite Hrepr', !Hr.
      destruct (decide (repr d x = ra)) as [->|?].
      * by rewrite decide_True by (by left).
      * case_decide as Hx; [destruct Hx; [done|]; by subst|].
        destruct (decide (repr d x = rb)); [|done]. exfalso. apply Hx. by right.
    + simpl. rewrite HS. f_equal. lia.
    + intros Hsh.
      apply (link_shallow d2 rb ra _ _ Hwf2 (Hsh2 Hsh) Hne');
        [lia | lia | by rewrite Hr | by rewrite Hr | done | done | lia].
  - rewrite Hsa, Hsb. simpl. unfold put.
    destruct (Nat.ltb_spec rb (length (parent d2))); [|lia].
    destruct (Nat.ltb_spec ra (length (size d2)));
      [|rewrite (wf_len _ Hwf2) in *; lia]. simpl.
    destruct (link_wf d2 ra rb (count_to (repr d) n ra) (count_to (repr d) n rb)
                Hwf2 Hne) as [Hwf' Hrepr'];
      [lia | lia | by rewrite Hr | by rewrite Hr | done | done |].
    eexists. split; [done|]. split_and!; [done | simpl; by rewrite length_insert | | |].
    + intros x. rewrite Hrepr', !Hr.
      destruct (decide (repr d x = rb)) as [->|?].
      * by rewrite decide_True by (by right).
      * case_decide as Hx; [destruct Hx; [done|]; by subst|].
        destruct (decide (repr d x = ra)); [|done]. exfalso. apply Hx. by left.
    + simpl. by rewrite HS.
    + intros Hsh.
      apply (link_shallow d2 ra rb _ _ Hwf2 (Hsh2 Hsh) Hne);
        [lia | lia | by rewrite Hr | by rewrite Hr | done | done | lia].
Qed.

End MoreDSUFacts.

Section MoreDSURuns.
Import DSU DSUInv.

Lemma apply_shallow d o :
  wf d → shallow d → in_range (length (parent d)) o →
  ∃ d', apply d o = Ret d' ∧ wf d' ∧ shallow d'
        ∧ length (parent d') = length (parent d).
Proof.
  intros Hwf Hsh Ho. destruct o as [a | a b]; simpl in *.
  - destruct (find_refines d a Hwf Ho) as (d' & -> & ? & ? & ? & ? & ?). simpl.
    exists d'. split_and!; [done | done | | done]. by eapply (shallow_refines d).
  - destruct Ho as [Ha Hb].
    destruct (union_detail d a b Hwf Ha Hb) as (d' & ? & ? & ? & _ & _ & Hs).
    exists d'. split_and!; [done | done | by apply Hs | done].
Qed.

Lemma run_shallow ops d :
  wf d → shallow d → Forall (in_range (length (parent d))) ops →
  ∃ d', run ops d = Ret d' ∧ wf d' ∧ shallow d'
        ∧ length (parent d') = length (parent d).
Proof.
  revert d. induction ops as [|o ops IH]; intros d Hwf Hsh Hops.
  - exists d. done.
  - apply Forall_cons in Hops as [Ho Hops].
    destruct (apply_shallow d o Hwf Hsh Ho) as (d1 & Hap & Hwf1 & Hsh1 & L1).
    destruct (IH d1 Hwf1 Hsh1) as (d' & Hrun & Hwf' & Hsh' & L'); [by rewrite L1|].
    exists d'. unfold run in *. simpl. rewrite Hap. simpl.
    split_and!; [done | done | done | lia].
Qed.

Lemma reach n ops :
  Forall (in_range n) ops →
  ∃ d, run ops (init n) = Ret d ∧ wf d ∧ shallow d ∧ length (parent d) = n.
Proof.
  intros Hops.
  assert (length (parent (init n)) = n) as L0 by apply length_seq.
  destruct (run_shallow ops (init n) (init_wf n) (init_shallow n)) as (d & ? & ? & ? & L);
    [by rewrite L0|].
  exists d. split_and!; [done..|]. lia.
Qed.

Lemma winner_cases d a b :
  winner d a b = repr d a ∨ winner d a b = repr d b.
Proof. unfold winner. cbv zeta. destruct (_ <? _); auto. Qed.

End MoreDSURuns.

(** X7: union-find is correct.  After any run of [union] and [find]
    calls from [DSU(n)], [find] gives two indices the same root exactly
    when the unions of the run connect them, directly or through other
    indices. *)
Theorem union_find_correct (n : nat) (ops : list DSUInv.op) :
  Forall (DSUInv.in_range n) ops →
  ∃ d, DSUInv.run ops (DSU.init n) = Ret d
     ∧ ∀ i j, i < n → j < n →
         ((∃ di dj r, DSU.find d i = Ret (di, r) ∧ DSU.find d j = Ret (dj, r))
          ↔ conn (edges ops) i j).
Proof.
  intros Hops. destruct (run_conn n ops Hops) as (d & Hrun & Hwf & L & Hconn).
  exists d. split; [done|]. intros i j Hi Hj.
  destruct (find_spec d i Hwf ltac:(lia)) as (di & Hfi & _).
  destruct (find_spec d j Hwf ltac:(lia)) as (dj & Hfj & _).
  rewrite <- Hconn. split.
  - intros (di' & dj' & r & Hi' & Hj'). congruence.
  - intros E. exists di, dj, (DSUInv.repr d i). split; [done|]. by rewrite E.
Qed.

(** Four unions over six nodes. *)
Lemma union_find_correct_witness :
  let ops := [DSUInv.Union 0 1; DSUInv.Union 4 5; DSUInv.Find 1; DSUInv.Union 1 4] in
  ∃ d, DSUInv.run ops (DSU.init 6) = Ret d
     ∧ ∀ i j, i < 6 → j < 6 →
         ((∃ di dj r, DSU.find d i = Ret (di, r) ∧ DSU.find d j = Ret (dj, r))
          ↔ conn (edges ops) i j).
Proof.
  intros ops. apply (union_find_correct 6 ops). repeat constructor; simpl; lia.
Defined.

(** X8: [find] changes no set.  On a forest reached from [DSU(n)],
    [find(a)] returns a root; the sizes are as before, no index is
    farther from its root than before, and every index has the root
    afterwards that it had before. *)
Theorem find_keeps_sets (n : nat) (ops : list DSUInv.op) (a : nat) :
  Forall (DSUInv.in_range n) ops → a < n →
  ∃ d d' r, DSUInv.run ops (DSU.init n) = Ret d
    ∧ DSU.find d a = Ret (d', r)
    ∧ DSU.parent d' !! r = Some r
    ∧ DSU.size d' = DSU.size d
    ∧ length (DSU.parent d') = n
    ∧ (∀ k i ri, path (DSU.parent d) k i ri →
         ∃ k', k' ≤ k ∧ path (DSU.parent d') k' i ri)
    ∧ (∀ i ri, i < n →
         ((∃ x, DSU.find d i = Ret (x, ri)) ↔ (∃ x, DSU.find d' i = Ret (x, ri)))).
Proof.
  intros Hops Ha. destruct (reach n ops Hops) as (d & Hrun & Hwf & _ & L).
  destruct (find_refines d a Hwf ltac:(lia)) as (d' & Hf & Hwf' & [L' Href] & HS & Hr & _).
  exists d, d', (DSUInv.repr d a).
  split_and!; [done | done | | done | lia | done |].
  - rewrite <- (Hr a).
    apply root_iff; [apply Hwf' | | apply root_of_idem, Hwf'].
    apply root_of_lt; [apply Hwf' | lia].
  - intros i ri Hi.
    destruct (find_spec d i Hwf ltac:(lia)) as (x & Hx & _).
    destruct (find_spec d' i Hwf' ltac:(lia)) as (x' & Hx' & _).
    rewrite Hr in Hx'. split; intros [y Hy].
    + exists x'. congruence.
    + exists x. congruence.
Qed.

(** [find(3)] after three unions over four nodes. *)
Lemma find_keeps_sets_witness :
  let ops := [DSUInv.Union 0 1; DSUInv.Union 2 3; DSUInv.Union 1 3] in
  ∃ d d' r, DSUInv.run ops (DSU.init 4) = Ret d
    ∧ DSU.find d 3 = Ret (d', r)
    ∧ DSU.parent d' !! r = Some r
    ∧ DSU.size d' = DSU.size d
    ∧ length (DSU.parent d') = 4
    ∧ (∀ k i ri, path (DSU.parent d) k i ri →
         ∃ k', k' ≤ k ∧ path (DSU.parent d') k' i ri)
    ∧ (∀ i ri, i < 4 →
         ((∃ x, DSU.find d i = Ret (x, ri)) ↔ (∃ x, DSU.find d' i = Ret (x, ri)))).
Proof.
  intros ops. apply (find_keeps_sets 4 ops 3); [|lia].
  repeat constructor; simpl; lia.
Defined.

(** X9: [union] merges two sets and nothing else, by size.  On a forest
    reached from [DSU(n)], [union(a, b)] sends the indices of the sets of
    [a] and [b] to one root, the root of the larger of the two sets (the
    root of [a] when they have one size), and leaves the root of every
    other index alone; the size recorded at that root becomes the sum of
    the two sizes; and when [a] and [b] are in one set already, no root
    and no size changes. *)
Theorem union_by_size (n : nat) (ops : list DSUInv.op) (a b : nat) :
  Forall (DSUInv.in_range n) ops → a < n → b < n →
  ∃ d d', DSUInv.run ops (DSU.init n) = Ret d
    ∧ DSU.union d a b = Ret d'
    ∧ (∀ x, DSUInv.repr d' x
            = if decide (DSUInv.repr d x = DSUInv.repr d a
                         ∨ DSUInv.repr d x = DSUInv.repr d b)
              then winner d a b else DSUInv.repr d x)
    ∧ DSU.size d'
      = (if decide (DSUInv.repr d a = DSUInv.repr d b) then DSU.size d
         else <[winner d a b :=
                  count_to (DSUInv.repr d) n (DSUInv.repr d a)
                  + count_to (DSUInv.repr d) n (DSUInv.repr d b)]> (DSU.size d))
    ∧ DSU.parent d' !! winner d a b = Some (winner d a b)
    ∧ (∀ x, x < n → ∃ dx, DSU.find d' x = Ret (dx, DSUInv.repr d' x)).
Proof.
  intros Hops Ha Hb. destruct (reach n ops Hops) as (d & Hrun & Hwf & _ & L).
  destruct (union_detail d a b Hwf ltac:(lia) ltac:(lia))
    as (d' & Hu & Hwf' & L' & Hr & HS & _).
  exists d, d'. rewrite L in HS.
  split_and!; [done | done | done | done | |].
  - assert (winner d a b < length (DSU.parent d')) as Hw.
    { rewrite L'. destruct (winner_cases d a b) as [->| ->];
        apply root_of_lt; (apply Hwf || lia). }
    apply root_iff; [apply Hwf' | done |].
    change (DSUInv.repr d' (winner d a b) = winner d a b). rewrite Hr.
    assert (DSUInv.repr d (winner d a b) = winner d a b) as Hid.
    { destruct (winner_cases d a b) as [->| ->]; apply root_of_idem, Hwf. }
    rewrite Hid. by destruct (decide (_ ∨ _)).
  - intros x Hx. destruct (find_spec d' x Hwf' ltac:(lia)) as (dx & Hf & _). eauto.
Qed.

(** A [union] of a set of two with a set of three. *)
Lemma union_by_size_witness :
  let ops := [DSUInv.Union 0 1; DSUInv.Union 2 3; DSUInv.Union 3 4] in
  ∃ d d', DSUInv.run ops (DSU.init 5) = Ret d
    ∧ DSU.union d 1 4 = Ret d'
    ∧ winner d 1 4 = 2
    ∧ (∀ x, DSUInv.repr d' x
            = if decide (DSUInv.repr d x = DSUInv.repr d 1
                         ∨ DSUInv.repr d x = DSUInv.repr d 4)
              then winner d 1 4 else DSUInv.repr d x)
    ∧ DSU.size d' !! 2 = Some 5.
Proof.
  intros ops.
  destruct (union_by_size 5 ops 1 4) as (d & d' & Hrun & Hu & Hr & HS & _);
    [repeat constructor; simpl; lia | lia | lia |].
  exists d, d'. vm_compute in Hrun. injection Hrun as <-.
  vm_compute in Hu. injection Hu as <-.
  split_and!; [reflexivity | reflexivity | reflexivity | exact Hr | reflexivity].
Defined.

(** X10: union by size keeps the trees shallow.  After any run from
    [DSU(n)], an index that is [k] parent links below its root is in a set
    of at least [2 ^ k] indices, so [2 ^ k] is at most [n]; and the loop
    of [find] ends on every index as soon as it is given more turns than
    the binary logarithm of [n]. *)
Theorem trees_stay_shallow (n : nat) (ops : list DSUInv.op) :
  Forall (DSUInv.in_range n) ops →
  ∃ d, DSUInv.run ops (DSU.init n) = Ret d
    ∧ (∀ k a r, path (DSU.parent d) k a r →
         2 ^ k ≤ count_to (DSUInv.repr d) n r ∧ 2 ^ k ≤ n)
    ∧ (∀ a fuel, a < n → n < 2 ^ fuel →
         ∃ p' r, DSU.find_loop fuel (DSU.parent d) a = Ret (p', r)).
Proof.
  intros Hops. destruct (reach n ops Hops) as (d & Hrun & Hwf & Hsh & L).
  exists d. split; [done|].
  assert (∀ k a r, path (DSU.parent d) k a r →
            2 ^ k ≤ count_to (DSUInv.repr d) n r ∧ 2 ^ k ≤ n) as Hbound.
  { intros k a r Hp. pose proof (Hsh _ _ _ Hp) as Hk. rewrite L in Hk.
    split; [done|]. etrans; [exact Hk | apply count_to_le]. }
  split; [done|]. intros a fuel Ha Hfuel.
  destruct (forest_path _ a (DSUInv.wf_forest _ Hwf) ltac:(lia)) as [k Hp].
  destruct (Hbound _ _ _ Hp) as [_ Hk].
  destruct (find_loop_path _ k a _ fuel (DSUInv.wf_forest _ Hwf) Hp) as (p' & ? & _);
    [|eauto].
  apply (Nat.pow_lt_mono_r_iff 2); lia.
Qed.

(** Seven unions over eight nodes. *)
Lemma trees_stay_shallow_witness :
  let ops := [DSUInv.Union 0 1; DSUInv.Union 2 3; DSUInv.Union 4 5;
              DSUInv.Union 6 7; DSUInv.Union 1 3; DSUInv.Union 5 7;
              DSUInv.Union 3 7] in
  ∃ d, DSUInv.run ops (DSU.init 8) = Ret d
    ∧ (∀ k a r, path (DSU.parent d) k a r →
         2 ^ k ≤ count_to (DSUInv.repr d) 8 r ∧ 2 ^ k ≤ 8)
    ∧ (∀ a fuel, a < 8 → 8 < 2 ^ fuel →
         ∃ p' r, DSU.find_loop fuel (DSU.parent d) a = Ret (p', r)).
Proof.
  intros ops. apply (trees_stay_shallow 8 ops). repeat constructor; simpl; lia.
Defined.

Section IndexFacts.
Import DSU DSUInv.

Lemma position_nat n a :
  DSUAt.position n (Z.of_nat a) = if decide (a < n) then Ret a else Raise IndexError.
Proof.
  unfold DSUAt.position. destruct (decide (a < n)).
  - rewrite decide_True by lia. by rewrite Nat2Z.id.
  - rewrite decide_False by lia. by rewrite decide_False by lia.
Qed.

Lemma get_at_nat l a : DSUAt.get_at l (Z.of_nat a) = get l a.
Proof.
  unfold DSUAt.get_at. rewrite position_nat. case_decide; [done|].
  simpl. unfold get. by rewrite lookup_ge_None_2 by lia.
Qed.

Lemma put_at_nat l a x : DSUAt.put_at l (Z.of_nat a) x = put l a x.
Proof.
  unfold DSUAt.put_at. rewrite position_nat. case_decide; [done|].
  simpl. unfold put. by rewrite (proj2 (Nat.ltb_ge a (length l))) by lia.
Qed.

(** On a natural index the two loops are one. *)
Lemma find_loop_nat fuel p a :
  DSUAt.find_loop fuel p (Z.of_nat a) = find_loop fuel p a.
Proof.
  revert p a. induction fuel as [|fuel IH]; intros p a; [done|].
  cbn [DSUAt.find_loop find_loop]. rewrite get_at_nat.
  destruct (get p a) as [pa| |]; [|done..]. cbn [bind].
  destruct (Nat.eqb_spec pa a) as [->|Hne].
  - by rewrite Z.eqb_refl.
  - rewrite (proj2 (Z.eqb_neq _ _)) by lia.
    destruct (get p pa) as [g| |]; [|done..]. cbn [bind].
    rewrite put_at_nat. destruct (put p a g) as [p1| |]; [|done..]. cbn [bind].
    rewrite get_at_nat. destruct (get p1 a) as [a1| |]; [|done..]. cbn [bind].
    apply IH.
Qed.

Lemma position_neg n a :
  (- Z.of_nat n ≤ a < 0)%Z →
  DSUAt.position n a = Ret (Z.to_nat (Z.of_nat n + a)).
Proof.
  intros Ha. unfold DSUAt.position.
  rewrite decide_False by lia. by rewrite decide_True by lia.
Qed.

Lemma position_out n a :
  (a < - Z.of_nat n ∨ Z.of_nat n ≤ a)%Z → DSUAt.position n a = Raise IndexError.
Proof.
  intros Ha. unfold DSUAt.position.
  rewrite decide_False by lia. by rewrite decide_False by lia.
Qed.

(** A negative index within the list is the position it counts to:
    the first turn of the loop has the same effect from both. *)
Lemma find_loop_neg fuel p a :
  (- Z.of_nat (length p) ≤ a < 0)%Z →
  DSUAt.find_loop (S (S fuel)) p a
  = find_loop (S (S fuel)) p (Z.to_nat (Z.of_nat (length p) + a)).
Proof.
  intros Ha. set (i := Z.to_nat (Z.of_nat (length p) + a)).
  assert (i < length p) as Hi by (unfold i; lia).
  destruct (lookup_lt_is_Some_2 p i Hi) as [pa Hpa].
  assert (DSUAt.get_at p a = Ret pa) as Hget.
  { unfold DSUAt.get_at. rewrite position_neg by done. simpl.
    fold i. unfold get. by rewrite Hpa. }
  assert (∀ p1 x, length p1 = length p → DSUAt.put_at p1 a x = put p1 i x) as Hput.
  { intros p1 x L. unfold DSUAt.put_at. rewrite L, position_neg by done. done. }
  assert (∀ p1, length p1 = length p → DSUAt.get_at p1 a = get p1 i) as Hget'.
  { intros p1 L. unfold DSUAt.get_at. rewrite L, position_neg by done. done. }
  change (DSUAt.find_loop (S (S fuel)) p a)
    with (let* pa := DSUAt.get_at p a in
          if (Z.of_nat pa =? a)%Z then Ret (p, pa)
          else
            let* g := get p pa in
            let* p := DSUAt.put_at p a g in
            let* a := DSUAt.get_at p a in
            DSUAt.find_loop (S fuel) p (Z.of_nat a)).
  change (find_loop (S (S fuel)) p i)
    with (let* pa := get p i in
          if pa =? i then Ret (p, i)
          else
            let* g := get p pa in
            let* p := put p i g in
            let* a := get p i in
            find_loop (S fuel) p a).
  assert (get p i = Ret pa) as Hgi by (unfold get; by rewrite Hpa).
  rewrite Hget, Hgi. cbn [bind].
  rewrite (proj2 (Z.eqb_neq _ _)) by lia.
  assert (∀ x, put p i x = Ret (<[i:=x]> p)) as Hpi.
  { intros x. unfold put. by rewrite (proj2 (Nat.ltb_lt _ _) Hi). }
  destruct (Nat.eqb_spec pa i) as [->|Hne].
  - rewrite Hgi. cbn [bind]. rewrite Hput, Hpi by done. cbn [bind].
    rewrite list_insert_id by done. rewrite Hget', Hgi by done. cbn [bind].
    rewrite find_loop_nat. cbn [find_loop]. rewrite Hgi. cbn [bind].
    by rewrite Nat.eqb_refl.
  - destruct (get p pa) as [g| |]; [|done..]. cbn [bind].
    rewrite Hput, Hpi by done. cbn [bind].
    rewrite Hget' by (by rewrite length_insert).
    destruct (get (<[i:=g]> p) i) as [a1| |]; [|done..]. cbn [bind].
    apply find_loop_nat.
Qed.

Lemma find_loop_at_out fuel p a :
  (a < - Z.of_nat (length p) ∨ Z.of_nat (length p) ≤ a)%Z →
  DSUAt.find_loop (S fuel) p a = Raise IndexError.
Proof.
  intros Ha. cbn [DSUAt.find_loop]. unfold DSUAt.get_at.
  by rewrite position_out.
Qed.

(** [find] on an index within the list. *)
Lemma find_at_in d a :
  (- Z.of_nat (length (parent d)) ≤ a < Z.of_nat (length (parent d)))%Z →
  DSUAt.find d a = find d (Z.to_nat (a `mod` Z.of_nat (length (parent d)))).
Proof.
  intros Ha. unfold DSUAt.find, find.
  destruct (decide (0 ≤ a)%Z) as [Hp|Hn].
  - rewrite Z.mod_small by lia.
    rewrite <- (Z2Nat.id a) at 1 by done. by rewrite find_loop_nat.
  - destruct (length (parent d)) as [|m] eqn:E; [lia|].
    replace (a `mod` Z.of_nat (S m))%Z with (Z.of_nat (S m) + a)%Z.
    + rewrite (find_loop_neg m (parent d) a) by (rewrite E; lia). by rewrite E.
    + apply (Z.mod_unique _ _ (-1)); lia.
Qed.

Lemma find_at_out d a :
  (a < - Z.of_nat (length (parent d)) ∨ Z.of_nat (length (parent d)) ≤ a)%Z →
  DSUAt.find d a = Raise IndexError.
Proof. intros Ha. unfold DSUAt.find. by rewrite find_loop_at_out. Qed.

Lemma mod_in_range n a :
  (- Z.of_nat n ≤ a < Z.of_nat n)%Z → Z.to_nat (a `mod` Z.of_nat n) < n.
Proof. intros Ha. pose proof (Z.mod_pos_bound a (Z.of_nat n)). lia. Qed.

End IndexFacts.

(** X11: the index bounds of [find] and [union].  On a forest reached
    from [DSU(n)], [n] zero or not, the two arrays have the length [n];
    [find] and [union] take an index [a] with [-n <= a < n] the way a
    Python list does, a negative one counting from the end, so they do
    what they do on the natural index [a mod n]; and on every other index
    [find] raises [IndexError], and so does [union] as soon as one of its
    two indices is such. *)
Theorem index_out_of_range (n : nat) (ops : list DSUInv.op) :
  Forall (DSUInv.in_range n) ops →
  ∃ d, DSUInv.run ops (DSU.init n) = Ret d
    ∧ length (DSU.parent d) = n ∧ length (DSU.size d) = n
    ∧ (∀ a b : Z,
         (- Z.of_nat n ≤ a < Z.of_nat n)%Z → (- Z.of_nat n ≤ b < Z.of_nat n)%Z →
         DSUAt.find d a = DSU.find d (Z.to_nat (a `mod` Z.of_nat n))
         ∧ DSUAt.union d a b
           = DSU.union d (Z.to_nat (a `mod` Z.of_nat n))
                         (Z.to_nat (b `mod` Z.of_nat n)))
    ∧ (∀ a b : Z,
         (a < - Z.of_nat n ∨ Z.of_nat n ≤ a)%Z →
         DSUAt.find d a = Raise IndexError
         ∧ DSUAt.union d a b = Raise IndexError
         ∧ DSUAt.union d b a = Raise IndexError).
Proof.
  intros Hops. destruct (reach n ops Hops) as (d & Hrun & Hwf & _ & L).
  exists d. split_and!; [done | done | by rewrite (DSUInv.wf_len _ Hwf) | |].
  - intros a b Ha Hb. rewrite <- L in *. split; [by apply find_at_in|].
    unfold DSUAt.union, DSU.union. rewrite (find_at_in d a Ha).
    destruct (find_spec d _ Hwf (mod_in_range _ a Ha)) as (d1 & -> & _ & _ & L1).
    cbn [bind]. rewrite (find_at_in d1 b) by (by rewrite L1). by rewrite L1.
  - intros a b Ha. rewrite <- L in *.
    split_and!.
    + by apply find_at_out.
    + unfold DSUAt.union. by rewrite find_at_out.
    + unfold DSUAt.union.
      destruct (decide (- Z.of_nat (length (DSU.parent d)) ≤ b
                        < Z.of_nat (length (DSU.parent d)))%Z) as [Hb|Hb].
      * rewrite (find_at_in d b Hb).
        destruct (find_spec d _ Hwf (mod_in_range _ b Hb)) as (d1 & -> & _ & _ & L1).
        cbn [bind]. by rewrite find_at_out by (by rewrite L1).
      * rewrite find_at_out; [done | lia].
Qed.

(** A forest of three nodes: the index -1 is the node 2, the indices 3
    and -4 lie outside. *)
Lemma index_out_of_range_witness :
  let ops := [DSUInv.Union 0 1] in
  Forall (DSUInv.in_range 3) ops
  ∧ ∃ d, DSUInv.run ops (DSU.init 3) = Ret d
    ∧ length (DSU.parent d) = 3 ∧ length (DSU.size d) = 3
    ∧ (∀ a b : Z,
         (- 3 ≤ a < 3)%Z → (- 3 ≤ b < 3)%Z →
         DSUAt.find d a = DSU.find d (Z.to_nat (a `mod` 3))
         ∧ DSUAt.union d a b
           = DSU.union d (Z.to_nat (a `mod` 3)) (Z.to_nat (b `mod` 3)))
    ∧ (∀ a b : Z,
         (a < - 3 ∨ 3 ≤ a)%Z →
         DSUAt.find d a = Raise IndexError
         ∧ DSUAt.union d a b = Raise IndexError
         ∧ DSUAt.union d b a = Raise IndexError).
Proof.
  intros ops.
  assert (Forall (DSUInv.in_range 3) ops) as H
    by (repeat constructor; simpl; lia).
  split; [exact H | exact (index_out_of_range 3 ops H)].
Defined.

(** The empty forest, and the indices -1, -3, -4 and 3 on three nodes. *)
Example index_samples :
  DSU.find (DSU.init 0) 0 = Raise IndexError
  ∧ DSUAt.find (DSU.init 0) (-1) = Raise IndexError
  ∧ DSUAt.find (DSU.init 3) (-1) = Ret (DSU.init 3, 2)
  ∧ DSUAt.find (DSU.init 3) (-3) = Ret (DSU.init 3, 0)
  ∧ DSUAt.find (DSU.init 3) (-4) = Raise IndexError
  ∧ DSUAt.find (DSU.init 3) 3 = Raise IndexError
  ∧ DSUAt.union (DSU.init 3) (-1) 0 = Ret (DSU.mk [2; 1; 2] [1; 1; 2]).
Proof. split_and!; reflexivity. Qed.

(* ===================================================================== *)
(** ** Further properties of the blocking index and of the unions *)
(* ===================================================================== *)

Section MoreBlockFacts.
Context {Timestamp : Type} (isoformat : Timestamp → string)
        (partial_ratio : string → string → Q).

Implicit Types (df : list (row Timestamp)).

Lemma filter_seq_sorted (P : nat → Prop) `{∀ x, Decision (P x)} s n :
  StronglySorted lt (filter P (seq s n)).
Proof.
  revert s. induction n as [|n IH]; intros s; simpl; [constructor|].
  rewrite filter_cons. case_decide; [|apply IH].
  constructor; [apply IH|]. apply Forall_forall.
  intros x [_ Hx%elem_of_seq]%list_elem_of_filter. lia.
Qed.

Lemma blocks_nonempty df k l :
  (k, l) ∈ build_blocks isoformat df → l ≠ [].
Proof.
  revert k l. induction df as [|r df IH] using rev_ind; intros k l Hin.
  - by apply elem_of_nil in Hin.
  - rewrite build_blocks_snoc in Hin.
    apply blocks_append_elem in Hin; [|apply (build_blocks_inv isoformat df)].
    destruct Hin as [[_ Hin] | [-> [(l0 & _ & ->) | [_ ->]]]]; [by eapply IH | |done].
    by destruct l0.
Qed.

Lemma same_key_block df i j :
  same_key isoformat df i j
  ↔ ∃ k l, (k, l) ∈ build_blocks isoformat df ∧ i ∈ l ∧ j ∈ l.
Proof.
  split.
  - intros (k & Hi & Hj). unfold key_at in Hi, Hj.
    destruct (df !! i) as [ri|] eqn:Ei; [|done].
    destruct (df !! j) as [rj|] eqn:Ej; [|done].
    simpl in Hi, Hj. injection Hi as Hi. injection Hj as Hj.
    destruct (blocks_find isoformat df i ri Ei) as (l & Hl & Hil).
    destruct (blocks_find isoformat df j rj Ej) as (l' & Hl' & Hjl).
    rewrite Hi in Hl. rewrite Hj in Hl'.
    rewrite <- (blocks_same_key isoformat df _ _ _ Hl Hl') in Hjl. eauto.
  - intros (k & l & Hl & Hi & Hj). exists k.
    split; by eapply blocks_member_key.
Qed.

Lemma member_pairs_sorted sim (name : nat → string) (l : list nat) a b :
  StronglySorted lt l →
  (a, b) ∈ member_pairs sim ((λ i, (i, name i)) <$> l) →
  a ∈ l ∧ b ∈ l ∧ a < b ∧ sim (name a) (name b) = true.
Proof.
  induction 1 as [|x l Hs IH Hx]; csimpl; [by intros ?%elem_of_nil|].
  intros [Hin|Hin]%elem_of_app.
  - apply list_elem_of_fmap in Hin as ([y ny] & [= -> ->] & Hy).
    apply list_elem_of_filter in Hy as [Hsim Hy].
    apply list_elem_of_fmap in Hy as (y' & [= -> ->] & Hy'). simpl in Hsim.
    rewrite Forall_forall in Hx.
    split_and!; [by left | by right | by apply Hx | done].
  - destruct (IH Hin) as (? & ? & ? & ?). split_and!; [by right | by right | done..].
Qed.

(** The pairs that are unioned: the pairs [a < b] of rows with one key
    whose names score the threshold or more. *)
Lemma link_pairs_iff df a b :
  (a, b) ∈ link_pairs isoformat partial_ratio df
  ↔ a < b ∧ same_key isoformat df a b
    ∧ similar partial_ratio (name_of df a) (name_of df b) = true.
Proof.
  split.
  - unfold link_pairs. intros (ps & Hps & Hab)%elem_of_concat.
    apply list_elem_of_fmap in Hps as ([k l] & -> & Hblk). simpl in Hab.
    unfold block_pairs in Hab.
    apply member_pairs_sorted in Hab as (Ha & Hb & Hlt & Hsim).
    + split_and!; [done | | done]. apply same_key_block. eauto.
    + rewrite (blocks_member_list isoformat df k l Hblk). apply filter_seq_sorted.
  - intros (Hlt & (k & Ka & Kb) & Hsim).
    pose proof Ka as Ka'. pose proof Kb as Kb'. unfold key_at in Ka', Kb'.
    destruct (df !! a) as [ra|] eqn:Ea; [|done].
    destruct (df !! b) as [rb|] eqn:Eb; [|done].
    destruct (proj1 (same_key_block df a b)) as (k' & l & Hl & Hal & Hbl);
      [by exists k|].
    unfold name_of in Hsim. rewrite Ea, Eb in Hsim. simpl in Hsim.
    by eapply (same_block_linked isoformat partial_ratio df k' l a b ra rb).
Qed.

Lemma conn_same_key df i j :
  conn (link_pairs isoformat partial_ratio df) i j →
  key_at isoformat df i = key_at isoformat df j.
Proof.
  induction 1 as [| a b Hab | |]; [done | | done | congruence].
  apply link_pairs_iff in Hab as (_ & (k & -> & ->) & _). done.
Qed.

(** Two distinct indices that are connected are both touched by a pair. *)
Lemma conn_touched (E : list (nat * nat)) i j :
  conn E i j → i ≠ j →
  (∃ x, (i, x) ∈ E ∨ (x, i) ∈ E) ∧ (∃ x, (j, x) ∈ E ∨ (x, j) ∈ E).
Proof.
  induction 1 as [i | a b Hab | i j _ IH | i j k _ IH1 _ IH2]; intros Hne.
  - done.
  - split; [exists b; by left | exists a; by right].
  - destruct IH as [? ?]; [done | by split].
  - destruct (decide (i = j)) as [->|Hij]; [by apply IH2|].
    destruct (decide (j = k)) as [->|Hjk]; [by apply IH1|].
    destruct (IH1 Hij) as [? _]. destruct (IH2 Hjk) as [_ ?]. by split.
Qed.

End MoreBlockFacts.

Section MoreClusterFacts.

Lemma class_other f n i :
  i < n → 1 < count_to f n (f i) → ∃ j, j < n ∧ j ≠ i ∧ f j = f i.
Proof.
  intros Hi Hc. unfold count_to in Hc.
  assert (NoDup (filter (λ j, f j = f i) (seq 0 n))) as Hnd
    by apply NoDup_filter, NoDup_seq.
  destruct (filter (λ j, f j = f i) (seq 0 n)) as [|x [|y l]] eqn:E;
    [simpl in Hc; lia | simpl in Hc; lia |].
  assert (∀ z, z ∈ x :: y :: l → z < n ∧ f z = f i) as Hin.
  { intros z Hz. rewrite <- E in Hz.
    apply list_elem_of_filter in Hz as [? ?%elem_of_seq]. split; [lia | done]. }
  apply NoDup_cons in Hnd as [Hxy _].
  destruct (decide (x = i)) as [->|Hx].
  - exists y. destruct (Hin y) as [? ?]; [right; by left|].
    split_and!; [done | | done]. intros ->. apply Hxy. by left.
  - exists x. destruct (Hin x) as [? ?]; [by left|]. done.
Qed.

Lemma expected_id_inj f n i j :
  i < n → j < n → expected_id f n i = expected_id f n j →
  (0 ≤ expected_id f n i)%Z → f i = f j.
Proof.
  intros Hi Hj Heq Hpos.
  destruct (expected_id_cases f n i Hi) as [[_ ?]|[Hci _]]; [lia|].
  destruct (expected_id_cases f n j Hj) as [[_ ?]|[Hcj _]]; [lia|].
  unfold expected_id in Heq. rewrite !decide_True in Heq by done.
  apply Nat2Z.inj in Heq.
  pose proof (head_of_is_head f n i Hci) as Hhi.
  pose proof (head_of_is_head f n j Hcj) as Hhj.
  destruct (head_of_spec f i) as (_ & Hfi & _).
  destruct (head_of_spec f j) as (_ & Hfj & _).
  destruct (Nat.lt_trichotomy (head_of f i) (head_of f j)) as [H|[H|H]].
  - pose proof (heads_before_lt f n _ _ Hhi H). lia.
  - congruence.
  - pose proof (heads_before_lt f n _ _ Hhj H). lia.
Qed.

End MoreClusterFacts.

(** X12: a block is the ascending list of the rows with its key.  Every
    member list of the index is non-empty and strictly ascending and holds
    exactly the indices of the rows whose key is the key of the block; so
    two rows are in one block exactly when their keys (date or missing
    date, gender, first two characters of the code) are equal. *)
Theorem blocks_by_key {Timestamp : Type} (isoformat : Timestamp → string)
    (df : list (row Timestamp)) :
  (∀ k l, (k, l) ∈ build_blocks isoformat df →
     l ≠ [] ∧ StronglySorted lt l
     ∧ ∀ i, i ∈ l ↔ key_at isoformat df i = Some k)
  ∧ ∀ i j, same_key isoformat df i j
           ↔ ∃ k l, (k, l) ∈ build_blocks isoformat df ∧ i ∈ l ∧ j ∈ l.
Proof.
  split; [|apply same_key_block].
  intros k l Hin. split_and!.
  - by eapply blocks_nonempty.
  - rewrite (blocks_member_list isoformat df k l Hin). apply filter_seq_sorted.
  - intros i. rewrite (blocks_member_list isoformat df k l Hin) at 1.
    rewrite list_elem_of_filter, elem_of_seq. split; [tauto|].
    intros Hk. split; [done|]. unfold key_at in Hk.
    destruct (df !! i) eqn:E; [|done]. apply lookup_lt_Some in E. lia.
Qed.

(** X13: which pairs are unioned.  The forest of [detect_duplicates] is
    the one left by [union(a, b)] on the pairs [a < b] of rows that have
    one blocking key and whose names score the threshold or more, and on
    no other pair. *)
Theorem unioned_pairs {Timestamp : Type} (isoformat : Timestamp → string)
    (partial_ratio : string → string → Q) (df : list (row Timestamp)) :
  link isoformat partial_ratio df
  = DSUInv.run (unions (link_pairs isoformat partial_ratio df))
      (DSU.init (length df))
  ∧ ∀ a b, (a, b) ∈ link_pairs isoformat partial_ratio df
           ↔ a < b ∧ same_key isoformat df a b
             ∧ similar partial_ratio (name_of df a) (name_of df b) = true.
Proof. split; [apply link_run | apply link_pairs_iff]. Qed.

(** X14: the identifiers tell the sets apart.  Two different records
    carry one identifier that is not negative exactly when the unioned
    pairs connect them, directly or through other records. *)
Theorem cluster_ids_identify_sets {Timestamp : Type}
    (isoformat : Timestamp → string) (partial_ratio : string → string → Q)
    (df : list (row Timestamp)) :
  ∃ ids, detect_duplicates isoformat partial_ratio df = Ret (Some <$> ids)
    ∧ ∀ i j, i < length df → j < length df → i ≠ j →
        ((∃ c, (0 ≤ c)%Z ∧ ids !! i = Some c ∧ ids !! j = Some c)
         ↔ conn (link_pairs isoformat partial_ratio df) i j).
Proof.
  destruct (detect_duplicates_spec isoformat partial_ratio df)
    as (d & _ & _ & _ & Hconn & Hdet).
  eexists. split; [exact Hdet|]. intros i j Hi Hj Hne.
  rewrite !list_lookup_fmap, !lookup_seq_lt by done. simpl.
  rewrite <- Hconn. split.
  - intros (c & Hc & [= Ei] & [= Ej]).
    apply (expected_id_inj _ (length df)); [done | done | congruence | lia].
  - intros E. exists (expected_id (DSUInv.repr d) (length df) i).
    rewrite (expected_id_same_set _ _ i j E). split_and!; [|done..].
    rewrite <- (expected_id_same_set _ _ i j E).
    pose proof (class_size_two _ (length df) i j Hi Hj Hne E).
    destruct (expected_id_cases (DSUInv.repr d) (length df) i Hi) as [[? _]|[_ ?]];
      [lia | done].
Qed.

(** X15: a cluster never leaves its block.  Two records with one
    identifier that is not negative have one blocking key. *)
Theorem clusters_within_blocks {Timestamp : Type}
    (isoformat : Timestamp → string) (partial_ratio : string → string → Q)
    (df : list (row Timestamp)) :
  ∃ ids, detect_duplicates isoformat partial_ratio df = Ret (Some <$> ids)
    ∧ ∀ i j c, ids !! i = Some c → ids !! j = Some c → (0 ≤ c)%Z →
        same_key isoformat df i j.
Proof.
  destruct (detect_duplicates_spec isoformat partial_ratio df)
    as (d & _ & _ & _ & Hconn & Hdet).
  eexists. split; [exact Hdet|]. intros i j c Hi Hj Hc.
  assert (i < length df ∧ j < length df) as [Li Lj].
  { apply lookup_lt_Some in Hi, Hj.
    rewrite length_fmap, length_seq in Hi, Hj. done. }
  rewrite list_lookup_fmap, lookup_seq_lt in Hi, Hj by done.
  injection Hi as Hi. injection Hj as Hj.
  assert (DSUInv.repr d i = DSUInv.repr d j) as E.
  { apply (expected_id_inj _ (length df)); [done | done | congruence | lia]. }
  apply Hconn, (conn_same_key isoformat partial_ratio) in E.
  destruct (lookup_lt_is_Some_2 df i Li) as [ri Hri].
  exists (key_of isoformat ri). unfold key_at in *. rewrite <- E, Hri. done.
Qed.

(** X16: no flag without a match.  A record is given an identifier that
    is not negative exactly when some other record with the same blocking
    key has a similar name, the name of the earlier of the two scored
    against the name of the later. *)
Theorem flagged_iff_matched {Timestamp : Type}
    (isoformat : Timestamp → string) (partial_ratio : string → string → Q)
    (df : list (row Timestamp)) :
  ∃ ids, detect_duplicates isoformat partial_ratio df = Ret (Some <$> ids)
    ∧ ∀ i, i < length df →
        ((∃ c, ids !! i = Some c ∧ (0 ≤ c)%Z)
         ↔ ∃ j, same_key isoformat df i j
                ∧ ((i < j ∧ similar partial_ratio (name_of df i) (name_of df j) = true)
                   ∨ (j < i
                      ∧ similar partial_ratio (name_of df j) (name_of df i) = true))).
Proof.
  destruct (detect_duplicates_spec isoformat partial_ratio df)
    as (d & _ & _ & _ & Hconn & Hdet).
  eexists. split; [exact Hdet|]. intros i Hi.
  rewrite list_lookup_fmap, lookup_seq_lt by done. simpl. split.
  - intros (c & [= <-] & Hc).
    destruct (expected_id_cases (DSUInv.repr d) (length df) i Hi) as [[_ ?]|[Hcnt _]];
      [lia|].
    destruct (class_other _ _ i Hi Hcnt) as (j & Hj & Hne & E).
    symmetry in E. apply Hconn in E.
    destruct (conn_touched _ i j E ltac:(done)) as [[x [Hx|Hx]] _];
      apply (link_pairs_iff isoformat partial_ratio) in Hx as (? & Hk & ?);
      exists x.
    + split; [done | by left].
    + split; [|by right]. destruct Hk as (k & ? & ?). by exists k.
  - intros (j & Hk & Hm). exists (expected_id (DSUInv.repr d) (length df) i).
    split; [done|].
    assert (j < length df) as Hj.
    { destruct Hk as (k & _ & Kj). unfold key_at in Kj.
      destruct (df !! j) eqn:E; [|done]. by eapply lookup_lt_Some. }
    assert (conn (link_pairs isoformat partial_ratio df) i j ∧ i ≠ j) as [Hc Hne].
    { destruct Hm as [[? ?]|[? ?]].
      - split; [|lia]. apply conn_edge, link_pairs_iff. done.
      - split; [|lia]. apply conn_sym, conn_edge, link_pairs_iff.
        split_and!; [done | | done]. destruct Hk as (k & ? & ?). by exists k. }
    apply Hconn in Hc.
    pose proof (class_size_two _ (length df) i j Hi Hj Hne Hc).
    destruct (expected_id_cases (DSUInv.repr d) (length df) i Hi) as [[? _]|[_ ?]];
      [lia | done].
Qed.


(* ===================================================================== *)
(** ** Further properties of process_file *)
(* ===================================================================== *)

Section MoreProcessFacts.
Context {Timestamp Cell : Type} (isoformat : Timestamp → string)
        (dt_normalize : Timestamp → Timestamp)
        (to_datetime : list (option Cell) → list (option Timestamp))
        (partial_ratio : string → string → Q).

Lemma imap_annotate_ids (f : nat → nat) n (rows : list (patient Cell)) :
  Unique_ID <$> imap (annotate f n) rows = seq 1 (length rows).
Proof.
  apply list_eq. intros i. rewrite list_lookup_fmap, list_lookup_imap.
  destruct (rows !! i) as [p|] eqn:E; simpl.
  - apply lookup_lt_Some in E. rewrite lookup_seq_lt by done. f_equal. lia.
  - apply lookup_ge_None in E. by rewrite lookup_seq_ge.
Qed.

Lemma imap_annotate_source (f : nat → nat) n (rows : list (patient Cell)) :
  source <$> imap (annotate f n) rows = rows.
Proof.
  apply list_eq. intros i. rewrite list_lookup_fmap, list_lookup_imap.
  by destruct (rows !! i).
Qed.

Lemma concat_lookup {A} (ls : list (list A)) k l r x :
  ls !! k = Some l → l !! r = Some x →
  concat ls !! (sum_list (length <$> take k ls) + r) = Some x.
Proof.
  revert k. induction ls as [|l0 ls IH]; intros k Hk Hr; [done|].
  destruct k as [|k]; csimpl in *.
  - injection Hk as ->. by rewrite lookup_app_l by (by eapply lookup_lt_Some).
  - specialize (IH k Hk Hr). rewrite lookup_app_r by lia.
    rewrite <- IH. f_equal. lia.
Qed.

Lemma tag_sheet_lengths (sheets : list (string * list (patient Cell))) :
  length <$> (tag_sheet <$> sheets) = (λ sh, length sh.2) <$> sheets.
Proof.
  rewrite <- list_fmap_compose. apply list_fmap_ext. intros _ sh _. simpl.
  apply length_imap.
Qed.

Lemma length_concat {A} (ls : list (list A)) :
  length (concat ls) = sum_list (length <$> ls).
Proof. induction ls as [|l ls IH]; [done|]. csimpl. by rewrite length_app, IH. Qed.

Lemma process_file_rows (rows : list (patient Cell)) :
  ∃ out s,
    process_file isoformat dt_normalize to_datetime partial_ratio rows = Ret (out, s)
    ∧ Unique_ID <$> out = seq 1 (length rows)
    ∧ source <$> out = rows.
Proof.
  destruct (process_file_spec isoformat dt_normalize to_datetime partial_ratio rows)
    as (d & _ & _ & _ & _ & s & Hproc & _).
  eexists _, s. split; [exact Hproc|].
  split; [apply imap_annotate_ids | apply imap_annotate_source].
Qed.

Lemma first_token_empty n :
  no_lead (list_ascii_of_string n) → (first_token n = "" ↔ n = "").
Proof.
  intros Hl. split; [|by intros ->]. unfold first_token.
  destruct n as [|c t]; [done|]. simpl in *.
  case_bool_decide as E; [by subst c|]. discriminate.
Qed.

End MoreProcessFacts.

(** X17: the unique identifiers are the row numbers.  [process_file]
    returns one record for every row, in the order of the rows, and the
    unique identifiers are 1, 2, ..., whatever the clustering. *)
Theorem unique_ids_in_order {Timestamp Cell : Type}
    (isoformat : Timestamp → string) (dt_normalize : Timestamp → Timestamp)
    (to_datetime : list (option Cell) → list (option Timestamp))
    (partial_ratio : string → string → Q) (rows : list (patient Cell)) :
  ∃ out s,
    process_file isoformat dt_normalize to_datetime partial_ratio rows = Ret (out, s)
    ∧ Unique_ID <$> out = seq 1 (length rows)
    ∧ source <$> out = rows
    ∧ Total_Records s = length rows.
Proof.
  destruct (process_file_spec isoformat dt_normalize to_datetime partial_ratio rows)
    as (d & _ & _ & _ & _ & s & Hproc & Ht & _).
  eexists _, s. split; [exact Hproc|].
  split_and!; [apply imap_annotate_ids | apply imap_annotate_source | done].
Qed.

(** X18: the rows of the sheets keep their place.  Row [r] of sheet [k]
    (both counted from 0) stands in the concatenated frame behind all
    rows of the earlier sheets and the earlier rows of its sheet, tagged
    with the name of its sheet and the row number [r + 1], and its unique
    identifier is its position in the frame plus one. *)
Theorem sheet_rows_keep_their_place {Timestamp Cell : Type}
    (isoformat : Timestamp → string) (dt_normalize : Timestamp → Timestamp)
    (to_datetime : list (option Cell) → list (option Timestamp))
    (partial_ratio : string → string → Q)
    (sheets : list (string * list (patient Cell)))
    (k r : nat) (name : string) (rows : list (patient Cell)) (p : patient Cell) :
  sheets !! k = Some (name, rows) → rows !! r = Some p →
  let pos := sum_list ((λ sh, length sh.2) <$> take k sheets) + r in
  ∃ df out s,
    concat_sheets sheets = Some df
    ∧ length df = sum_list ((λ sh, length sh.2) <$> sheets)
    ∧ df !! pos = Some (mk_tagged name (r + 1) p)
    ∧ process_file isoformat dt_normalize to_datetime partial_ratio (cells <$> df)
      = Ret (out, s)
    ∧ ∃ a, out !! pos = Some a ∧ Unique_ID a = pos + 1 ∧ source a = p.
Proof.
  intros Hk Hr pos.
  assert (concat (tag_sheet <$> sheets) !! pos = Some (mk_tagged name (r + 1) p)) as Hpos.
  { unfold pos. rewrite fmap_take, <- tag_sheet_lengths, <- fmap_take.
    apply (concat_lookup _ k (tag_sheet (name, rows))).
    - by rewrite list_lookup_fmap, Hk.
    - unfold tag_sheet. cbn [fst snd]. by rewrite list_lookup_imap, Hr. }
  destruct (process_file_rows isoformat dt_normalize to_datetime partial_ratio
              (cells <$> concat (tag_sheet <$> sheets))) as (out & s & Hproc & Hid & Hsrc).
  exists (concat (tag_sheet <$> sheets)), out, s.
  split_and!; [by destruct sheets | | done | done |].
  - by rewrite length_concat, tag_sheet_lengths.
  - assert (length out = length (concat (tag_sheet <$> sheets))) as Hlen.
    { by rewrite <- (length_fmap source), Hsrc, length_fmap. }
    assert (pos < length out) as Hlt.
    { rewrite Hlen. by eapply lookup_lt_Some. }
    destruct (lookup_lt_is_Some_2 out pos Hlt) as [a Ha]. exists a.
    split; [done|]. split.
    + apply (f_equal (λ l, l !! pos)) in Hid.
      rewrite list_lookup_fmap, Ha, length_fmap, <- Hlen, lookup_seq_lt in Hid by done.
      simpl in Hid. injection Hid as ->. lia.
    + apply (f_equal (λ l, l !! pos)) in Hsrc.
      rewrite !list_lookup_fmap, Ha, Hpos in Hsrc. simpl in Hsrc. by injection Hsrc.
Qed.

(** A workbook of two sheets: the second row of the second sheet is the
    third row of the frame, with the unique identifier 3. *)
Lemma sheet_rows_keep_their_place_witness :
  let p1 := mk_patient (Some "Ann Lee") (Some "1990-01-01") (Some "F") in
  let p2 := mk_patient (Some "Bob Ray") (Some "1985-05-05") (Some "M") in
  let p3 := mk_patient (Some "ann lee") (Some "1990-01-01") (Some "female") in
  let sheets := [("Ward A", [p1]); ("Ward B", [p2; p3])] in
  ∃ df out s,
    concat_sheets sheets = Some df
    ∧ length df = 3
    ∧ df !! 2 = Some (mk_tagged "Ward B" 2 p3)
    ∧ Sample.process (cells <$> df) = Ret (out, s)
    ∧ ∃ a, out !! 2 = Some a ∧ Unique_ID a = 3 ∧ source a = p3.
Proof.
  intros p1 p2 p3 sheets.
  exact (sheet_rows_keep_their_place Sample.isoformat Sample.dt_normalize
           Sample.to_datetime Sample.partial_ratio sheets 1 1 "Ward B" [p2; p3] p3
           eq_refl eq_refl).
Defined.

Section DuplicatesFrameFacts.
Context {Cell : Type}.

Lemma annotate_flag (f : nat → nat) n i (p : patient Cell) :
  Is_Duplicate (annotate f n i p) = true ↔ (0 ≤ expected_id f n i)%Z.
Proof.
  unfold annotate, is_duplicate. simpl. apply Z.leb_le.
Qed.

Lemma expected_id_flag (f : nat → nat) n i :
  (0 ≤ expected_id f n i)%Z ↔ 1 < count_to f n (f i).
Proof. unfold expected_id. case_decide; split; (done || lia). Qed.

Lemma elem_of_imap_annotate (f : nat → nat) n (rows : list (patient Cell)) a :
  a ∈ imap (annotate f n) rows ↔ ∃ i p, rows !! i = Some p ∧ a = annotate f n i p.
Proof.
  rewrite list_elem_of_lookup. split.
  - intros [i Hi]. rewrite list_lookup_imap in Hi.
    destruct (rows !! i) as [p|] eqn:E; [|done]. simpl in Hi.
    exists i, p. split; [done|]. by injection Hi.
  - intros (i & p & Hp & ->). exists i. by rewrite list_lookup_imap, Hp.
Qed.

End DuplicatesFrameFacts.

(** X19: the frame of the duplicates.  The fourth value of [process_file]
    keeps the flagged records in the order of the rows, the summary counts
    them, and no flagged record stands alone: another flagged record has
    its cluster identifier.  So the frame never holds exactly one record. *)
Theorem duplicates_frame_pairs {Timestamp Cell : Type}
    (isoformat : Timestamp → string) (dt_normalize : Timestamp → Timestamp)
    (to_datetime : list (option Cell) → list (option Timestamp))
    (partial_ratio : string → string → Q) (rows : list (patient Cell)) :
  ∃ out s,
    process_file isoformat dt_normalize to_datetime partial_ratio rows = Ret (out, s)
    ∧ duplicates_frame out `sublist_of` out
    ∧ Duplicate_Records s = length (duplicates_frame out)
    ∧ Duplicate_Records s ≤ Total_Records s
    ∧ Duplicate_Records s ≠ 1
    ∧ ∀ a, a ∈ duplicates_frame out →
        ∃ a', a' ∈ duplicates_frame out
          ∧ Unique_ID a' ≠ Unique_ID a ∧ Cluster_ID a' = Cluster_ID a.
Proof.
  destruct (process_file_spec isoformat dt_normalize to_datetime partial_ratio rows)
    as (d & _ & _ & _ & _ & s & Hproc & Ht & Hd & _).
  set (f := DSUInv.repr d) in *. set (n := length rows) in *.
  set (out := imap (annotate f n) rows) in *.
  assert (∀ a, a ∈ duplicates_frame out →
            ∃ a', a' ∈ duplicates_frame out
              ∧ Unique_ID a' ≠ Unique_ID a ∧ Cluster_ID a' = Cluster_ID a) as Hpair.
  { intros a Ha. unfold duplicates_frame in Ha.
    apply list_elem_of_filter in Ha as [Hfl Hin].
    apply elem_of_imap_annotate in Hin as (i & p & Hp & ->).
    apply annotate_flag, expected_id_flag in Hfl.
    assert (i < n) as Hi by (by eapply lookup_lt_Some).
    destruct (class_other f n i Hi Hfl) as (j & Hj & Hne & Hfj).
    destruct (lookup_lt_is_Some_2 rows j Hj) as [q Hq].
    assert (expected_id f n j = expected_id f n i) as Heq.
    { by apply expected_id_same_set. }
    exists (annotate f n j q). split_and!.
    - apply list_elem_of_filter. split.
      + apply annotate_flag. rewrite Heq. by apply expected_id_flag.
      + apply elem_of_imap_annotate. by exists j, q.
    - simpl. lia.
    - simpl. by rewrite Heq. }
  exists out, s. split_and!; [done | apply sublist_filter | done | | | done].
  - rewrite Hd, Ht. etrans; [apply length_filter|].
    unfold out. by rewrite length_imap.
  - rewrite Hd. fold (duplicates_frame out). intros Hone.
    destruct (duplicates_frame out) as [|a [|b l]] eqn:E; [done| |done].
    destruct (Hpair a) as (a' & Ha' & Hne & _); [apply list_elem_of_here|].
    apply list_elem_of_singleton in Ha'. by subst a'.
Qed.

(** X20: the columns of the normalised frame.  The frame has one row for
    every input row; a missing name or gender is normalised like the
    empty string; and the phonetic code of a row is empty exactly when its
    normalised name is, and has three or four characters otherwise. *)
Theorem frame_columns {Timestamp Cell : Type}
    (dt_normalize : Timestamp → Timestamp)
    (to_datetime : list (option Cell) → list (option Timestamp))
    (rows : list (patient Cell)) :
  let df := normalize_frame dt_normalize to_datetime rows in
  length df = length rows
  ∧ ∀ i r, df !! i = Some r →
      ∃ p, rows !! i = Some p
        ∧ Name_norm r = normalize_name (Name p)
        ∧ Gender_norm r = normalize_gender (Gender p)
        ∧ (Soundex r = "" ↔ Name_norm r = "")
        ∧ (Name_norm r ≠ "" → 3 ≤ String.length (Soundex r) ≤ 4).
Proof.
  intros df. split; [apply normalize_frame_length|].
  intros i r Hr. unfold df, normalize_frame in Hr.
  rewrite list_lookup_imap in Hr.
  destruct (rows !! i) as [p|] eqn:Hp; [|done].
  cbn [fmap option_fmap option_map] in Hr. cbv zeta in Hr.
  apply (inj Some) in Hr. subst r. exists p. cbn [Name_norm Gender_norm Soundex].
  assert (∀ o, normalize_name (Some (default "" o)) = normalize_name o) as Hn
    by (by intros [?|]).
  assert (∀ o, normalize_gender (Some (default "" o)) = normalize_gender o) as Hg
    by (by intros [?|]).
  rewrite !Hn, Hg.
  assert (first_token (normalize_name (Name p)) = "" ↔ normalize_name (Name p) = "")
    as Hft.
  { apply first_token_empty. destruct (Name p) as [s|]; [|done]. simpl.
    rewrite list_ascii_of_string_of_list_ascii.
    apply normalize_name_chars_no_lead. }
  split_and!; [done | done | done | by rewrite soundex_empty |].
  intros Hne. apply soundex_length. by rewrite Hft.
Qed.
